(** * Suoka: the merge-game engine

    A shallow embedding of the game logic of the Suoka component (the
    particle pool, the React state store, the disc table, merge detection
    and resolution, the danger-line detector, drop placement and the session
    controls), with the properties of its specification stated over it.

    Conventions of the embedding.
    - A JavaScript [number] that holds a coordinate, a speed or a time is a
      rational ([Q]); rounding of IEEE doubles and NaN are not modelled.
      A number that the program only ever uses as an integer (disc values,
      scores, counters, array indices) is a [Z]; identifiers are [nat].
    - [performance.now()] is an argument [now] of every handler: one reading
      of the clock per handler invocation.
    - [Math.random()] is a stream [random : nat -> Q]; the state counts the
      calls made so far.
    - [Math.log2], [Math.sqrt], [Math.cos] and [Math.sin] are parameters.
    - [setTimeout] appends a closure to the list of pending timers of the
      browser; a timer is fired by an explicit step, once it is due. *)

From Stdlib Require Import QArith Qminmax Qround Lqa Lia ZArith List String Bool Arith.
Import ListNotations.
Local Open Scope Q_scope.

(** * Part I: the program *)

(** ** Numbers *)

Module Num.

Definition leb (a b : Q) : bool := Qle_bool a b.
Definition ltb (a b : Q) : bool := negb (Qle_bool b a).
Definition geb (a b : Q) : bool := leb b a.
Definition gtb (a b : Q) : bool := ltb b a.

(** [Math.floor] *)
Definition floor (a : Q) : Z := Qfloor a.

(** [Math.max] and [Math.min] *)
Definition max (a b : Q) : Q := Qmax a b.
Definition min (a b : Q) : Q := Qmin a b.

End Num.

Infix "<=?" := Num.leb (at level 70, no associativity) : Q_scope.
Infix "<?" := Num.ltb (at level 70, no associativity) : Q_scope.
Infix ">=?" := Num.geb (at level 70, no associativity) : Q_scope.
Infix ">?" := Num.gtb (at level 70, no associativity) : Q_scope.

(** ** Insertion-ordered maps and sets keyed by numbers

    A JavaScript [Map<number, V>] iterates in insertion order; it is a list
    of bindings with one binding per key. *)

Module JsMap.
Section WithValue.
Context {V : Type}.

Definition t := list (nat * V).

Definition empty : t := [].

Fixpoint get (k : nat) (m : t) : option V :=
  match m with
  | [] => None
  | (k', v) :: r => if Nat.eqb k k' then Some v else get k r
  end.

Definition has (k : nat) (m : t) : bool :=
  match get k m with Some _ => true | None => false end.

(** [set] replaces the value of a key that is present, in place, and
    appends a new key at the end. *)
Fixpoint set (k : nat) (v : V) (m : t) : t :=
  match m with
  | [] => [(k, v)]
  | (k', v') :: r =>
      if Nat.eqb k k' then (k, v) :: r else (k', v') :: set k v r
  end.

Definition delete (k : nat) (m : t) : t :=
  filter (fun kv => negb (Nat.eqb k (fst kv))) m.

Definition size (m : t) : nat := List.length m.

Definition values (m : t) : list V := map snd m.

Definition keys (m : t) : list nat := map fst m.

End WithValue.
Arguments t : clear implicits.
End JsMap.

(** A JavaScript [Set<number>]. *)

Module JsSet.

Definition t := list nat.

Definition empty : t := [].

Definition has (k : nat) (s : t) : bool := existsb (Nat.eqb k) s.

Definition add (k : nat) (s : t) : t := if has k s then s else s ++ [k].

Definition delete (k : nat) (s : t) : t :=
  filter (fun k' => negb (Nat.eqb k k')) s.

End JsSet.

(** ** Typed arrays

    A [Float32Array] or [Uint8Array] of fixed length, indexed by a number: a
    read out of range gives [undefined] (here the default), a write out of
    range is ignored. *)

Module TypedArray.
Section WithElem.
Context {E : Type}.

Definition create (zero : E) (n : nat) : list E := repeat zero n.

Definition read (zero : E) (a : list E) (i : Z) : E :=
  if (i <? 0)%Z then zero else nth (Z.to_nat i) a zero.

Fixpoint write_nat (a : list E) (i : nat) (v : E) : list E :=
  match a, i with
  | [], _ => []
  | _ :: r, O => v :: r
  | e :: r, S j => e :: write_nat r j v
  end.

Definition write (a : list E) (i : Z) (v : E) : list E :=
  if (i <? 0)%Z then a else write_nat a (Z.to_nat i) v.

End WithElem.
End TypedArray.

(** ** The particle pool (class [ParticlePool])

    [freeList] is the JavaScript array in array order: [push] appends at the
    end and [pop] removes the last element. *)

Module ParticlePool.

Record t := mk {
  capacity : Z;
  count : Z;
  freeList : list Z;
  x : list Q;
  y : list Q;
  vx : list Q;
  vy : list Q;
  size : list Q;
  maxSize : list Q;
  life : list Q;
  maxLife : list Q;
  startTime : list Q;
  colorIndex : list Z
}.

(** The loop [for (let i = capacity - 1; i >= 0; i--) freeList.push(i)]. *)
Definition initialFreeList (cap : nat) : list Z :=
  rev (map Z.of_nat (seq 0 cap)).

Definition create (cap : nat) : t :=
  {| capacity := Z.of_nat cap;
     count := 0;
     freeList := initialFreeList cap;
     x := TypedArray.create 0 cap;
     y := TypedArray.create 0 cap;
     vx := TypedArray.create 0 cap;
     vy := TypedArray.create 0 cap;
     size := TypedArray.create 0 cap;
     maxSize := TypedArray.create 0 cap;
     life := TypedArray.create 0 cap;
     maxLife := TypedArray.create 0 cap;
     startTime := TypedArray.create 0 cap;
     colorIndex := TypedArray.create 0%Z cap |}.

Definition with_free (c : Z) (f : list Z) (p : t) : t :=
  mk (capacity p) c f (x p) (y p) (vx p) (vy p) (size p) (maxSize p)
     (life p) (maxLife p) (startTime p) (colorIndex p).

(** [acquire]: the sentinel -1 when the free list is empty. *)
Definition acquire (p : t) : Z * t :=
  match rev (freeList p) with
  | [] => ((-1)%Z, p)
  | index :: r => (index, with_free (count p + 1)%Z (rev r) p)
  end.

Definition release (index : Z) (p : t) : t :=
  if ((index <? 0) || (index >=? capacity p))%Z then p
  else with_free (count p - 1)%Z (freeList p ++ [index]) p.

Definition clear (p : t) : t :=
  with_free 0%Z (initialFreeList (Z.to_nat (capacity p))) p.

Definition getActiveCount (p : t) : Z := count p.

Definition getCapacity (p : t) : Z := capacity p.

(** The ten array writes that initialise one particle. *)
Record Init := mkInit {
  ix : Q; iy : Q; ivx : Q; ivy : Q; isize : Q; ilife : Q; istart : Q;
  icolor : Z
}.

Definition store (i : Z) (d : Init) (p : t) : t :=
  mk (capacity p) (count p) (freeList p)
     (TypedArray.write (x p) i (ix d))
     (TypedArray.write (y p) i (iy d))
     (TypedArray.write (vx p) i (ivx d))
     (TypedArray.write (vy p) i (ivy d))
     (TypedArray.write (size p) i (isize d))
     (TypedArray.write (maxSize p) i (isize d))
     (TypedArray.write (life p) i (ilife d))
     (TypedArray.write (maxLife p) i (ilife d))
     (TypedArray.write (startTime p) i (istart d))
     (TypedArray.write (colorIndex p) i (icolor d)).

End ParticlePool.

(** ** The React-facing state and its store (class [GameStateStore]) *)

Module GameState.

Record t := mk {
  score : Z;
  best : Z;
  nextValue : Z;
  running : bool;
  paused : bool;
  ended : bool;
  endReason : string
}.

End GameState.

(** [Partial<GameState>]: a field that is absent is [None]. *)

Module PartialGameState.

Record t := mk {
  score : option Z;
  best : option Z;
  nextValue : option Z;
  running : option bool;
  paused : option bool;
  ended : option bool;
  endReason : option string
}.

Definition none : t := mk None None None None None None None.

End PartialGameState.

Module GameStateStore.

Record t := mk {
  state : GameState.t;
  listeners : JsSet.t;
  updateThrottle : Q
}.

Definition throttleMs : Q := 100.

Definition create (initialState : GameState.t) : t :=
  mk initialState JsSet.empty 0.

Definition getState (s : t) : GameState.t := state s.

Definition pick {A : Type} (new : option A) (old : A) : A :=
  match new with Some v => v | None => old end.

(** The object spread [{ ...this.state, ...newState }]. *)
Definition spread (old : GameState.t) (new : PartialGameState.t) : GameState.t :=
  GameState.mk
    (pick (PartialGameState.score new) (GameState.score old))
    (pick (PartialGameState.best new) (GameState.best old))
    (pick (PartialGameState.nextValue new) (GameState.nextValue old))
    (pick (PartialGameState.running new) (GameState.running old))
    (pick (PartialGameState.paused new) (GameState.paused old))
    (pick (PartialGameState.ended new) (GameState.ended old))
    (pick (PartialGameState.endReason new) (GameState.endReason old)).

(** [setState] returns the store and the listeners it has called, in the
    order of the calls. *)
Definition setState (now : Q) (newState : PartialGameState.t) (s : t)
  : t * list nat :=
  if now - updateThrottle s <? throttleMs then (s, [])
  else (mk (spread (state s) newState) (listeners s) now, listeners s).

Definition subscribe (listener : nat) (s : t) : t :=
  mk (state s) (JsSet.add listener (listeners s)) (updateThrottle s).

Definition unsubscribe (listener : nat) (s : t) : t :=
  mk (state s) (JsSet.delete listener (listeners s)) (updateThrottle s).

End GameStateStore.

(** ** Bodies of the physics engine, discs, animations, merge requests *)

Module Vector.

Record t := mk { x : Q; y : Q }.

Definition zero : t := mk 0 0.

Definition sub (a b : t) : t := mk (x a - x b) (y a - y b).

Definition add (a b : t) : t := mk (x a + x b) (y a + y b).

End Vector.

Module Body.

Record t := mk {
  id : nat;
  label : string;
  position : Vector.t;
  velocity : Vector.t;
  force : Vector.t
}.

(** [Bodies.circle(x, y, radius, { label: "circle", ... })], with the
    identifier the engine gives it. *)
Definition circle (newId : nat) (x y : Q) : t :=
  mk newId "circle" (Vector.mk x y) Vector.zero Vector.zero.

Definition setPosition (b : t) (p : Vector.t) : t :=
  mk (id b) (label b) p (velocity b) (force b).

(** [Body.applyForce(body, body.position, f)]: applied at the centre, the
    force adds no torque. *)
Definition applyForce (b : t) (f : Vector.t) : t :=
  mk (id b) (label b) (position b) (velocity b) (Vector.add (force b) f).

Definition isCircle (b : t) : bool := String.eqb (label b) "circle".

End Body.

Module CircleData.

Record t := mk {
  body : Body.t;
  value : Z;
  bornAt : Q;
  id : nat
}.

Definition with_body (b : Body.t) (d : t) : t :=
  mk b (value d) (bornAt d) (id d).

End CircleData.

Inductive AnimationType := merge | spawn.

Module Animation.

Record t := mk {
  startTime : Q;
  duration : Q;
  type : AnimationType;
  targetX : option Q;
  targetY : option Q;
  startX : option Q;
  startY : option Q;
  scale : option Q
}.

Definition with_scale (s : Q) (a : t) : t :=
  mk (startTime a) (duration a) (type a) (targetX a) (targetY a)
     (startX a) (startY a) (Some s).

End Animation.

Module MergeRequest.

Record t := mk {
  bodyAId : nat;
  bodyBId : nat;
  x : Q;
  y : Q;
  value : Z;
  timestamp : Q
}.

End MergeRequest.

(** ** The session state (the object [state] of [initGame]) *)

Module State.

Record t := mk {
  previewX : Q;
  score : Z;
  best : Z;
  nextValue : Z;
  running : bool;
  paused : bool;
  lastDropTs : Q;
  ended : bool;
  endReason : string;
  circles : JsMap.t CircleData.t;
  nextLocalId : nat;
  mergingCircles : JsSet.t;
  animations : JsMap.t Animation.t;
  mergeQueue : list MergeRequest.t;
  highestCircleTop : Q;
  previewUpdateTime : Q
}.

Definition with_previewX (v : Q) (s : t) : t :=
  mk v (score s) (best s) (nextValue s) (running s) (paused s)
     (lastDropTs s) (ended s) (endReason s) (circles s) (nextLocalId s)
     (mergingCircles s) (animations s) (mergeQueue s) (highestCircleTop s)
     (previewUpdateTime s).

Definition with_score (v : Z) (s : t) : t :=
  mk (previewX s) v (best s) (nextValue s) (running s) (paused s)
     (lastDropTs s) (ended s) (endReason s) (circles s) (nextLocalId s)
     (mergingCircles s) (animations s) (mergeQueue s) (highestCircleTop s)
     (previewUpdateTime s).

Definition with_best (v : Z) (s : t) : t :=
  mk (previewX s) (score s) v (nextValue s) (running s) (paused s)
     (lastDropTs s) (ended s) (endReason s) (circles s) (nextLocalId s)
     (mergingCircles s) (animations s) (mergeQueue s) (highestCircleTop s)
     (previewUpdateTime s).

Definition with_nextValue (v : Z) (s : t) : t :=
  mk (previewX s) (score s) (best s) v (running s) (paused s)
     (lastDropTs s) (ended s) (endReason s) (circles s) (nextLocalId s)
     (mergingCircles s) (animations s) (mergeQueue s) (highestCircleTop s)
     (previewUpdateTime s).

Definition with_running (v : bool) (s : t) : t :=
  mk (previewX s) (score s) (best s) (nextValue s) v (paused s)
     (lastDropTs s) (ended s) (endReason s) (circles s) (nextLocalId s)
     (mergingCircles s) (animations s) (mergeQueue s) (highestCircleTop s)
     (previewUpdateTime s).

Definition with_paused (v : bool) (s : t) : t :=
  mk (previewX s) (score s) (best s) (nextValue s) (running s) v
     (lastDropTs s) (ended s) (endReason s) (circles s) (nextLocalId s)
     (mergingCircles s) (animations s) (mergeQueue s) (highestCircleTop s)
     (previewUpdateTime s).

Definition with_lastDropTs (v : Q) (s : t) : t :=
  mk (previewX s) (score s) (best s) (nextValue s) (running s) (paused s)
     v (ended s) (endReason s) (circles s) (nextLocalId s)
     (mergingCircles s) (animations s) (mergeQueue s) (highestCircleTop s)
     (previewUpdateTime s).

Definition with_ended (v : bool) (s : t) : t :=
  mk (previewX s) (score s) (best s) (nextValue s) (running s) (paused s)
     (lastDropTs s) v (endReason s) (circles s) (nextLocalId s)
     (mergingCircles s) (animations s) (mergeQueue s) (highestCircleTop s)
     (previewUpdateTime s).

Definition with_endReason (v : string) (s : t) : t :=
  mk (previewX s) (score s) (best s) (nextValue s) (running s) (paused s)
     (lastDropTs s) (ended s) v (circles s) (nextLocalId s)
     (mergingCircles s) (animations s) (mergeQueue s) (highestCircleTop s)
     (previewUpdateTime s).

Definition with_circles (v : JsMap.t CircleData.t) (s : t) : t :=
  mk (previewX s) (score s) (best s) (nextValue s) (running s) (paused s)
     (lastDropTs s) (ended s) (endReason s) v (nextLocalId s)
     (mergingCircles s) (animations s) (mergeQueue s) (highestCircleTop s)
     (previewUpdateTime s).

Definition with_nextLocalId (v : nat) (s : t) : t :=
  mk (previewX s) (score s) (best s) (nextValue s) (running s) (paused s)
     (lastDropTs s) (ended s) (endReason s) (circles s) v
     (mergingCircles s) (animations s) (mergeQueue s) (highestCircleTop s)
     (previewUpdateTime s).

Definition with_mergingCircles (v : JsSet.t) (s : t) : t :=
  mk (previewX s) (score s) (best s) (nextValue s) (running s) (paused s)
     (lastDropTs s) (ended s) (endReason s) (circles s) (nextLocalId s)
     v (animations s) (mergeQueue s) (highestCircleTop s)
     (previewUpdateTime s).

Definition with_animations (v : JsMap.t Animation.t) (s : t) : t :=
  mk (previewX s) (score s) (best s) (nextValue s) (running s) (paused s)
     (lastDropTs s) (ended s) (endReason s) (circles s) (nextLocalId s)
     (mergingCircles s) v (mergeQueue s) (highestCircleTop s)
     (previewUpdateTime s).

Definition with_mergeQueue (v : list MergeRequest.t) (s : t) : t :=
  mk (previewX s) (score s) (best s) (nextValue s) (running s) (paused s)
     (lastDropTs s) (ended s) (endReason s) (circles s) (nextLocalId s)
     (mergingCircles s) (animations s) v (highestCircleTop s)
     (previewUpdateTime s).

Definition with_highestCircleTop (v : Q) (s : t) : t :=
  mk (previewX s) (score s) (best s) (nextValue s) (running s) (paused s)
     (lastDropTs s) (ended s) (endReason s) (circles s) (nextLocalId s)
     (mergingCircles s) (animations s) (mergeQueue s) v
     (previewUpdateTime s).

Definition with_previewUpdateTime (v : Q) (s : t) : t :=
  mk (previewX s) (score s) (best s) (nextValue s) (running s) (paused s)
     (lastDropTs s) (ended s) (endReason s) (circles s) (nextLocalId s)
     (mergingCircles s) (animations s) (mergeQueue s) (highestCircleTop s)
     v.

End State.

(** ** The engine, the board, the timers and the whole game *)

Module Engine.

(** [world] lists the identifiers of the disc bodies that are in
    [engine.world], in the order they were added; the data of a body lives
    in the disc that owns it. [nextBodyId] is the identifier that the next
    body created gets: the engine numbers bodies with a global counter. *)
Record t := mk {
  timeScale : Q;
  world : list nat;
  nextBodyId : nat
}.

Definition add (bodyId : nat) (e : t) : t :=
  mk (timeScale e) (world e ++ [bodyId]) (nextBodyId e).

Definition remove (bodyId : nat) (e : t) : t :=
  mk (timeScale e) (JsSet.delete bodyId (world e)) (nextBodyId e).

Definition with_timeScale (v : Q) (e : t) : t :=
  mk v (world e) (nextBodyId e).

Definition fresh (e : t) : nat * t :=
  (nextBodyId e, mk (timeScale e) (world e) (S (nextBodyId e))).

End Engine.

(** The board: [dynamicBoardW], [dynamicBoardH] and [isMobile]; [cfg.boardW]
    and [cfg.boardH] are assigned together with them and are the same
    numbers. *)
Record Board := mkBoard {
  dynamicBoardW : Q;
  dynamicBoardH : Q;
  isMobile : bool
}.

(** A pending [setTimeout]: the time it is due and what its closure holds. *)
Inductive Timer :=
| MergeCompletion (due : Q) (aBodyId bBodyId : nat) (x y : Q) (newValue : Z)
| TimeScaleResume (due : Q).

Definition due_of (t : Timer) : Q :=
  match t with
  | MergeCompletion d _ _ _ _ _ => d
  | TimeScaleResume d => d
  end.

Record Game := mkGame {
  state : State.t;
  store : GameStateStore.t;
  particlePool : ParticlePool.t;
  engine : Engine.t;
  board : Board;
  timers : list Timer;
  lastBestSave : Q;
  savedBest : Z;
  lastParticleUpdate : Q;
  targetFPS : Q;
  showModal : bool;
  toasts : list string;
  randomCalls : nat
}.

Definition with_state (v : State.t) (g : Game) : Game :=
  mkGame v (store g) (particlePool g) (engine g) (board g) (timers g)
    (lastBestSave g) (savedBest g) (lastParticleUpdate g) (targetFPS g)
    (showModal g) (toasts g) (randomCalls g).

Definition with_store (v : GameStateStore.t) (g : Game) : Game :=
  mkGame (state g) v (particlePool g) (engine g) (board g) (timers g)
    (lastBestSave g) (savedBest g) (lastParticleUpdate g) (targetFPS g)
    (showModal g) (toasts g) (randomCalls g).

Definition with_particlePool (v : ParticlePool.t) (g : Game) : Game :=
  mkGame (state g) (store g) v (engine g) (board g) (timers g)
    (lastBestSave g) (savedBest g) (lastParticleUpdate g) (targetFPS g)
    (showModal g) (toasts g) (randomCalls g).

Definition with_engine (v : Engine.t) (g : Game) : Game :=
  mkGame (state g) (store g) (particlePool g) v (board g) (timers g)
    (lastBestSave g) (savedBest g) (lastParticleUpdate g) (targetFPS g)
    (showModal g) (toasts g) (randomCalls g).

Definition with_board (v : Board) (g : Game) : Game :=
  mkGame (state g) (store g) (particlePool g) (engine g) v (timers g)
    (lastBestSave g) (savedBest g) (lastParticleUpdate g) (targetFPS g)
    (showModal g) (toasts g) (randomCalls g).

Definition with_timers (v : list Timer) (g : Game) : Game :=
  mkGame (state g) (store g) (particlePool g) (engine g) (board g) v
    (lastBestSave g) (savedBest g) (lastParticleUpdate g) (targetFPS g)
    (showModal g) (toasts g) (randomCalls g).

Definition with_bestSave (t : Q) (b : Z) (g : Game) : Game :=
  mkGame (state g) (store g) (particlePool g) (engine g) (board g) (timers g)
    t b (lastParticleUpdate g) (targetFPS g)
    (showModal g) (toasts g) (randomCalls g).

Definition with_lastParticleUpdate (v : Q) (g : Game) : Game :=
  mkGame (state g) (store g) (particlePool g) (engine g) (board g) (timers g)
    (lastBestSave g) (savedBest g) v (targetFPS g)
    (showModal g) (toasts g) (randomCalls g).

Definition with_showModal (v : bool) (g : Game) : Game :=
  mkGame (state g) (store g) (particlePool g) (engine g) (board g) (timers g)
    (lastBestSave g) (savedBest g) (lastParticleUpdate g) (targetFPS g)
    v (toasts g) (randomCalls g).

Definition with_toasts (v : list string) (g : Game) : Game :=
  mkGame (state g) (store g) (particlePool g) (engine g) (board g) (timers g)
    (lastBestSave g) (savedBest g) (lastParticleUpdate g) (targetFPS g)
    (showModal g) v (randomCalls g).

Definition with_randomCalls (v : nat) (g : Game) : Game :=
  mkGame (state g) (store g) (particlePool g) (engine g) (board g) (timers g)
    (lastBestSave g) (savedBest g) (lastParticleUpdate g) (targetFPS g)
    (showModal g) (toasts g) v.

(** [state.f = v] for a field [f] of the session state. *)
Definition upd (f : State.t -> State.t) (g : Game) : Game :=
  with_state (f (state g)) g.

(** [store.setState(partial)]; the listeners re-render the page and are not
    part of the game. *)
Definition storeSet (now : Q) (p : PartialGameState.t) (g : Game) : Game :=
  with_store (fst (GameStateStore.setState now p (store g))) g.

(** [setTimeout(f, delay)] *)
Definition setTimeout (t : Timer) (g : Game) : Game :=
  with_timers (timers g ++ [t]) g.

(** [showToastMessage(message)] *)
Definition showToastMessage (message : string) (g : Game) : Game :=
  with_toasts (toasts g ++ [message]) g.

(** ** Configuration (the constants of the object [cfg]) *)

Module cfg.

Definition gracePeriodMs : Q := 800.
Definition dropCooldownMs : Q := 400.
Definition maxCircles : nat := 150.
Definition mergeSpeedMax : Q := 200.
Definition mergeRelSpeedMax : Q := 300.
Definition valueDist : list Z := [2; 2; 2; 2; 2; 4; 4; 8; 16; 32]%Z.
Definition scoreMul : Z := 1.

End cfg.

(** [SpriteCache.getColorIndex] *)
Definition getColorIndex (value : Z) : Z :=
  (if value =? 2 then 0 else if value =? 4 then 1 else if value =? 8 then 2
   else if value =? 16 then 3 else if value =? 32 then 4
   else if value =? 64 then 5 else if value =? 128 then 6
   else if value =? 256 then 7 else if value =? 512 then 8
   else if value =? 1024 then 9 else if value =? 2048 then 10
   else if value =? 4096 then 11 else if value =? 8192 then 12
   else 13)%Z.

(** What [Engine.update] does to the bodies, as the physics engine decides
    it: the new position and velocity of every body, and the pairs of the
    [collisionStart] event. *)
Record Physics := mkPhysics {
  motion : Body.t -> Vector.t * Vector.t;
  pairs : list (Body.t * Body.t)
}.

Section Suoka.

Variable log2 : Q -> Q.
Variable sqrt : Q -> Q.
Variable cos : Q -> Q.
Variable sin : Q -> Q.
Variable PI : Q.
Variable random : nat -> Q.

(** *** Geometry of the board *)

(** [cfg.radius], also the [baseRadius] of [getRadiusForValue]. *)
Definition radius (b : Board) : Q :=
  let minDimension := Num.min (dynamicBoardW b) (dynamicBoardH b) in
  if isMobile b then Num.max 16 (Num.min 32 (minDimension * 0.08)) else 34.

Definition getRadiusForValue (b : Board) (value : Z) : Q :=
  let baseRadius := radius b in
  let scaleFactor := log2 (inject_Z value / 2) * 0.15 in
  let minRadius := Num.max 12 (baseRadius * 0.5) in
  let maxRadius := Num.max 40 (baseRadius * 1.8) in
  Num.max minRadius (Num.min maxRadius (baseRadius + scaleFactor * baseRadius)).

Definition dangerLineY (b : Board) : Q :=
  if isMobile b then Num.max 80 (Num.min 150 (dynamicBoardH b * 0.2)) else 120.

Definition spawnY (b : Board) : Q :=
  let maxSpawnValue := 32%Z in
  let maxRadius := getRadiusForValue b maxSpawnValue in
  let minSpawnY := maxRadius in
  let dangerOffset := maxRadius + 120 in
  Num.max minSpawnY (dangerLineY b - dangerOffset).

Definition boardW (g : Game) : Q := dynamicBoardW (board g).
Definition boardH (g : Game) : Q := dynamicBoardH (board g).

(** [Vector.magnitude] of the physics engine and [Math.hypot]. *)
Definition magnitude (v : Vector.t) : Q :=
  sqrt (Vector.x v * Vector.x v + Vector.y v * Vector.y v).

Definition hypot (dx dy : Q) : Q := sqrt (dx * dx + dy * dy).

(** *** Random numbers *)

Definition rand (g : Game) : Q * Game :=
  (random (randomCalls g), with_randomCalls (S (randomCalls g)) g).

(** [rollValue]: [valueDist[Math.floor(Math.random() * valueDist.length)]]. *)
Definition rollValue (g : Game) : Z * Game :=
  let (r, g1) := rand g in
  let index := Num.floor (r * inject_Z (Z.of_nat (List.length cfg.valueDist))) in
  (TypedArray.read 0%Z cfg.valueDist index, g1).

(** *** Discs *)

Definition createCircle (now x y : Q) (value : Z) (g : Game)
  : option CircleData.t * Game :=
  if (cfg.maxCircles <=? JsMap.size (State.circles (state g)))%nat then
    (None, showToastMessage "Object limit reached" g)
  else
    let (newId, e1) := Engine.fresh (engine g) in
    let body := Body.circle newId x y in
    let g1 := with_engine (Engine.add (Body.id body) e1) g in
    let data := CircleData.mk body value now (State.nextLocalId (state g1)) in
    let g2 := upd (fun s => State.with_nextLocalId (S (State.nextLocalId s)) s) g1 in
    let g3 := upd (fun s => State.with_circles
                    (JsMap.set (Body.id body) data (State.circles s)) s) g2 in
    (Some data, g3).

Definition removeCircle (bodyId : nat) (g : Game) : Game :=
  match JsMap.get bodyId (State.circles (state g)) with
  | None => g
  | Some data =>
      let g1 := with_engine
                  (Engine.remove (Body.id (CircleData.body data)) (engine g)) g in
      let g2 := upd (fun s => State.with_circles
                      (JsMap.delete bodyId (State.circles s)) s) g1 in
      upd (fun s => State.with_mergingCircles
             (JsSet.delete bodyId (State.mergingCircles s)) s) g2
  end.

(** *** Merge detection: the [collisionStart] handler *)

Definition mergeRequestOf (now : Q) (bodyA bodyB : Body.t) (A : CircleData.t)
  : MergeRequest.t :=
  MergeRequest.mk (Body.id bodyA) (Body.id bodyB)
    ((Vector.x (Body.position bodyA) + Vector.x (Body.position bodyB)) / 2)
    ((Vector.y (Body.position bodyA) + Vector.y (Body.position bodyB)) / 2)
    (CircleData.value A) now.

(** The body of the loop over the pairs; every [continue] leaves the game
    as it is. *)
Definition collisionPair (now : Q) (g : Game) (p : Body.t * Body.t) : Game :=
  let (bodyA, bodyB) := p in
  if negb (Body.isCircle bodyA) || negb (Body.isCircle bodyB) then g
  else
    match JsMap.get (Body.id bodyA) (State.circles (state g)),
          JsMap.get (Body.id bodyB) (State.circles (state g)) with
    | Some A, Some B =>
        if negb (CircleData.value A =? CircleData.value B)%Z then g
        else if JsSet.has (Body.id bodyA) (State.mergingCircles (state g))
                || JsSet.has (Body.id bodyB) (State.mergingCircles (state g))
        then g
        else
          let speedA := magnitude (Body.velocity bodyA) in
          let speedB := magnitude (Body.velocity bodyB) in
          let relV := Vector.sub (Body.velocity bodyA) (Body.velocity bodyB) in
          let relSpeed := magnitude relV in
          let canMerge :=
            (speedA <? cfg.mergeSpeedMax) &&
            (speedB <? cfg.mergeSpeedMax) &&
            (relSpeed <? cfg.mergeRelSpeedMax) in
          if canMerge then
            upd (fun s => State.with_mergeQueue
                   (State.mergeQueue s ++ [mergeRequestOf now bodyA bodyB A]) s) g
          else g
    | _, _ => g
    end.

Definition collisionStart (now : Q) (ps : list (Body.t * Body.t)) (g : Game)
  : Game :=
  fold_left (collisionPair now) ps g.

(** *** Particles *)

(** The body of the loop of [createMergeExplosion], over the indices that
    remain; a pool that is exhausted breaks the loop. *)
Fixpoint explosionLoop (now x y : Q) (oldColorIndex newColorIndex : Z)
    (sizeMultiplier : Q) (particleCount : Z) (indices : list nat) (g : Game)
  : Game :=
  match indices with
  | [] => g
  | i :: rest =>
      let (particleIndex, p1) := ParticlePool.acquire (particlePool g) in
      let g1 := with_particlePool p1 g in
      if (particleIndex =? -1)%Z then g1
      else
        let (r1, g2) := rand g1 in
        let angle := (PI * 2 * inject_Z (Z.of_nat i)) / inject_Z particleCount
                     + (r1 - 0.5) * 0.5 in
        let (r2, g3) := rand g2 in
        let speed := (80 + r2 * 40) * sizeMultiplier in
        let (r3, g4) := rand g3 in
        let size := (3 + r3 * 4) * sizeMultiplier in
        let (r4, g5) := rand g4 in
        let life := 600 + r4 * 300 in
        let (r5, g6) := rand g5 in
        let color := if r5 >? 0.5 then oldColorIndex else newColorIndex in
        let init := ParticlePool.mkInit x y (cos angle * speed)
                      (sin angle * speed) size life now color in
        explosionLoop now x y oldColorIndex newColorIndex sizeMultiplier
          particleCount rest
          (with_particlePool
             (ParticlePool.store particleIndex init (particlePool g6)) g6)
  end.

Definition createMergeExplosion (now x y : Q) (oldColorIndex newColorIndex : Z)
    (circleValue : Z) (g : Game) : Game :=
  let (r, g1) := rand g in
  let particleCount := (8 + Num.floor (r * 4))%Z in
  let circleRadius := getRadiusForValue (board g1) circleValue in
  let sizeMultiplier := circleRadius / radius (board g1) in
  explosionLoop now x y oldColorIndex newColorIndex sizeMultiplier
    particleCount (seq 0 (Z.to_nat particleCount)) g1.

(** *** Merge resolution *)

Definition mergeAnimation (now x y : Q) (D : CircleData.t) : Animation.t :=
  Animation.mk now 300 merge (Some x) (Some y)
    (Some (Vector.x (Body.position (CircleData.body D))))
    (Some (Vector.y (Body.position (CircleData.body D))))
    None.

Definition performMerge (now : Q) (A B : CircleData.t) (x y : Q) (g : Game)
  : Game :=
  let aId := Body.id (CircleData.body A) in
  let bId := Body.id (CircleData.body B) in
  let g1 := upd (fun s => State.with_mergingCircles
                   (JsSet.add bId (JsSet.add aId (State.mergingCircles s))) s) g in
  let newValue := (CircleData.value A * 2)%Z in
  let g2 := createMergeExplosion now x y
              (getColorIndex (CircleData.value A)) (getColorIndex newValue)
              (CircleData.value A) g1 in
  let g3 := upd (fun s => State.with_animations
                   (JsMap.set bId (mergeAnimation now x y B)
                      (JsMap.set aId (mergeAnimation now x y A)
                         (State.animations s))) s) g2 in
  let g4 := upd (fun s => State.with_score
                   (State.score s + newValue * cfg.scoreMul)%Z s) g3 in
  let g5 :=
    if (State.best (state g4) <? State.score (state g4))%Z then
      let g' := upd (fun s => State.with_best (State.score s) s) g4 in
      if now - lastBestSave g' >? 1000
      then with_bestSave now (State.best (state g')) g'
      else g'
    else g4 in
  let g6 := storeSet now
              (PartialGameState.mk (Some (State.score (state g5)))
                 (Some (State.best (state g5))) None None None None None) g5 in
  setTimeout (MergeCompletion (now + 300) aId bId x y newValue) g6.

(** The loop of [processMergeQueue] over the requests that are queued:
    [shift] takes the first request off the queue, and nothing in the loop
    adds one. *)
Fixpoint drainQueue (now : Q) (queue : list MergeRequest.t) (g : Game) : Game :=
  match queue with
  | [] => g
  | request :: rest =>
      let g1 := upd (State.with_mergeQueue rest) g in
      let g2 :=
        match JsMap.get (MergeRequest.bodyAId request) (State.circles (state g1)),
              JsMap.get (MergeRequest.bodyBId request) (State.circles (state g1)) with
        | Some A, Some B =>
            if JsSet.has (Body.id (CircleData.body A))
                 (State.mergingCircles (state g1))
               || JsSet.has (Body.id (CircleData.body B))
                    (State.mergingCircles (state g1))
            then g1
            else performMerge now A B (MergeRequest.x request)
                   (MergeRequest.y request) g1
        | _, _ => g1
        end in
      drainQueue now rest g2
  end.

Definition processMergeQueue (now : Q) (g : Game) : Game :=
  drainQueue now (State.mergeQueue (state g)) g.

(** The closure that [performMerge] gives to [setTimeout]. *)
Definition mergeCompletion (now : Q) (aBodyId bBodyId : nat) (x y : Q)
    (newValue : Z) (g : Game) : Game :=
  let g1 := removeCircle aBodyId g in
  let g2 := removeCircle bBodyId g1 in
  let g3 := upd (fun s => State.with_mergingCircles
                   (JsSet.delete bBodyId
                      (JsSet.delete aBodyId (State.mergingCircles s))) s) g2 in
  match createCircle now x y newValue g3 with
  | (Some C, g4) =>
      let cId := Body.id (CircleData.body C) in
      let g5 := upd (fun s => State.with_animations
                       (JsMap.set cId
                          (Animation.mk now 200 spawn None None None None (Some 0))
                          (State.animations s)) s) g4 in
      upd (fun s => State.with_circles
             (JsMap.set cId
                (CircleData.with_body
                   (Body.applyForce (CircleData.body C) (Vector.mk 0 0.005)) C)
                (State.circles s)) s) g5
  | (None, g4) => g4
  end.

(** *** Per-frame updates of particles and animations *)

(** First pass of [updateParticles]: expired particles are released, the
    others are collected. *)
Definition expirePass (now : Q) (acc : ParticlePool.t * list Z) (i : nat)
  : ParticlePool.t * list Z :=
  let (p, activeParticles) := acc in
  let iz := Z.of_nat i in
  if TypedArray.read 0 (ParticlePool.life p) iz <=? 0 then acc
  else
    let elapsed := now - TypedArray.read 0 (ParticlePool.startTime p) iz in
    if elapsed >=? TypedArray.read 0 (ParticlePool.maxLife p) iz
    then (ParticlePool.release iz p, activeParticles)
    else (p, activeParticles ++ [iz]).

(** Second pass: one particle moves and ages. *)
Definition advanceParticle (now dt : Q) (p : ParticlePool.t) (i : Z)
  : ParticlePool.t :=
  let gravity := 200 in
  let damping := 0.98 in
  let rd a := TypedArray.read 0 a i in
  let x1 := rd (ParticlePool.x p) + rd (ParticlePool.vx p) * dt in
  let y1 := rd (ParticlePool.y p) + rd (ParticlePool.vy p) * dt in
  let vy1 := rd (ParticlePool.vy p) + gravity * dt in
  let vx2 := rd (ParticlePool.vx p) * damping in
  let vy2 := vy1 * damping in
  let elapsed := now - rd (ParticlePool.startTime p) in
  let lifeRatio := elapsed / rd (ParticlePool.maxLife p) in
  let life1 := rd (ParticlePool.maxLife p) * (1 - lifeRatio) in
  let size1 := rd (ParticlePool.maxSize p) * (1 - lifeRatio * 0.8) in
  ParticlePool.mk (ParticlePool.capacity p) (ParticlePool.count p)
    (ParticlePool.freeList p)
    (TypedArray.write (ParticlePool.x p) i x1)
    (TypedArray.write (ParticlePool.y p) i y1)
    (TypedArray.write (ParticlePool.vx p) i vx2)
    (TypedArray.write (ParticlePool.vy p) i vy2)
    (TypedArray.write (ParticlePool.size p) i size1)
    (ParticlePool.maxSize p)
    (TypedArray.write (ParticlePool.life p) i life1)
    (ParticlePool.maxLife p) (ParticlePool.startTime p)
    (ParticlePool.colorIndex p).

Definition updateParticles (now : Q) (g : Game) : Game :=
  let particleUpdateInterval :=
    if targetFPS g >=? 144 then 8 else if targetFPS g >=? 120 then 12 else 16 in
  if now - lastParticleUpdate g <? particleUpdateInterval then g
  else
    let dt := (now - lastParticleUpdate g) / 1000 in
    let g1 := with_lastParticleUpdate now g in
    let capacity := Z.to_nat (ParticlePool.getCapacity (particlePool g1)) in
    let (p1, activeParticles) :=
      fold_left (expirePass now) (seq 0 capacity) (particlePool g1, []) in
    with_particlePool (fold_left (advanceParticle now dt) activeParticles p1) g1.

(** One binding of [state.animations] in [updateAnimations]: the game after
    it, and whether the binding goes to [toDelete]. *)
Definition animateOne (now : Q) (acc : Game * list nat)
    (binding : nat * Animation.t) : Game * list nat :=
  let (g, toDelete) := acc in
  let (bodyId, anim) := binding in
  let elapsed := now - Animation.startTime anim in
  if elapsed >=? Animation.duration anim then (g, toDelete ++ [bodyId])
  else
    let progress := elapsed / Animation.duration anim in
    let eased := 1 - (1 - progress) * (1 - progress) * (1 - progress) in
    match Animation.type anim with
    | merge =>
        match JsMap.get bodyId (State.circles (state g)),
              Animation.targetX anim, Animation.targetY anim,
              Animation.startX anim, Animation.startY anim with
        | Some data, Some targetX, Some targetY, Some startX, Some startY =>
            let currentX := startX + (targetX - startX) * eased in
            let currentY := startY + (targetY - startY) * eased in
            (upd (fun s => State.with_circles
                    (JsMap.set bodyId
                       (CircleData.with_body
                          (Body.setPosition (CircleData.body data)
                             (Vector.mk currentX currentY)) data)
                       (State.circles s)) s) g,
             toDelete)
        | _, _, _, _, _ => acc
        end
    | spawn =>
        (upd (fun s => State.with_animations
                (JsMap.set bodyId (Animation.with_scale eased anim)
                   (State.animations s)) s) g,
         toDelete)
    end.

Definition updateAnimations (now : Q) (g : Game) : Game :=
  let (g1, toDelete) :=
    fold_left (animateOne now) (State.animations (state g)) (g, []) in
  upd (fun s => State.with_animations
         (fold_left (fun m k => JsMap.delete k m) toDelete (State.animations s))
         s) g1.

(** *** The danger line *)

Definition topOf (b : Board) (data : CircleData.t) : Q :=
  Vector.y (Body.position (CircleData.body data))
  - getRadiusForValue b (CircleData.value data).

Definition updateHighestCircle (g : Game) : Game :=
  upd (State.with_highestCircleTop
         (fold_left
            (fun highest data =>
               let top := topOf (board g) data in
               if top <? highest then top else highest)
            (JsMap.values (State.circles (state g)))
            (boardH g))) g.

Definition endGame (now : Q) (reason : string) (g : Game) : Game :=
  if State.ended (state g) then g
  else
    let g1 := upd (State.with_ended true) g in
    let g2 := upd (State.with_running false) g1 in
    let g3 := upd (State.with_endReason reason) g2 in
    let g4 := with_engine (Engine.with_timeScale 0 (engine g3)) g3 in
    let g5 := storeSet now
                (PartialGameState.mk None None None (Some false) None
                   (Some true) (Some reason)) g4 in
    with_showModal true g5.

(** The first loop of [checkDangerLine]: does it reach the [endGame] of a
    disc past its grace period whose top or centre is above the line? *)
Fixpoint dangerCrossed (now : Q) (b : Board) (discs : list CircleData.t) : bool :=
  match discs with
  | [] => false
  | data :: rest =>
      let age := now - CircleData.bornAt data in
      if age <=? cfg.gracePeriodMs then dangerCrossed now b rest
      else
        let circleRadius := getRadiusForValue b (CircleData.value data) in
        let y := Vector.y (Body.position (CircleData.body data)) in
        let top := y - circleRadius in
        if (top <? dangerLineY b) || (y <? dangerLineY b) then true
        else dangerCrossed now b rest
  end.

(** The loop of the emergency check. *)
Definition emergencyCount (now : Q) (b : Board) (discs : list CircleData.t) : nat :=
  fold_left
    (fun count data =>
       let age := now - CircleData.bornAt data in
       if (age >? cfg.gracePeriodMs)
          && (Vector.y (Body.position (CircleData.body data)) <? dangerLineY b + 30)
       then S count else count)
    discs O.

(** [checkDangerLine] after its fast path: the scan of the discs and the
    emergency check. *)
Definition dangerScan (now : Q) (g : Game) : Game :=
  let discs := JsMap.values (State.circles (state g)) in
  if dangerCrossed now (board g) discs then endGame now "Danger line crossed." g
  else if (12 <? JsMap.size (State.circles (state g)))%nat then
    if (6 <? emergencyCount now (board g) discs)%nat
    then endGame now "Too many circles stacked." g
    else g
  else g.

Definition checkDangerLine (now : Q) (g : Game) : Game :=
  if State.highestCircleTop (state g) >? dangerLineY (board g) then g
  else dangerScan now g.

(** *** Drop placement *)

(** The loop of [isSpawnFree]: is some disc too close? *)
Fixpoint tooClose (b : Board) (x y spawnRadius : Q) (discs : list CircleData.t)
  : bool :=
  match discs with
  | [] => false
  | data :: rest =>
      let dx := x - Vector.x (Body.position (CircleData.body data)) in
      let dy := y - Vector.y (Body.position (CircleData.body data)) in
      let existingRadius := getRadiusForValue b (CircleData.value data) in
      let minDistance := (spawnRadius + existingRadius) * 1.1 in
      if hypot dx dy <? minDistance then true
      else tooClose b x y spawnRadius rest
  end.

Definition isSpawnFree (x y : Q) (value : Z) (g : Game) : bool :=
  let spawnRadius := getRadiusForValue (board g) value in
  if tooClose (board g) x y spawnRadius (JsMap.values (State.circles (state g)))
  then false
  else (y >=? spawnRadius) && (y <=? boardH g - spawnRadius)
       && (x >=? spawnRadius) && (x <=? boardW g - spawnRadius).

(** The first loop of [tryDrop], over the values of [i] that remain: the
    position it places the disc at, if it places it. *)
Fixpoint offsetSearch (g : Game) (x y step radius : Q) (value : Z)
    (indices : list Z) : option Q :=
  match indices with
  | [] => None
  | i :: rest =>
      let xl := x - inject_Z i * step in
      let xr := x + inject_Z i * step in
      if (xl >=? radius) && isSpawnFree xl y value g then Some xl
      else if (xr <=? boardW g - radius) && isSpawnFree xr y value g then Some xr
      else offsetSearch g x y step radius value rest
  end.

(** The second loop of [tryDrop]. *)
Fixpoint zigzagSearch (g : Game) (safeY step radius : Q) (value : Z)
    (indices : list Z) : option Q :=
  match indices with
  | [] => None
  | i :: rest =>
      let testX :=
        State.previewX (state g)
        + inject_Z (if (i mod 2 =? 0)%Z then 1 else -1)
          * inject_Z (Num.floor (inject_Z i / 2)) * step in
      if (testX >=? radius) && (testX <=? boardW g - radius)
         && isSpawnFree testX safeY value g
      then Some testX
      else zigzagSearch g safeY step radius value rest
  end.

(** The end of [tryDrop], once the position is chosen. *)
Definition dropAt (now x y : Q) (value : Z) (g : Game) : Game :=
  match createCircle now x y value g with
  | (Some C, g1) =>
      let (v, g2) := rollValue g1 in
      let g3 := upd (State.with_nextValue v) g2 in
      let g4 := storeSet now
                  (PartialGameState.mk None None (Some (State.nextValue (state g3)))
                     None None None None) g3 in
      upd (State.with_lastDropTs now) g4
  | (None, g1) => g1
  end.

Definition tryDrop (now : Q) (g : Game) : Game :=
  if negb (State.running (state g)) || State.ended (state g)
     || State.paused (state g) then g
  else if now - State.lastDropTs (state g) <? cfg.dropCooldownMs then g
  else
    let value := State.nextValue (state g) in
    let radius := getRadiusForValue (board g) value in
    let x := State.previewX (state g) in
    let y := spawnY (board g) in
    if negb (isSpawnFree x y value g) then
      let step := radius * 1.1 in
      match offsetSearch g x y step radius value [1; 2; 3; 4; 5; 6]%Z with
      | Some x1 => dropAt now x1 y value g
      | None =>
          let safeY := spawnY (board g) in
          match zigzagSearch g safeY step radius value [0; 1; 2; 3; 4; 5; 6]%Z with
          | Some x2 => dropAt now x2 safeY value g
          | None => endGame now "No space to spawn." g
          end
      end
    else dropAt now x y value g.

(** *** Session controls *)

(** [restart]; the reset of the step runner, which only decides how many
    fixed steps a frame runs, is outside the game. *)
Definition restart (now : Q) (g : Game) : Game :=
  let g1 := with_engine (Engine.with_timeScale 0 (engine g)) g in
  let g2 := fold_left
              (fun h data =>
                 with_engine
                   (Engine.remove (Body.id (CircleData.body data)) (engine h)) h)
              (JsMap.values (State.circles (state g1))) g1 in
  let g3 := upd (State.with_circles JsMap.empty) g2 in
  let g4 := upd (State.with_mergingCircles JsSet.empty) g3 in
  let g5 := upd (State.with_animations JsMap.empty) g4 in
  let g6 := upd (State.with_mergeQueue []) g5 in
  let g7 := with_particlePool (ParticlePool.clear (particlePool g6)) g6 in
  let g8 := upd (State.with_score 0%Z) g7 in
  let (v, g9) := rollValue g8 in
  let g10 := upd (State.with_nextValue v) g9 in
  let g11 := upd (State.with_running true) g10 in
  let g12 := upd (State.with_paused false) g11 in
  let g13 := upd (State.with_ended false) g12 in
  let g14 := upd (State.with_endReason EmptyString) g13 in
  let g15 := upd (State.with_lastDropTs 0) g14 in
  let g16 := upd (State.with_previewX (boardW g14 / 2)) g15 in
  let g17 := upd (State.with_nextLocalId 1%nat) g16 in
  let g18 := upd (State.with_highestCircleTop (boardH g17)) g17 in
  let g19 := storeSet now
               (PartialGameState.mk (Some 0%Z) (Some (State.best (state g18)))
                  (Some (State.nextValue (state g18))) (Some true) (Some false)
                  (Some false) (Some EmptyString)) g18 in
  let g20 := with_showModal false g19 in
  let g21 := setTimeout (TimeScaleResume (now + 30)) g20 in
  showToastMessage "New game started" g21.

Definition togglePause (now : Q) (g : Game) : Game :=
  if State.ended (state g) then g
  else
    let g1 := upd (fun s => State.with_paused (negb (State.paused s)) s) g in
    let g2 := with_engine
                (Engine.with_timeScale
                   (if State.paused (state g1) then 0 else 1) (engine g1)) g1 in
    let g3 := storeSet now
                (PartialGameState.mk None None None None
                   (Some (State.paused (state g2))) None None) g2 in
    showToastMessage (if State.paused (state g3) then "Paused" else "Resumed") g3.

(** [updatePreviewFromClientX], given the pointer in board coordinates:
    [x] is [(clientX - rect.left) * (cfg.boardW / rect.width)]. *)
Definition updatePreview (now x : Q) (g : Game) : Game :=
  let throttleMs := Num.max 4 (1000 / (targetFPS g * 2)) in
  if now - State.previewUpdateTime (state g) <? throttleMs then g
  else
    let g1 := upd (State.with_previewUpdateTime now) g in
    let previewRadius := getRadiusForValue (board g1) (State.nextValue (state g1)) in
    upd (State.with_previewX
           (Num.max previewRadius (Num.min (boardW g1 - previewRadius) x))) g1.

(** *** The game loop and the timers *)

(** [Engine.update]: the bodies of the world move as the engine decides, and
    the [collisionStart] handler receives the pairs. *)
Definition moveBody (ph : Physics) (b : Body.t) : Body.t :=
  Body.mk (Body.id b) (Body.label b) (fst (motion ph b)) (snd (motion ph b))
    Vector.zero.

Definition engineUpdate (now : Q) (ph : Physics) (g : Game) : Game :=
  let g1 := upd (fun s => State.with_circles
                   (map (fun kv =>
                           (fst kv,
                            CircleData.with_body
                              (moveBody ph (CircleData.body (snd kv))) (snd kv)))
                      (State.circles s)) s) g in
  collisionStart now (pairs ph) g1.

(** The callback that [gameStep] gives to the step runner: one fixed step. *)
Definition tick (now : Q) (ph : Physics) (g : Game) : Game :=
  if State.running (state g) && negb (State.paused (state g)) then
    let g1 := engineUpdate now ph g in
    let g2 := processMergeQueue now g1 in
    let g3 := updateHighestCircle g2 in
    checkDangerLine now g3
  else g.

(** What [gameStep] does after the fixed steps, drawing aside. *)
Definition frame (now : Q) (g : Game) : Game :=
  updateAnimations now (updateParticles now g).

Definition runTimer (now : Q) (t : Timer) (g : Game) : Game :=
  match t with
  | MergeCompletion _ aBodyId bBodyId x y newValue =>
      mergeCompletion now aBodyId bBodyId x y newValue g
  | TimeScaleResume _ => with_engine (Engine.with_timeScale 1 (engine g)) g
  end.

Fixpoint removeAt {A : Type} (n : nat) (l : list A) : list A :=
  match n, l with
  | _, [] => []
  | O, _ :: r => r
  | S k, a :: r => a :: removeAt k r
  end.

(** The browser runs the [n]-th pending timer, which is due. *)
Definition fireTimer (now : Q) (n : nat) (g : Game) : Game :=
  match nth_error (timers g) n with
  | None => g
  | Some t =>
      if due_of t <=? now
      then runTimer now t (with_timers (removeAt n (timers g)) g)
      else g
  end.

(** [handleResize], as far as the game goes: the board changes. *)
Definition handleResize (newBoard : Board) (g : Game) : Game :=
  with_board newBoard g.

(** *** Runs of the game *)

Inductive Op :=
| OpRestart (now : Q)
| OpTryDrop (now : Q)
| OpTick (now : Q) (ph : Physics)
| OpFrame (now : Q)
| OpTimer (now : Q) (n : nat)
| OpTogglePause (now : Q)
| OpPointer (now x : Q)
| OpResize (newBoard : Board).

Definition step (g : Game) (op : Op) : Game :=
  match op with
  | OpRestart now => restart now g
  | OpTryDrop now => tryDrop now g
  | OpTick now ph => tick now ph g
  | OpFrame now => frame now g
  | OpTimer now n => fireTimer now n g
  | OpTogglePause now => togglePause now g
  | OpPointer now x => updatePreview now x g
  | OpResize newBoard => handleResize newBoard g
  end.

Definition run (ops : list Op) (g : Game) : Game := fold_left step ops g.

(** The game that [initGame] builds, before it calls [restart]: the four
    walls took the identifiers below [firstBodyId]; the component was
    mounted at [mounted], when the effect stored the saved best score. *)
Definition initGame (mounted now : Q) (b : Board) (best : Z) (fps : Q)
    (firstBodyId : nat) (calls : nat) : Game :=
  let g0 :=
    mkGame
      (State.mk (dynamicBoardW b / 2) 0%Z best 0%Z false false now false EmptyString
         JsMap.empty 1%nat JsSet.empty JsMap.empty [] (dynamicBoardH b) 0)
      (GameStateStore.create
         (GameState.mk 0%Z 0%Z 2%Z false false false EmptyString))
      (ParticlePool.create 300)
      (Engine.mk 1 [] firstBodyId)
      b [] 0 best 0 fps false [] calls in
  let g1 := storeSet mounted
              (PartialGameState.mk None (Some best) None None None None None) g0 in
  let (v, g2) := rollValue g1 in
  let g3 := upd (State.with_nextValue v) g2 in
  storeSet now
    (PartialGameState.mk (Some (State.score (state g3)))
       (Some (State.best (state g3))) (Some (State.nextValue (state g3)))
       (Some (State.running (state g3))) (Some (State.paused (state g3)))
       (Some (State.ended (state g3))) (Some (State.endReason (state g3)))) g3.

(** The game when [initGame] returns: it ends with [restart()]. *)
Definition startGame (mounted now : Q) (b : Board) (best : Z) (fps : Q)
    (firstBodyId : nat) (calls : nat) : Game :=
  restart now (initGame mounted now b best fps firstBodyId calls).

End Suoka.

(** ** The board measured from the page ([calculateBoardDimensions]) *)

(** What [calculateBoardDimensions] reads: the bounding rectangle of the
    board element, its computed paddings and border widths (each one after
    [parseFloat(...) || 0]) and the width of the window. *)
Record BoardBox := mkBoardBox {
  rectWidth : Q;
  rectHeight : Q;
  paddingLeft : Q;
  paddingRight : Q;
  paddingTop : Q;
  paddingBottom : Q;
  borderLeftWidth : Q;
  borderRightWidth : Q;
  borderTopWidth : Q;
  borderBottomWidth : Q;
  innerWidth : Q
}.

Definition calculateBoardDimensions (e : BoardBox) : Board :=
  let mobile := innerWidth e <=? 768 in
  let totalHorizontalPadding := paddingLeft e + paddingRight e in
  let totalVerticalPadding := paddingTop e + paddingBottom e in
  let totalHorizontalBorder := borderLeftWidth e + borderRightWidth e in
  let totalVerticalBorder := borderTopWidth e + borderBottomWidth e in
  let w := inject_Z (Num.floor
             (rectWidth e - totalHorizontalPadding - totalHorizontalBorder)) in
  let h := inject_Z (Num.floor
             (rectHeight e - totalVerticalPadding - totalVerticalBorder)) in
  if mobile then
    mkBoard (Num.max 280 (Num.min w 800)) (Num.max 400 (Num.min h 1000)) mobile
  else
    mkBoard (Num.max 500 (Num.min w 1200)) (Num.max 500 (Num.min h 1000)) mobile.

(** [Math.round]: the nearest integer, a half going up. *)
Module JsMath.

Definition round (a : Q) : Z := Qfloor (a + (1 # 2)).

End JsMath.

(** ** The sprite cache (class [SpriteCache]) *)

Module SpriteCache.

Definition colorPalette : list string :=
  ["#c7d2fe"; "#a78bfa"; "#60a5fa"; "#67e8f9"; "#34d399"; "#facc15";
   "#f97316"; "#ef4444"; "#ec4899"; "#d946ef"; "#a855f7"; "#8b5cf6";
   "#7c3aed"; "#ddd6fe"]%string.

(** [getColor]: [colorPalette[index] || "#ddd6fe"]; no colour of the
    palette is the empty string, so the fallback is taken exactly when the
    index is out of range. *)
Definition getColor (index : Z) : string :=
  if (index <? 0)%Z then "#ddd6fe"%string
  else
    match nth_error colorPalette (Z.to_nat index) with
    | Some c => c
    | None => "#ddd6fe"%string
    end.

(** A pre-rendered canvas, known by what [createSprite] drew it from. *)
Record Sprite := mkSprite {
  spriteValue : Z;
  spriteRadius : Q;
  spriteDpr : Q;
  width : Q;
  height : Q;
  fill : string;
  hasText : bool
}.

(** [Map<string, HTMLCanvasElement>] *)
Definition t := list (string * Sprite).

Definition empty : t := [].

Fixpoint get (k : string) (m : t) : option Sprite :=
  match m with
  | [] => None
  | (k', v) :: r => if String.eqb k k' then Some v else get k r
  end.

Fixpoint set (k : string) (v : Sprite) (m : t) : t :=
  match m with
  | [] => [(k, v)]
  | (k', v') :: r =>
      if String.eqb k k' then (k, v) :: r else (k', v') :: set k v r
  end.

Section WithNumberToString.

(** The conversion of a number to a string in a template literal. *)
Variable numberToString : Q -> string.

Definition generateCacheKey (value : Z) (radiusBucket dpr : Q) : string :=
  (numberToString (inject_Z value) ++ "_" ++ numberToString radiusBucket
   ++ "_" ++ numberToString dpr)%string.

Definition createSprite (value : Z) (radius dpr : Q) : Sprite :=
  let size := radius * 2 + 40 in
  mkSprite value radius dpr (size * dpr) (size * dpr)
    (getColor (getColorIndex value)) (radius >? 12).

Definition radiusBucket (radius : Q) : Q :=
  inject_Z (JsMath.round (radius / 4)) * 4.

Definition getSprite (value : Z) (radius dpr : Q) (cache : t) : Sprite * t :=
  let bucket := radiusBucket radius in
  let key := generateCacheKey value bucket dpr in
  match get key cache with
  | Some sprite => (sprite, cache)
  | None =>
      let sprite := createSprite value bucket dpr in
      (sprite, set key sprite cache)
  end.

End WithNumberToString.

Definition clear (cache : t) : t := [].

Definition size (cache : t) : nat := List.length cache.

End SpriteCache.

(** ** The step runner (class [AdaptiveStepRunner]) *)

Module AdaptiveStepRunner.

Record t := mk {
  accumulator : Q;
  lastTime : Q;
  targetFPS : Q;
  frameCount : Z;
  fpsCheckTime : Q;
  currentFPS : Z
}.

Definition minDt : Q := 1000 / 240.
Definition maxDt : Q := 1000 / 30.
Definition maxFrameTime : Q := 100.

(** The fields as the class initialises them; the constructor then starts
    the detection of the refresh rate, which ends in [detected]. *)
Definition create : t := mk 0 0 144 0 0 60.

(** The last call of the closure [detect] of [detectRefreshRate], ten frames
    and [elapsed] milliseconds (more than none) after the construction. *)
Definition detected (elapsed : Q) (r : t) : t :=
  let frames := 10 in
  let detectedFPS := inject_Z (JsMath.round ((frames * 1000) / elapsed)) in
  if detectedFPS >=? 120 then
    mk (accumulator r) (lastTime r) (Num.min detectedFPS 240) (frameCount r)
       (fpsCheckTime r) (currentFPS r)
  else
    mk (accumulator r) (lastTime r) 60 (frameCount r) (fpsCheckTime r)
       (currentFPS r).

Section WithCallback.

(** What the callback [updateFn] works on. *)
Context {S : Type}.

(** The loop [while (accumulator >= adaptiveDt)]: the accumulator that is
    left and the state after the calls of [updateFn]; [None] when the fuel
    runs out before the loop ends. *)
Fixpoint drain (fuel : nat) (updateFn : Q -> S -> S) (adaptiveDt acc : Q) (s : S)
  : option (Q * S) :=
  if acc >=? adaptiveDt then
    match fuel with
    | O => None
    | Datatypes.S k =>
        let dt := Num.max minDt (Num.min maxDt adaptiveDt) in
        drain k updateFn adaptiveDt (acc - adaptiveDt) (updateFn dt s)
    end
  else Some (acc, s).

(** The bookkeeping of [update] before the loop: the runner with the frame
    counted and the target adjusted, and the clamped frame time. *)
Definition track (currentTime : Q) (r : t) : t * Q :=
  let frameTime := currentTime - lastTime r in
  let count1 := (frameCount r + 1)%Z in
  let r1 :=
    if currentTime - fpsCheckTime r >=? 1000 then
      let current := count1 in
      let target :=
        if inject_Z current <? targetFPS r * 0.9
        then Num.max 60 (targetFPS r * 0.95)
        else targetFPS r in
      mk (accumulator r) currentTime target 0 currentTime current
    else
      mk (accumulator r) currentTime (targetFPS r) count1 (fpsCheckTime r)
         (currentFPS r) in
  (r1, Num.min frameTime maxFrameTime).

Definition update (fuel : nat) (currentTime : Q) (updateFn : Q -> S -> S)
    (r : t) (s : S) : option (t * S) :=
  if Qeq_bool (lastTime r) 0 then
    Some (mk (accumulator r) currentTime (targetFPS r) (frameCount r)
            currentTime (currentFPS r), s)
  else
    let (r1, frameTime) := track currentTime r in
    let adaptiveDt := 1000 / targetFPS r1 in
    match drain fuel updateFn adaptiveDt (accumulator r1 + frameTime) s with
    | Some (acc, s') =>
        Some (mk acc (lastTime r1) (targetFPS r1) (frameCount r1)
                (fpsCheckTime r1) (currentFPS r1), s')
    | None => None
    end.

End WithCallback.

Definition getCurrentFPS (r : t) : Z := currentFPS r.

Definition getTargetFPS (r : t) : Q := targetFPS r.

Definition reset (r : t) : t :=
  mk 0 0 (targetFPS r) 0 0 (currentFPS r).

End AdaptiveStepRunner.

(** ** The end of the component ([cleanup] of the game instance)

    As far as the game goes: the world of the engine, the particle pool and
    the tables of the session are cleared. The frame loop and the listeners
    of the canvas stop; no timer is cancelled. *)
Definition cleanup (g : Game) : Game :=
  let g1 := with_engine
              (Engine.mk (Engine.timeScale (engine g)) []
                 (Engine.nextBodyId (engine g))) g in
  let g2 := with_particlePool (ParticlePool.clear (particlePool g1)) g1 in
  let g3 := upd (State.with_circles JsMap.empty) g2 in
  let g4 := upd (State.with_mergingCircles JsSet.empty) g3 in
  let g5 := upd (State.with_animations JsMap.empty) g4 in
  upd (State.with_mergeQueue []) g5.

(** * Part II: the properties, in the words of the specification *)

Section Properties.

Variable log2 : Q -> Q.
Variable sqrt : Q -> Q.

(** A collision pair is eligible for a merge: two disc bodies of the table
    with the same value, neither of them mid-merge, each slower than
    [mergeSpeedMax] and their relative speed below [mergeRelSpeedMax]. *)
Definition mergeEligible (g : Game) (p : Body.t * Body.t) : Prop :=
  let (bodyA, bodyB) := p in
  Body.label bodyA = "circle"%string /\
  Body.label bodyB = "circle"%string /\
  exists A B,
    JsMap.get (Body.id bodyA) (State.circles (state g)) = Some A /\
    JsMap.get (Body.id bodyB) (State.circles (state g)) = Some B /\
    CircleData.value A = CircleData.value B /\
    JsSet.has (Body.id bodyA) (State.mergingCircles (state g)) = false /\
    JsSet.has (Body.id bodyB) (State.mergingCircles (state g)) = false /\
    magnitude sqrt (Body.velocity bodyA) < cfg.mergeSpeedMax /\
    magnitude sqrt (Body.velocity bodyB) < cfg.mergeSpeedMax /\
    magnitude sqrt (Vector.sub (Body.velocity bodyA) (Body.velocity bodyB))
      < cfg.mergeRelSpeedMax.

(** The same, as a test. *)
Definition mergeEligibleb (g : Game) (p : Body.t * Body.t) : bool :=
  let (bodyA, bodyB) := p in
  match JsMap.get (Body.id bodyA) (State.circles (state g)),
        JsMap.get (Body.id bodyB) (State.circles (state g)) with
  | Some A, Some B =>
      String.eqb (Body.label bodyA) "circle"
      && String.eqb (Body.label bodyB) "circle"
      && (CircleData.value A =? CircleData.value B)%Z
      && negb (JsSet.has (Body.id bodyA) (State.mergingCircles (state g)))
      && negb (JsSet.has (Body.id bodyB) (State.mergingCircles (state g)))
      && (magnitude sqrt (Body.velocity bodyA) <? cfg.mergeSpeedMax)
      && (magnitude sqrt (Body.velocity bodyB) <? cfg.mergeSpeedMax)
      && (magnitude sqrt (Vector.sub (Body.velocity bodyA) (Body.velocity bodyB))
          <? cfg.mergeRelSpeedMax)
  | _, _ => false
  end.

(** The request that an eligible pair puts on the queue. *)
Definition requestFor (now : Q) (g : Game) (p : Body.t * Body.t)
  : MergeRequest.t :=
  MergeRequest.mk (Body.id (fst p)) (Body.id (snd p))
    ((Vector.x (Body.position (fst p)) + Vector.x (Body.position (snd p))) / 2)
    ((Vector.y (Body.position (fst p)) + Vector.y (Body.position (snd p))) / 2)
    (match JsMap.get (Body.id (fst p)) (State.circles (state g)) with
     | Some A => CircleData.value A
     | None => 0%Z
     end)
    now.

(** The positions that a drop tries when its spawn point is taken, in
    order: the offsets [x - i*step] and [x + i*step] for [i] from 1 to 6,
    left before right, then the zig-zag sequence. *)
Definition offsetPositions (x step : Q) : list Q :=
  flat_map (fun i => [x - inject_Z i * step; x + inject_Z i * step])
    [1; 2; 3; 4; 5; 6]%Z.

Definition zigzagPositions (x step : Q) : list Q :=
  map (fun i => x + inject_Z (if (i mod 2 =? 0)%Z then 1 else -1)
                   * inject_Z (Num.floor (inject_Z i / 2)) * step)
    [0; 1; 2; 3; 4; 5; 6]%Z.

Definition searchOrder (x step : Q) : list Q :=
  offsetPositions x step ++ zigzagPositions x step.

(** The first position of the search order that [isSpawnFree] accepts. *)
Definition firstFree (g : Game) (y : Q) (value : Z) (positions : list Q)
  : option Q :=
  find (fun x => isSpawnFree log2 sqrt x y value g) positions.

(** [h] is the least of the numbers of [l]. *)
Definition isMinimum (h : Q) (l : list Q) : Prop :=
  In h l /\ forall t, In t l -> h <= t.

(** The tops of the discs of the game. *)
Definition discTops (g : Game) : list Q :=
  map (topOf log2 (board g)) (JsMap.values (State.circles (state g))).

(** A disc is within its grace period. *)
Definition young (now : Q) (data : CircleData.t) : bool :=
  now - CircleData.bornAt data <=? cfg.gracePeriodMs.



(** The sum of the values that the merge completions of [ts] will spawn. *)
Fixpoint mergedValues (ts : list Timer) : Z :=
  match ts with
  | [] => 0
  | MergeCompletion _ _ _ _ _ newValue :: r => newValue + mergedValues r
  | TimeScaleResume _ :: r => mergedValues r
  end.

End Properties.

(** The merge completion that [performMerge] schedules. *)
Definition completionOf (now : Q) (m : CircleData.t * CircleData.t * (Q * Q))
  : Timer :=
  let '(A, B, (x, y)) := m in
  MergeCompletion (now + 300) (Body.id (CircleData.body A))
    (Body.id (CircleData.body B)) x y (2 * CircleData.value A).


(** Every request of the queue is for two discs of equal value. *)
Definition equalValues (circles : JsMap.t CircleData.t)
    (queue : list MergeRequest.t) : Prop :=
  forall r A B,
    In r queue ->
    JsMap.get (MergeRequest.bodyAId r) circles = Some A ->
    JsMap.get (MergeRequest.bodyBId r) circles = Some B ->
    CircleData.value A = CircleData.value B.


(** The table of discs holds at most [maxCircles] discs. *)
Definition bounded (g : Game) : Prop :=
  (JsMap.size (State.circles (state g)) <= cfg.maxCircles)%nat.


(** ** Stand-ins for the functions of [Math], to run the game on examples

    [exLog2] is [Math.log2] on the powers of two, and [exSqrt] is
    [Math.sqrt] cut after three decimals. *)

Definition exLog2 (q : Q) : Q := inject_Z (Z.log2 (Qfloor q)).
Definition exSqrt (q : Q) : Q := Z.sqrt (Qfloor (q * 1000000)) # 1000.
Definition exCos (q : Q) : Q := 1.
Definition exSin (q : Q) : Q := 0.
Definition exPI : Q := 3.14159.
Definition exRandom (n : nat) : Q := 0.

Definition desktop : Board := mkBoard 600 800 false.
Definition wide : Board := mkBoard 1200 1000 false.

(** A disc of value 2 born at time 0, at rest. *)
Definition exDisc (bodyId : nat) (x y : Q) : nat * CircleData.t :=
  (bodyId,
   CircleData.mk (Body.mk bodyId "circle" (Vector.mk x y) Vector.zero Vector.zero)
     2 0 bodyId).

(** A narrow phone board, 280 by 600: the radius of a disc of value 2 is
    22.4 and the danger line is at 120. *)
Definition narrowPhone : Board := mkBoard 280 600 true.

(** Thirteen discs of value 2 on the narrow phone board. Seven of them have
    their centre at 146, between the line and 30 below it, with their top
    at 123.6, below the line: three pairs that glide together in a merge,
    and one more. Six lie at the bottom. *)
Definition exStack : Game :=
  updateHighestCircle exLog2
    (upd (State.with_circles
            [exDisc 10 30 146; exDisc 11 30 146; exDisc 12 100 146;
             exDisc 13 100 146; exDisc 14 170 146; exDisc 15 170 146;
             exDisc 16 240 146; exDisc 17 30 570; exDisc 18 80 570;
             exDisc 19 130 570; exDisc 20 180 570; exDisc 21 230 570;
             exDisc 22 55 530])
       (startGame exRandom 0 100 narrowPhone 0 60 4 0)).

(** A full table: 150 discs of radius 34 on the widest board, in rows of
    17 from the floor up; the highest row has its tops at 388. *)
Definition exFull : Game :=
  upd (State.with_circles
         (map (fun i => exDisc (10 + i)
                          (34 + 68 * inject_Z (Z.of_nat (i mod 17)))
                          (966 - 68 * inject_Z (Z.of_nat (i / 17))))
            (seq 0 150)))
    (startGame exRandom 0 100 wide 0 60 4 0).

(** A game with the eight particles of one merge explosion, at time 2000;
    each lives 600 ms. *)
Definition exBurst : Game :=
  createMergeExplosion exLog2 exCos exSin exPI exRandom 2000 100 100 0 1 2
    (startGame exRandom 0 1000 desktop 0 60 4 0).

(** A game with one disc of value 2, dropped at time 1000 at the middle of
    the desktop board and still at its spawn point. *)
Definition exOneDisc : Game :=
  tryDrop exLog2 exSqrt exRandom 1000
    (startGame exRandom 0 100 desktop 0 60 4 0).

(** Thirteen discs of value 2 at rest at the bottom of the desktop board:
    eight on the floor and five on top of them. *)
Definition exFloor : Game :=
  upd (State.with_circles
         (map (fun i => exDisc (10 + i) (34 + 68 * inject_Z (Z.of_nat i)) 766)
            (seq 0 8)
          ++ map (fun i => exDisc (18 + i) (68 + 68 * inject_Z (Z.of_nat i)) 707)
               (seq 0 5)))
    (startGame exRandom 0 100 desktop 0 60 4 0).

(** Two discs of value 2 have been dropped, at 1000 and at 2000; the fixed
    step at 3000 finds them at rest on the floor, touching. *)
Definition exCollision : Physics :=
  mkPhysics
    (fun b => (Vector.mk (if Nat.eqb (Body.id b) 4 then 300 else 232) 766,
               Vector.zero))
    [(Body.mk 4 "circle" (Vector.mk 300 766) Vector.zero Vector.zero,
      Body.mk 5 "circle" (Vector.mk 232 766) Vector.zero Vector.zero)].

Definition exTwoDiscs : Game :=
  run exLog2 exSqrt exCos exSin exPI exRandom
    [OpTryDrop 1000; OpTryDrop 2000]
    (startGame exRandom 0 100 desktop 0 60 4 0).

Definition exMerging : Game :=
  step exLog2 exSqrt exCos exSin exPI exRandom exTwoDiscs (OpTick 3000 exCollision).

(** ** Definitions for the properties of the remaining code *)

(** The values that [getColorIndex] gives a colour of their own. *)
Definition paletteValues : list Z :=
  map (fun k => (2 ^ Z.of_nat k)%Z) (seq 1 13).

(** The particle pool as its class keeps it: the free list holds distinct
    slots of the pool, and the active count is the number of the others. *)
Module PoolSpec.

Definition wellFormed (p : ParticlePool.t) : Prop :=
  NoDup (ParticlePool.freeList p)
  /\ (forall i, In i (ParticlePool.freeList p) ->
        (0 <= i < ParticlePool.capacity p)%Z)
  /\ (0 <= ParticlePool.count p)%Z
  /\ (ParticlePool.count p + Z.of_nat (List.length (ParticlePool.freeList p))
      = ParticlePool.capacity p)%Z.

Inductive Op :=
| Acquire
| Release (index : Z)
| Clear.

Definition step (p : ParticlePool.t) (op : Op) : ParticlePool.t :=
  match op with
  | Acquire => snd (ParticlePool.acquire p)
  | Release index => ParticlePool.release index p
  | Clear => ParticlePool.clear p
  end.

(** A sequence of calls that never releases a slot that is free. *)
Fixpoint disciplined (p : ParticlePool.t) (ops : list Op) : Prop :=
  match ops with
  | [] => True
  | op :: rest =>
      match op with
      | Release index => ~ In index (ParticlePool.freeList p)
      | _ => True
      end
      /\ disciplined (step p op) rest
  end.

End PoolSpec.

(** The step runner between two frames: the target rate is between 60 and
    240, and less than one step at 60 per second is left to run. *)
Module RunnerSpec.



End RunnerSpec.

(** ** The session seen without positions

    What the invariants of a run depend on: the discs without the positions
    of their bodies, the bodies of the world, the counters, the mid-merge
    set, the pending timers, the scores and the flags of the session; and,
    on this view, the transitions that the handlers of the game make. *)
Module View.

Record Disc := mkDisc {
  bodyId : nat;
  value : Z;
  localId : nat
}.

Record t := mk {
  discs : JsMap.t Disc;
  world : JsSet.t;
  nextBodyId : nat;
  nextLocalId : nat;
  merging : JsSet.t;
  pending : list Timer;
  score : Z;
  best : Z;
  saved : Z;
  nextValue : Z;
  running : bool;
  paused : bool;
  ended : bool
}.

Definition of_disc (d : CircleData.t) : Disc :=
  mkDisc (Body.id (CircleData.body d)) (CircleData.value d) (CircleData.id d).

Definition of_circles (m : JsMap.t CircleData.t) : JsMap.t Disc :=
  map (fun kv => (fst kv, of_disc (snd kv))) m.

Definition of_game (g : Game) : t :=
  mk (of_circles (State.circles (state g)))
     (Engine.world (engine g)) (Engine.nextBodyId (engine g))
     (State.nextLocalId (state g)) (State.mergingCircles (state g))
     (timers g)
     (State.score (state g)) (State.best (state g)) (savedBest g)
     (State.nextValue (state g))
     (State.running (state g)) (State.paused (state g))
     (State.ended (state g)).

(** [createCircle] *)
Definition create (newValue : Z) (v : t) : t :=
  if (cfg.maxCircles <=? JsMap.size (discs v))%nat then v
  else
    mk (JsMap.set (nextBodyId v)
          (mkDisc (nextBodyId v) newValue (nextLocalId v)) (discs v))
       (world v ++ [nextBodyId v]) (S (nextBodyId v)) (S (nextLocalId v))
       (merging v) (pending v) (score v) (best v) (saved v) (nextValue v)
       (running v) (paused v) (ended v).

(** [removeCircle] *)
Definition remove (k : nat) (v : t) : t :=
  match JsMap.get k (discs v) with
  | None => v
  | Some d =>
      mk (JsMap.delete k (discs v)) (JsSet.delete (bodyId d) (world v))
         (nextBodyId v) (nextLocalId v) (JsSet.delete k (merging v))
         (pending v) (score v) (best v) (saved v) (nextValue v)
         (running v) (paused v) (ended v)
  end.

Definition unlock (a b : nat) (v : t) : t :=
  mk (discs v) (world v) (nextBodyId v) (nextLocalId v)
     (JsSet.delete b (JsSet.delete a (merging v)))
     (pending v) (score v) (best v) (saved v) (nextValue v)
     (running v) (paused v) (ended v).

(** The closure of a merge completion. *)
Definition complete (a b : nat) (newValue : Z) (v : t) : t :=
  create newValue (unlock a b (remove b (remove a v))).

(** The end of [tryDrop]: a disc of the next value, and the next value
    rolled again if the disc was created. *)
Definition drop (rolled : Z) (v : t) : t :=
  if (cfg.maxCircles <=? JsMap.size (discs v))%nat then v
  else
    let v1 := create (nextValue v) v in
    mk (discs v1) (world v1) (nextBodyId v1) (nextLocalId v1) (merging v1)
       (pending v1) (score v1) (best v1) (saved v1) rolled
       (running v1) (paused v1) (ended v1).

(** [endGame] *)
Definition finish (v : t) : t :=
  if ended v then v
  else
    mk (discs v) (world v) (nextBodyId v) (nextLocalId v) (merging v)
       (pending v) (score v) (best v) (saved v) (nextValue v)
       false (paused v) true.

(** [performMerge] of the discs [A] and [B]; [save] tells whether a new
    best score is written to the local storage. *)
Definition resolve (now x y : Q) (A B : Disc) (save : bool) (v : t) : t :=
  let newValue := (value A * 2)%Z in
  let score1 := (score v + newValue * cfg.scoreMul)%Z in
  let best1 := if (best v <? score1)%Z then score1 else best v in
  let saved1 := if (best v <? score1)%Z && save then best1 else saved v in
  mk (discs v) (world v) (nextBodyId v) (nextLocalId v)
     (JsSet.add (bodyId B) (JsSet.add (bodyId A) (merging v)))
     (pending v ++ [MergeCompletion (now + 300) (bodyId A) (bodyId B) x y newValue])
     score1 best1 saved1 (nextValue v) (running v) (paused v) (ended v).

(** A timer that fires, once it is off the list of pending timers. *)
Definition fire (n : nat) (timer : Timer) (v : t) : t :=
  let v1 :=
    mk (discs v) (world v) (nextBodyId v) (nextLocalId v) (merging v)
       (removeAt n (pending v)) (score v) (best v) (saved v) (nextValue v)
       (running v) (paused v) (ended v) in
  match timer with
  | MergeCompletion _ a b _ _ newValue => complete a b newValue v1
  | TimeScaleResume _ => v1
  end.

(** [restart] *)
Definition restart (now : Q) (rolled : Z) (v : t) : t :=
  mk JsMap.empty
     (fold_left (fun w d => JsSet.delete (bodyId d) w) (JsMap.values (discs v))
        (world v))
     (nextBodyId v) 1%nat JsSet.empty
     (pending v ++ [TimeScaleResume (now + 30)])
     0%Z (best v) (saved v) rolled true false false.

(** [togglePause] *)
Definition pause (v : t) : t :=
  if ended v then v
  else
    mk (discs v) (world v) (nextBodyId v) (nextLocalId v) (merging v)
       (pending v) (score v) (best v) (saved v) (nextValue v)
       (running v) (negb (paused v)) (ended v).

(** One transition of the view; [rolled] tells which values [rollValue] can
    give. *)
Inductive Step (rolled : Z -> Prop) : t -> t -> Prop :=
| step_drop (r : Z) (v : t) : rolled r -> Step rolled v (drop r v)
| step_finish (v : t) : Step rolled v (finish v)
| step_resolve (now x y : Q) (a b : nat) (A B : Disc) (save : bool) (v : t) :
    JsMap.get a (discs v) = Some A ->
    JsMap.get b (discs v) = Some B ->
    JsSet.has (bodyId A) (merging v) = false ->
    JsSet.has (bodyId B) (merging v) = false ->
    Step rolled v (resolve now x y A B save v)
| step_fire (n : nat) (timer : Timer) (v : t) :
    nth_error (pending v) n = Some timer ->
    Step rolled v (fire n timer v)
| step_restart (now : Q) (r : Z) (v : t) :
    rolled r -> Step rolled v (restart now r v)
| step_pause (v : t) : Step rolled v (pause v).

(** Any number of transitions. *)
Inductive Steps (rolled : Z -> Prop) : t -> t -> Prop :=
| steps_none (v : t) : Steps rolled v v
| steps_more (v1 v2 v3 : t) :
    Steps rolled v1 v2 -> Step rolled v2 v3 -> Steps rolled v1 v3.

End View.

(** The value that [rollValue] gives at the [n]-th call of [Math.random]. *)
Definition rolledAt (random : nat -> Q) (n : nat) : Z :=
  TypedArray.read 0%Z cfg.valueDist
    (Num.floor (random n * inject_Z (Z.of_nat (List.length cfg.valueDist)))).

Definition rolledBy (random : nat -> Q) (r : Z) : Prop :=
  exists n, r = rolledAt random n.

(** ** Invariants of the view *)

Module Inv.

(** The table of discs and the world of the engine go together: the world
    holds the keys of the table, each disc is filed under the identifier of
    its body, the identifiers are older than the counters, and no two discs
    share one. *)
Definition table (v : View.t) : Prop :=
  View.world v = JsMap.keys (View.discs v)
  /\ NoDup (JsMap.keys (View.discs v))
  /\ (forall k d, In (k, d) (View.discs v) ->
        View.bodyId d = k
        /\ (k < View.nextBodyId v)%nat
        /\ (View.localId d < View.nextLocalId v)%nat)
  /\ NoDup (map View.localId (JsMap.values (View.discs v))).

Definition powerOfTwo (z : Z) : Prop :=
  exists k : Z, (1 <= k)%Z /\ z = (2 ^ k)%Z.

(** Every value in play is a power of two; the next value is one of the
    values that can be rolled. *)
Definition values (v : View.t) : Prop :=
  (forall k d, In (k, d) (View.discs v) -> powerOfTwo (View.value d))
  /\ In (View.nextValue v) cfg.valueDist
  /\ (forall due a b x y newValue,
        In (MergeCompletion due a b x y newValue) (View.pending v) ->
        powerOfTwo newValue).

(** The best score is at least the score, the saved best score and the best
    score the session started with. *)
Definition scores (best0 : Z) (v : View.t) : Prop :=
  (0 <= best0)%Z
  /\ (best0 <= View.best v)%Z
  /\ (View.score v <= View.best v)%Z
  /\ (View.saved v <= View.best v)%Z.

(** The score is a multiple of 4 and is not negative. *)
Definition fourfold (v : View.t) : Prop :=
  exists k : Z, (0 <= k)%Z /\ View.score v = (4 * k)%Z.

(** The session runs until it has ended. *)
Definition flags (v : View.t) : Prop :=
  View.running v = negb (View.ended v).

End Inv.

(** The discs that a pending timer will remove. *)
Definition participants (timer : Timer) : list nat :=
  match timer with
  | MergeCompletion _ a b _ _ _ => if Nat.eqb a b then [a] else [a; b]
  | TimeScaleResume _ => []
  end.

(** A session that ends: a disc is dropped at time 1000 and is still at the
    spawn point, above the danger line, at the fixed step of time 3000. *)
Definition exStill : Physics :=
  mkPhysics (fun body => (Body.position body, Vector.zero)) [].

Definition exEnded : list Op :=
  [OpTryDrop 1000; OpTick 3000 exStill].

(** The mid-merge lock: a locked disc has a pending completion; a disc of a
    pending completion is older than the counter of the engine and, while it
    is in the table, locked; no disc is in two pending completions. *)
Definition locks (v : View.t) : Prop :=
  (forall k, In k (View.merging v) ->
     exists timer, In timer (View.pending v) /\ In k (participants timer))
  /\ (forall timer k, In timer (View.pending v) -> In k (participants timer) ->
        (k < View.nextBodyId v)%nat
        /\ (In k (JsMap.keys (View.discs v)) -> In k (View.merging v)))
  /\ NoDup (flat_map participants (View.pending v)).

(** A crowded top row on the narrow phone board: seven discs of value 2 at
    the spawn height, 40 apart, so that no disc of value 2 fits between
    them. *)
Definition exCrowded : Game :=
  upd (State.with_circles
         [exDisc 10 20 35.84; exDisc 11 60 35.84; exDisc 12 100 35.84;
          exDisc 13 140 35.84; exDisc 14 180 35.84; exDisc 15 220 35.84;
          exDisc 16 260 35.84])
    (startGame exRandom 0 100 narrowPhone 0 60 4 0).

(** The timing of an animation: what [updateAnimations] never changes. *)
Definition timing (a : Animation.t) : Q * Q * AnimationType :=
  (Animation.startTime a, Animation.duration a, Animation.type a).

Definition timings (m : JsMap.t Animation.t) : JsMap.t (Q * Q * AnimationType) :=
  map (fun kv => (fst kv, timing (snd kv))) m.

(** An animation that has run for its duration. *)
Definition elapsed (now : Q) (a : Animation.t) : bool :=
  now - Animation.startTime a >=? Animation.duration a.

(** A game with a merge animation that is over at time 3400 and a spawn
    animation that is not. *)
Definition exAnimated : Game :=
  upd (State.with_animations
         [(4%nat, Animation.mk 3000 300 merge (Some 266) (Some 766) (Some 300)
                    (Some 766) None);
          (6%nat, Animation.mk 3300 200 spawn None None None None (Some 0))])
    exMerging.

(** The slots of the pool, and those that [updateParticles] finds expired
    at a given time: a positive life and an age of at least the time to
    live. *)
Definition slots (p : ParticlePool.t) : list Z :=
  map Z.of_nat (seq 0 (Z.to_nat (ParticlePool.capacity p))).

Definition expiredb (now : Q) (p : ParticlePool.t) (i : Z) : bool :=
  negb (TypedArray.read 0 (ParticlePool.life p) i <=? 0)
  && (now - TypedArray.read 0 (ParticlePool.startTime p) i
      >=? TypedArray.read 0 (ParticlePool.maxLife p) i).

Definition activeb (now : Q) (p : ParticlePool.t) (i : Z) : bool :=
  negb (TypedArray.read 0 (ParticlePool.life p) i <=? 0)
  && negb (now - TypedArray.read 0 (ParticlePool.startTime p) i
           >=? TypedArray.read 0 (ParticlePool.maxLife p) i).

Definition expiredSlots (now : Q) (p : ParticlePool.t) : list Z :=
  filter (expiredb now p) (slots p).

(** Two pools with the same capacity and the same arrays of lives, start
    times and times to live: what decides whether a slot has expired. *)
Definition sameLifetimes (q p : ParticlePool.t) : Prop :=
  ParticlePool.life q = ParticlePool.life p
  /\ ParticlePool.startTime q = ParticlePool.startTime p
  /\ ParticlePool.maxLife q = ParticlePool.maxLife p
  /\ ParticlePool.capacity q = ParticlePool.capacity p.

(** * Part III: proofs *)

(** ** Comparisons of numbers *)

Module NumFacts.

Lemma leb_le (a b : Q) : (a <=? b) = true <-> a <= b.
Proof. apply Qle_bool_iff. Qed.

Lemma ltb_lt (a b : Q) : (a <? b) = true <-> a < b.
Proof.
  unfold Num.ltb. rewrite negb_true_iff.
  destruct (Qle_bool b a) eqn:E.
  - apply Qle_bool_iff in E. split; [discriminate | intro H; exfalso; lra].
  - split; [intros _ | reflexivity].
    destruct (Qlt_le_dec a b) as [H | H]; [exact H |].
    apply Qle_bool_iff in H. congruence.
Qed.

Lemma ltb_ge (a b : Q) : (a <? b) = false <-> b <= a.
Proof.
  unfold Num.ltb. rewrite negb_false_iff. apply Qle_bool_iff.
Qed.

Lemma leb_gt (a b : Q) : (a <=? b) = false <-> b < a.
Proof.
  rewrite <- ltb_lt. unfold Num.ltb, Num.leb.
  destruct (Qle_bool a b); simpl; split; congruence.
Qed.

Lemma geb_ge (a b : Q) : (a >=? b) = true <-> b <= a.
Proof. apply leb_le. Qed.

Lemma gtb_gt (a b : Q) : (a >? b) = true <-> b < a.
Proof. apply ltb_lt. Qed.

Lemma gtb_le (a b : Q) : (a >? b) = false <-> a <= b.
Proof. apply ltb_ge. Qed.

Lemma max_ge_l (a b : Q) : a <= Num.max a b.
Proof. apply Q.le_max_l. Qed.

Lemma max_ge_r (a b : Q) : b <= Num.max a b.
Proof. apply Q.le_max_r. Qed.

End NumFacts.

(** ** Maps and sets *)

Module JsMapFacts.
Section WithValue.
Context {V : Type}.
Implicit Types (m : JsMap.t V) (k : nat) (v : V).

Lemma size_set_le k v m : (JsMap.size (JsMap.set k v m) <= S (JsMap.size m))%nat.
Proof.
  induction m as [| [k' v'] r IH]; simpl; [lia |].
  destruct (Nat.eqb k k'); simpl in *; lia.
Qed.

Lemma size_set_present k v v0 m :
  JsMap.get k m = Some v0 -> JsMap.size (JsMap.set k v m) = JsMap.size m.
Proof.
  induction m as [| [k' v'] r IH]; simpl; [discriminate |].
  destruct (Nat.eqb k k'); [reflexivity |].
  intro H. simpl. f_equal. apply IH, H.
Qed.

Lemma size_set_fresh k v m :
  JsMap.get k m = None -> JsMap.size (JsMap.set k v m) = S (JsMap.size m).
Proof.
  induction m as [| [k' v'] r IH]; simpl; [reflexivity |].
  destruct (Nat.eqb k k'); [discriminate |].
  intro H. simpl. f_equal. apply IH, H.
Qed.

Lemma size_delete_le k m : (JsMap.size (JsMap.delete k m) <= JsMap.size m)%nat.
Proof. apply filter_length_le. Qed.

Lemma get_set_same k v m : JsMap.get k (JsMap.set k v m) = Some v.
Proof.
  induction m as [| [k' v'] r IH]; simpl.
  - now rewrite Nat.eqb_refl.
  - destruct (Nat.eqb k k') eqn:E; simpl.
    + now rewrite Nat.eqb_refl.
    + now rewrite E.
Qed.

Lemma get_set_other k k0 v m :
  k0 <> k -> JsMap.get k0 (JsMap.set k v m) = JsMap.get k0 m.
Proof.
  intro N. induction m as [| [k' v'] r IH]; simpl.
  - apply Nat.eqb_neq in N. now rewrite N.
  - destruct (Nat.eqb k k') eqn:E; simpl.
    + apply Nat.eqb_eq in E. subst k'.
      apply Nat.eqb_neq in N. now rewrite N.
    + destruct (Nat.eqb k0 k'); [reflexivity | exact IH].
Qed.

Lemma get_delete_same k m : JsMap.get k (JsMap.delete k m) = None.
Proof.
  induction m as [| [k' v'] r IH]; simpl; [reflexivity |].
  destruct (Nat.eqb k k') eqn:E; simpl; [exact IH |].
  now rewrite E.
Qed.

Lemma get_delete_other k k0 m :
  k0 <> k -> JsMap.get k0 (JsMap.delete k m) = JsMap.get k0 m.
Proof.
  intro N. induction m as [| [k' v'] r IH]; simpl; [reflexivity |].
  destruct (Nat.eqb k k') eqn:E; simpl.
  - apply Nat.eqb_eq in E. subst k'.
    apply Nat.eqb_neq in N. now rewrite N.
  - destruct (Nat.eqb k0 k'); [reflexivity | exact IH].
Qed.

Lemma get_none_delete k m : JsMap.get k m = None -> JsMap.delete k m = m.
Proof.
  induction m as [| [k' v'] r IH]; simpl; [reflexivity |].
  destruct (Nat.eqb k k') eqn:E; [discriminate |].
  intro H. simpl. f_equal. apply IH, H.
Qed.

Lemma get_some_in k v m : JsMap.get k m = Some v -> In v (JsMap.values m).
Proof.
  induction m as [| [k' v'] r IH]; simpl; [discriminate |].
  destruct (Nat.eqb k k').
  - intro H. left. congruence.
  - intro H. right. apply IH, H.
Qed.

End WithValue.
End JsMapFacts.

Module JsSetFacts.

Lemma has_false_delete (k : nat) (s : JsSet.t) :
  JsSet.has k s = false -> JsSet.delete k s = s.
Proof.
  unfold JsSet.has, JsSet.delete.
  induction s as [| k' r IH]; simpl; [reflexivity |].
  destruct (Nat.eqb k k'); simpl; [discriminate |].
  intro H. f_equal. apply IH, H.
Qed.

End JsSetFacts.

(** ** The state store *)

(** C10. [GameStateStore.setState] throttles by dropping: a call that comes
    less than 100 ms after the update accepted last leaves the store as it
    is and calls no listener; a call that is accepted calls every listener,
    records its time, and changes only the fields that the partial state
    gives, the others keeping their values. *)
Theorem setState_drops_or_merges (now : Q) (p : PartialGameState.t)
    (s : GameStateStore.t) :
  (now - GameStateStore.updateThrottle s < 100 ->
     GameStateStore.setState now p s = (s, []))
  /\
  (100 <= now - GameStateStore.updateThrottle s ->
     let s' := fst (GameStateStore.setState now p s) in
     let old := GameStateStore.state s in
     let new := GameStateStore.state s' in
     snd (GameStateStore.setState now p s) = GameStateStore.listeners s
     /\ GameStateStore.listeners s' = GameStateStore.listeners s
     /\ GameStateStore.updateThrottle s' = now
     /\ GameState.score new
        = match PartialGameState.score p with Some v => v | None => GameState.score old end
     /\ GameState.best new
        = match PartialGameState.best p with Some v => v | None => GameState.best old end
     /\ GameState.nextValue new
        = match PartialGameState.nextValue p with Some v => v | None => GameState.nextValue old end
     /\ GameState.running new
        = match PartialGameState.running p with Some v => v | None => GameState.running old end
     /\ GameState.paused new
        = match PartialGameState.paused p with Some v => v | None => GameState.paused old end
     /\ GameState.ended new
        = match PartialGameState.ended p with Some v => v | None => GameState.ended old end
     /\ GameState.endReason new
        = match PartialGameState.endReason p with Some v => v | None => GameState.endReason old end).
Proof.
  unfold GameStateStore.setState, GameStateStore.throttleMs. split; intro H.
  - apply NumFacts.ltb_lt in H. now rewrite H.
  - apply NumFacts.ltb_ge in H. rewrite H. cbn. repeat split.
Qed.

(** An update of [ended] and [endReason] 40 ms after an accepted update is
    lost; the same update 100 ms after it is stored, and the score stays. *)
Lemma setState_drops_or_merges_witness :
  let s := GameStateStore.mk (GameState.mk 8 8 2 true false false EmptyString)
             [1%nat; 2%nat] 1000 in
  let p := PartialGameState.mk None None None (Some false) None (Some true)
             (Some "Danger line crossed."%string) in
  GameStateStore.setState 1040 p s = (s, [])
  /\ GameState.ended (GameStateStore.state (fst (GameStateStore.setState 1100 p s))) = true
  /\ GameState.score (GameStateStore.state (fst (GameStateStore.setState 1100 p s))) = 8%Z.
Proof.
  intros s p. split.
  - apply (proj1 (setState_drops_or_merges 1040 p s)). cbn. lra.
  - pose proof (proj2 (setState_drops_or_merges 1100 p s)) as H.
    assert (L : 100 <= 1100 - GameStateStore.updateThrottle s) by (cbn; lra).
    specialize (H L). cbn zeta in H.
    destruct H as (_ & _ & _ & Hs & _ & _ & _ & _ & He & _).
    split; [exact He | exact Hs].
Defined.

(** ** Records are determined by their fields *)

Lemma state_eta (s : State.t) :
  State.mk (State.previewX s) (State.score s) (State.best s)
    (State.nextValue s) (State.running s) (State.paused s)
    (State.lastDropTs s) (State.ended s) (State.endReason s)
    (State.circles s) (State.nextLocalId s) (State.mergingCircles s)
    (State.animations s) (State.mergeQueue s) (State.highestCircleTop s)
    (State.previewUpdateTime s) = s.
Proof. now destruct s. Qed.

Lemma game_eta (g : Game) :
  mkGame (state g) (store g) (particlePool g) (engine g) (board g) (timers g)
    (lastBestSave g) (savedBest g) (lastParticleUpdate g) (targetFPS g)
    (showModal g) (toasts g) (randomCalls g) = g.
Proof. now destruct g. Qed.

Lemma upd_mergeQueue_same (g : Game) :
  upd (State.with_mergeQueue (State.mergeQueue (state g))) g = g.
Proof.
  unfold upd, with_state, State.with_mergeQueue.
  rewrite state_eta. apply game_eta.
Qed.

(** ** The session end *)

Lemma endGame_ended (now : Q) (reason : string) (g : Game) :
  State.ended (state g) = true -> endGame now reason g = g.
Proof. intro E. unfold endGame. now rewrite E. Qed.

Lemma endGame_fresh (now : Q) (reason : string) (g : Game) :
  State.ended (state g) = false ->
  State.ended (state (endGame now reason g)) = true
  /\ State.running (state (endGame now reason g)) = false
  /\ State.endReason (state (endGame now reason g)) = reason.
Proof. intro E. unfold endGame. rewrite E. cbn. repeat split. Qed.

Lemma endGame_ends (now : Q) (reason : string) (g : Game) :
  State.ended (state (endGame now reason g)) = true.
Proof.
  destruct (State.ended (state g)) eqn:E.
  - now rewrite endGame_ended.
  - now apply endGame_fresh.
Qed.

(** C6. The session-end trigger is idempotent: after [endGame] a second
    [endGame], with any reason, changes nothing; on a session that has
    ended [endGame] is a no-op, and on one that has not it records its
    reason, sets [ended] and clears [running]. *)
Theorem endGame_idempotent (now1 now2 : Q) (r1 r2 : string) (g : Game) :
  let g1 := endGame now1 r1 g in
  endGame now2 r2 g1 = g1
  /\ (State.ended (state g) = true -> g1 = g)
  /\ (State.ended (state g) = false ->
        State.ended (state g1) = true
        /\ State.running (state g1) = false
        /\ State.endReason (state g1) = r1
        /\ State.endReason (state (endGame now2 r2 g1)) = r1).
Proof.
  cbn zeta.
  assert (Again : endGame now2 r2 (endGame now1 r1 g) = endGame now1 r1 g)
    by apply endGame_ended, endGame_ends.
  split; [exact Again |]. split.
  - apply endGame_ended.
  - intro E. rewrite Again.
    destruct (endGame_fresh now1 r1 g E) as (He & Hr & Hreason).
    repeat split; assumption.
Qed.

(** A session ended by the danger line keeps that reason when the drop
    placement asks to end it again. *)
Lemma endGame_idempotent_witness :
  let g := startGame exRandom 0 1000 desktop 0 60 4 0 in
  let g1 := endGame 5000 "Danger line crossed." g in
  State.endReason (state (endGame 6000 "No space to spawn." g1))
  = "Danger line crossed."%string
  /\ endGame 7000 "Too many circles stacked." g1 = g1.
Proof.
  intros g g1. split.
  - apply (proj2 (proj2 (endGame_idempotent 5000 6000 "Danger line crossed."
                           "No space to spawn." g))).
    vm_compute. reflexivity.
  - apply (proj1 (proj2 (endGame_idempotent 7000 7000 "Too many circles stacked."
                           "Too many circles stacked." g1))).
    vm_compute. reflexivity.
Defined.

(** ** The particle pool *)

Lemma release_out_of_range (index : Z) (p : ParticlePool.t) :
  (index < 0 \/ ParticlePool.capacity p <= index)%Z ->
  ParticlePool.release index p = p.
Proof.
  intro H. unfold ParticlePool.release.
  destruct (index <? 0)%Z eqn:Neg; [reflexivity |].
  destruct (index >=? ParticlePool.capacity p)%Z eqn:Big; [reflexivity |].
  apply Z.ltb_ge in Neg. rewrite Z.geb_leb in Big. apply Z.leb_gt in Big. lia.
Qed.

Lemma release_in_range (index : Z) (p : ParticlePool.t) :
  (0 <= index < ParticlePool.capacity p)%Z ->
  ParticlePool.count (ParticlePool.release index p) = (ParticlePool.count p - 1)%Z
  /\ ParticlePool.freeList (ParticlePool.release index p)
     = ParticlePool.freeList p ++ [index].
Proof.
  intro H. unfold ParticlePool.release.
  destruct (index <? 0)%Z eqn:Neg; [apply Z.ltb_lt in Neg; lia |].
  destruct (index >=? ParticlePool.capacity p)%Z eqn:Big.
  - rewrite Z.geb_leb in Big. apply Z.leb_le in Big. lia.
  - split; reflexivity.
Qed.

(** C2. The release of a slot that is free is not a no-op. A slot taken
    from a new pool and released leaves the pool as it was; released once
    more, the slot is on the free list twice and the count of active
    particles is -1, and the next two [acquire] give the same slot. The
    game does this by itself: [updateParticles] releases the eight expired
    particles of a burst on every update after they expire, since it never
    resets their [life]. *)
Theorem release_free_slot_not_noop :
  let p0 := ParticlePool.create 300 in
  let i := fst (ParticlePool.acquire p0) in
  let p1 := snd (ParticlePool.acquire p0) in
  let p2 := ParticlePool.release i p1 in
  let p3 := ParticlePool.release i p2 in
  i = 0%Z
  /\ p2 = p0
  /\ ParticlePool.count p3 = (-1)%Z
  /\ List.length (ParticlePool.freeList p3) = 301%nat
  /\ fst (ParticlePool.acquire p3) = 0%Z
  /\ fst (ParticlePool.acquire (snd (ParticlePool.acquire p3))) = 0%Z
  /\ ParticlePool.count (particlePool exBurst) = 8%Z
  /\ ParticlePool.count (particlePool (updateParticles 2700 exBurst)) = 0%Z
  /\ ParticlePool.count
       (particlePool (updateParticles 2720 (updateParticles 2700 exBurst)))
     = (-8)%Z
  /\ List.length
       (ParticlePool.freeList
          (particlePool (updateParticles 2720 (updateParticles 2700 exBurst))))
     = 308%nat.
Proof. vm_compute. repeat split. Qed.

(** ** Merge detection *)

Section Detection.

Variable sqrt : Q -> Q.

Lemma mergeEligibleb_iff (g : Game) (p : Body.t * Body.t) :
  mergeEligibleb sqrt g p = true <-> mergeEligible sqrt g p.
Proof.
  destruct p as [bodyA bodyB]. unfold mergeEligibleb, mergeEligible.
  destruct (JsMap.get (Body.id bodyA) (State.circles (state g))) as [A |];
    [| split; [discriminate | intros (_ & _ & A & B & H & _); discriminate]].
  destruct (JsMap.get (Body.id bodyB) (State.circles (state g))) as [B |];
    [| split; [discriminate | intros (_ & _ & A' & B & _ & H & _); discriminate]].
  rewrite !andb_true_iff, !negb_true_iff, !NumFacts.ltb_lt, Z.eqb_eq,
    !String.eqb_eq.
  split.
  - intros (((((((La & Lb) & V) & Ma) & Mb) & Sa) & Sb) & Rel).
    split; [exact La |]. split; [exact Lb |].
    exists A, B. repeat split; assumption.
  - intros (La & Lb & A' & B' & Ha & Hb & V & Ma & Mb & Sa & Sb & Rel).
    injection Ha as <-. injection Hb as <-.
    repeat split; assumption.
Qed.

Lemma collisionPair_spec (now : Q) (g : Game) (p : Body.t * Body.t) :
  collisionPair sqrt now g p
  = if mergeEligibleb sqrt g p
    then upd (fun s => State.with_mergeQueue
                 (State.mergeQueue s ++ [requestFor now g p]) s) g
    else g.
Proof.
  destruct p as [bodyA bodyB].
  unfold collisionPair, mergeEligibleb, Body.isCircle, requestFor, mergeRequestOf.
  cbn [fst snd].
  destruct (JsMap.get (Body.id bodyA) (State.circles (state g))) as [A |];
    [| now destruct (String.eqb (Body.label bodyA) "circle"),
                    (String.eqb (Body.label bodyB) "circle")].
  destruct (JsMap.get (Body.id bodyB) (State.circles (state g))) as [B |];
    [| now destruct (String.eqb (Body.label bodyA) "circle"),
                    (String.eqb (Body.label bodyB) "circle")].
  destruct (String.eqb (Body.label bodyA) "circle"); cbn [negb orb andb];
    [| reflexivity].
  destruct (String.eqb (Body.label bodyB) "circle"); cbn [negb orb andb];
    [| reflexivity].
  destruct (CircleData.value A =? CircleData.value B)%Z; cbn [negb andb];
    [| reflexivity].
  destruct (JsSet.has (Body.id bodyA) _); cbn [negb orb andb]; [reflexivity |].
  destruct (JsSet.has (Body.id bodyB) _); cbn [negb orb andb]; reflexivity.
Qed.

Lemma collisionStart_from (now : Q) (ps : list (Body.t * Body.t)) (g : Game)
    (queued : list MergeRequest.t) :
  fold_left (collisionPair sqrt now) ps
    (upd (State.with_mergeQueue (State.mergeQueue (state g) ++ queued)) g)
  = upd (State.with_mergeQueue
           (State.mergeQueue (state g) ++ queued
            ++ map (requestFor now g) (filter (mergeEligibleb sqrt g) ps))) g.
Proof.
  revert queued. induction ps as [| p rest IH]; intro queued; cbn [fold_left].
  - cbn. now rewrite app_nil_r.
  - rewrite collisionPair_spec.
    change (mergeEligibleb sqrt (upd _ g) p) with (mergeEligibleb sqrt g p).
    cbn [filter]. destruct (mergeEligibleb sqrt g p).
    + change (fold_left (collisionPair sqrt now) rest
                (upd (State.with_mergeQueue
                        ((State.mergeQueue (state g) ++ queued)
                         ++ [requestFor now g p])) g) = 
              upd (State.with_mergeQueue
                     (State.mergeQueue (state g) ++ queued
                      ++ map (requestFor now g) (p :: filter (mergeEligibleb sqrt g) rest))) g).
      rewrite <- app_assoc. rewrite IH. cbn [map].
      now rewrite <- app_assoc.
    + apply IH.
Qed.

Lemma collisionStart_queue (now : Q) (ps : list (Body.t * Body.t)) (g : Game) :
  collisionStart sqrt now ps g
  = upd (State.with_mergeQueue
           (State.mergeQueue (state g)
            ++ map (requestFor now g) (filter (mergeEligibleb sqrt g) ps))) g.
Proof.
  unfold collisionStart.
  rewrite <- (upd_mergeQueue_same g) at 1.
  rewrite <- (app_nil_r (State.mergeQueue (state g))) at 1.
  rewrite collisionStart_from. reflexivity.
Qed.

(** C3. The [collisionStart] handler changes only the merge queue, to which
    it appends, in the order of the pairs, one request for each pair that is
    eligible and none for the others; a pair is eligible exactly when its
    two bodies are discs of the table (not walls) of equal value, neither is
    in the mid-merge set, both speeds are strictly below [mergeSpeedMax] and
    the relative speed is strictly below [mergeRelSpeedMax]. *)
Theorem collisionStart_enqueues_eligible (now : Q)
    (ps : list (Body.t * Body.t)) (g : Game) :
  collisionStart sqrt now ps g
  = upd (State.with_mergeQueue
           (State.mergeQueue (state g)
            ++ map (requestFor now g) (filter (mergeEligibleb sqrt g) ps))) g
  /\ forall p, mergeEligibleb sqrt g p = true <-> mergeEligible sqrt g p.
Proof.
  split.
  - apply collisionStart_queue.
  - intro p. apply mergeEligibleb_iff.
Qed.

End Detection.

(** ** Drop placement *)

Section Placement.

Variable log2 : Q -> Q.
Variable sqrt : Q -> Q.
Variable random : nat -> Q.

#[local] Abbreviation isFree := (isSpawnFree log2 sqrt).

Lemma tooClose_false (b : Board) (x y spawnRadius : Q)
    (discs : list CircleData.t) :
  tooClose log2 sqrt b x y spawnRadius discs = false
  <-> forall data, In data discs ->
        (spawnRadius + getRadiusForValue log2 b (CircleData.value data)) * 1.1
        <= hypot sqrt (x - Vector.x (Body.position (CircleData.body data)))
             (y - Vector.y (Body.position (CircleData.body data))).
Proof.
  induction discs as [| d rest IH]; cbn [tooClose].
  - split; [intros _ data [] | reflexivity].
  - destruct (_ <? _) eqn:C.
    + apply NumFacts.ltb_lt in C. split; [discriminate |].
      intro H. specialize (H d (or_introl eq_refl)). lra.
    + apply NumFacts.ltb_ge in C. rewrite IH. split.
      * intros H data [<- | Hd]; [exact C | apply H, Hd].
      * intros H data Hd. apply H. now right.
Qed.

(** [isSpawnFree] accepts a position exactly when every disc is at least
    [(spawnRadius + otherRadius) * 1.1] away from it and the position keeps
    the disc within the edges of the board. *)
Lemma isSpawnFree_iff (x y : Q) (value : Z) (g : Game) :
  let spawnRadius := getRadiusForValue log2 (board g) value in
  isFree x y value g = true
  <-> (forall data, In data (JsMap.values (State.circles (state g))) ->
         (spawnRadius + getRadiusForValue log2 (board g) (CircleData.value data)) * 1.1
         <= hypot sqrt (x - Vector.x (Body.position (CircleData.body data)))
              (y - Vector.y (Body.position (CircleData.body data))))
      /\ spawnRadius <= y /\ y <= boardH g - spawnRadius
      /\ spawnRadius <= x /\ x <= boardW g - spawnRadius.
Proof.
  cbn zeta. unfold isSpawnFree.
  destruct (tooClose _ _ _ _ _ _ _) eqn:T.
  - split; [discriminate |]. intros (Far & _).
    apply (proj2 (tooClose_false _ _ _ _ _)) in Far. congruence.
  - pose proof (proj1 (tooClose_false _ _ _ _ _) T) as Far.
    rewrite !andb_true_iff, !NumFacts.geb_ge, !NumFacts.leb_le. tauto.
Qed.

Lemma isSpawnFree_bounds (x y : Q) (value : Z) (g : Game) :
  isFree x y value g = true ->
  (x >=? getRadiusForValue log2 (board g) value) = true
  /\ (x <=? boardW g - getRadiusForValue log2 (board g) value) = true.
Proof.
  unfold isSpawnFree. destruct (tooClose _ _ _ _ _ _ _); [discriminate |].
  rewrite !andb_true_iff. intros [[[_ _] Hl] Hr]. split; assumption.
Qed.

Lemma guard_left (x y : Q) (value : Z) (g : Game) :
  (x >=? getRadiusForValue log2 (board g) value) && isFree x y value g
  = isFree x y value g.
Proof.
  destruct (isFree x y value g) eqn:F.
  - apply isSpawnFree_bounds in F. now rewrite (proj1 F).
  - apply andb_false_r.
Qed.

Lemma guard_right (x y : Q) (value : Z) (g : Game) :
  (x <=? boardW g - getRadiusForValue log2 (board g) value) && isFree x y value g
  = isFree x y value g.
Proof.
  destruct (isFree x y value g) eqn:F.
  - apply isSpawnFree_bounds in F. now rewrite (proj2 F).
  - apply andb_false_r.
Qed.

Lemma guard_both (x y : Q) (value : Z) (g : Game) :
  (x >=? getRadiusForValue log2 (board g) value)
  && (x <=? boardW g - getRadiusForValue log2 (board g) value)
  && isFree x y value g
  = isFree x y value g.
Proof.
  destruct (isFree x y value g) eqn:F.
  - apply isSpawnFree_bounds in F. now rewrite (proj1 F), (proj2 F).
  - apply andb_false_r.
Qed.

Lemma offsetSearch_find (g : Game) (x y step : Q) (value : Z) (indices : list Z) :
  offsetSearch log2 sqrt g x y step (getRadiusForValue log2 (board g) value)
    value indices
  = find (fun x' => isFree x' y value g)
      (flat_map (fun i => [x - inject_Z i * step; x + inject_Z i * step]) indices).
Proof.
  induction indices as [| i rest IH]; [reflexivity |].
  cbn [offsetSearch flat_map app find].
  rewrite guard_left, guard_right, IH. reflexivity.
Qed.

Lemma zigzagSearch_find (g : Game) (safeY step : Q) (value : Z) (indices : list Z) :
  zigzagSearch log2 sqrt g safeY step (getRadiusForValue log2 (board g) value)
    value indices
  = find (fun x' => isFree x' safeY value g)
      (map (fun i => State.previewX (state g)
                     + inject_Z (if (i mod 2 =? 0)%Z then 1 else -1)
                       * inject_Z (Num.floor (inject_Z i / 2)) * step)
         indices).
Proof.
  induction indices as [| i rest IH]; [reflexivity |].
  cbn [zigzagSearch map find].
  rewrite guard_both, IH. reflexivity.
Qed.

Lemma find_append {A : Type} (f : A -> bool) (l1 l2 : list A) :
  find f (l1 ++ l2)
  = match find f l1 with Some a => Some a | None => find f l2 end.
Proof.
  induction l1 as [| a r IH]; [reflexivity |].
  cbn. destruct (f a); [reflexivity | exact IH].
Qed.

Lemma createCircle_full (now x y : Q) (value : Z) (g : Game) :
  (cfg.maxCircles <= JsMap.size (State.circles (state g)))%nat ->
  createCircle now x y value g = (None, showToastMessage "Object limit reached" g).
Proof.
  intro H. unfold createCircle.
  apply Nat.leb_le in H. now rewrite H.
Qed.

Lemma createCircle_room (now x y : Q) (value : Z) (g : Game) :
  (JsMap.size (State.circles (state g)) < cfg.maxCircles)%nat ->
  let newId := Engine.nextBodyId (engine g) in
  let data := CircleData.mk (Body.circle newId x y) value now
                (State.nextLocalId (state g)) in
  fst (createCircle now x y value g) = Some data
  /\ State.circles (state (snd (createCircle now x y value g)))
     = JsMap.set newId data (State.circles (state g))
  /\ Engine.world (engine (snd (createCircle now x y value g)))
     = Engine.world (engine g) ++ [newId]
  /\ Engine.nextBodyId (engine (snd (createCircle now x y value g))) = S newId.
Proof.
  intro H. unfold createCircle.
  apply Nat.leb_gt in H. rewrite H. cbn. repeat split.
Qed.

Lemma dropAt_circles (now x y : Q) (value : Z) (g : Game) :
  State.circles (state (dropAt random now x y value g))
  = State.circles (state (snd (createCircle now x y value g))).
Proof.
  unfold dropAt. destruct (createCircle now x y value g) as [[C |] g1]; reflexivity.
Qed.

(** C9. A drop that is accepted (the session runs, the cooldown is over)
    and whose spawn point [(previewX, spawnY)] is not free goes to the first
    position of the search order that [isSpawnFree] accepts: there the disc
    is created (and is in the table at that position, unless the table is
    full); if [isSpawnFree] accepts no position of the search order, the
    session ends with the reason "No space to spawn." and the table of
    discs is unchanged. *)
Theorem tryDrop_first_free (now : Q) (g : Game) :
  State.running (state g) = true ->
  State.ended (state g) = false ->
  State.paused (state g) = false ->
  cfg.dropCooldownMs <= now - State.lastDropTs (state g) ->
  let value := State.nextValue (state g) in
  let x := State.previewX (state g) in
  let y := spawnY log2 (board g) in
  let step := getRadiusForValue log2 (board g) value * 1.1 in
  isFree x y value g = false ->
  match firstFree log2 sqrt g y value (searchOrder x step) with
  | Some x' =>
      tryDrop log2 sqrt random now g = dropAt random now x' y value g
      /\ ((JsMap.size (State.circles (state g)) < cfg.maxCircles)%nat ->
          exists C,
            JsMap.get (Engine.nextBodyId (engine g))
              (State.circles (state (tryDrop log2 sqrt random now g))) = Some C
            /\ Body.position (CircleData.body C) = Vector.mk x' y
            /\ CircleData.value C = value)
  | None =>
      tryDrop log2 sqrt random now g = endGame now "No space to spawn." g
      /\ State.circles (state (tryDrop log2 sqrt random now g))
         = State.circles (state g)
      /\ State.ended (state (tryDrop log2 sqrt random now g)) = true
      /\ State.endReason (state (tryDrop log2 sqrt random now g))
         = "No space to spawn."%string
  end.
Proof.
  intros Run End Pause Cool value x y step Taken.
  assert (Drop : tryDrop log2 sqrt random now g
                 = match firstFree log2 sqrt g y value (searchOrder x step) with
                   | Some x' => dropAt random now x' y value g
                   | None => endGame now "No space to spawn." g
                   end).
  { unfold tryDrop. rewrite Run, End, Pause. cbn [negb orb].
    apply NumFacts.ltb_ge in Cool. rewrite Cool.
    fold value x y. rewrite Taken. cbn [negb]. fold step.
    rewrite offsetSearch_find, zigzagSearch_find.
    unfold firstFree, searchOrder, offsetPositions, zigzagPositions.
    rewrite find_append. fold x.
    destruct (find _ (flat_map _ _)); [reflexivity |].
    destruct (find _ (map _ _)); reflexivity. }
  rewrite Drop.
  destruct (firstFree log2 sqrt g y value (searchOrder x step)) as [x' |].
  - split; [reflexivity |]. intro Room.
    rewrite dropAt_circles.
    destruct (createCircle_room now x' y value g Room) as (_ & Hc & _).
    rewrite Hc. eexists. split; [apply JsMapFacts.get_set_same |].
    split; reflexivity.
  - split; [reflexivity |].
    destruct (endGame_fresh now "No space to spawn." g End) as (He & _ & Hr).
    split; [| split; assumption].
    unfold endGame. rewrite End. reflexivity.
Qed.

End Placement.

(** The second drop finds the first disc at the spawn point [(300, 54.4)];
    the offsets of 37.4 are too close to it, and the disc goes to the left
    offset of 74.8, at 225.2. *)
Lemma tryDrop_first_free_witness :
  let x2 := State.previewX (state exOneDisc)
            - inject_Z 2 * (getRadiusForValue exLog2 desktop 2 * 1.1) in
  x2 == 225.2
  /\ tryDrop exLog2 exSqrt exRandom 2000 exOneDisc
     = dropAt exRandom 2000 x2 (spawnY exLog2 desktop) 2 exOneDisc
  /\ exists C,
       JsMap.get 5 (State.circles (state (tryDrop exLog2 exSqrt exRandom 2000 exOneDisc)))
       = Some C
       /\ Body.position (CircleData.body C) = Vector.mk x2 (spawnY exLog2 desktop)
       /\ CircleData.value C = 2%Z.
Proof.
  intro x2.
  assert (Cool : cfg.dropCooldownMs <= 2000 - State.lastDropTs (state exOneDisc))
    by (vm_compute; discriminate).
  assert (Taken : isSpawnFree exLog2 exSqrt (State.previewX (state exOneDisc))
                    (spawnY exLog2 (board exOneDisc))
                    (State.nextValue (state exOneDisc)) exOneDisc = false)
    by (vm_compute; reflexivity).
  assert (Run : State.running (state exOneDisc) = true)
    by (vm_compute; reflexivity).
  assert (End : State.ended (state exOneDisc) = false)
    by (vm_compute; reflexivity).
  assert (Pause : State.paused (state exOneDisc) = false)
    by (vm_compute; reflexivity).
  pose proof (tryDrop_first_free exLog2 exSqrt exRandom 2000 exOneDisc
                Run End Pause Cool Taken) as T.
  cbv zeta in T.
  assert (F : firstFree exLog2 exSqrt exOneDisc (spawnY exLog2 (board exOneDisc))
                (State.nextValue (state exOneDisc))
                (searchOrder (State.previewX (state exOneDisc))
                   (getRadiusForValue exLog2 (board exOneDisc)
                      (State.nextValue (state exOneDisc)) * 1.1))
              = Some x2) by (vm_compute; reflexivity).
  rewrite F in T. destruct T as [T1 T2].
  split; [vm_compute; reflexivity |]. split.
  - exact T1.
  - apply T2. vm_compute. lia.
Defined.

(** ** The danger line *)



Lemma gtb_negb_leb (a b : Q) : (a >? b) = negb (a <=? b).
Proof. reflexivity. Qed.

Section Danger.

Variable log2 : Q -> Q.

Lemma radius_at_least_12 (b : Board) (value : Z) :
  12 <= getRadiusForValue log2 b value.
Proof.
  unfold getRadiusForValue.
  eapply Qle_trans; [| apply NumFacts.max_ge_l].
  apply NumFacts.max_ge_l.
Qed.

(** *** Discs within their grace period *)




Lemma emergency_from (now : Q) (b : Board) (discs : list CircleData.t) (n : nat) :
  fold_left
    (fun count data =>
       if (now - CircleData.bornAt data >? cfg.gracePeriodMs)
          && (Vector.y (Body.position (CircleData.body data)) <? dangerLineY b + 30)
       then S count else count) discs n
  = (n + emergencyCount now b discs)%nat.
Proof.
  unfold emergencyCount. revert n.
  induction discs as [| d rest IH]; intro n; cbn [fold_left]; [lia |].
  destruct (_ && _).
  - rewrite (IH (S n)), (IH 1%nat). lia.
  - rewrite (IH n), (IH 0%nat). lia.
Qed.

Lemma emergencyCount_cons (now : Q) (b : Board) (d : CircleData.t)
    (rest : list CircleData.t) :
  emergencyCount now b (d :: rest)
  = Nat.add
      (if negb (young now d)
          && (Vector.y (Body.position (CircleData.body d)) <? dangerLineY b + 30)
       then 1%nat else 0%nat)
      (emergencyCount now b rest).
Proof.
  unfold emergencyCount at 1. cbn [fold_left]. rewrite emergency_from.
  unfold young. rewrite gtb_negb_leb. reflexivity.
Qed.






(** *** The fast path *)

Lemma highest_fold (b : Board) (f : Q -> CircleData.t -> Q) :
  (forall highest data,
      f highest data
      = if topOf log2 b data <? highest then topOf log2 b data else highest) ->
  forall (discs : list CircleData.t) (h0 : Q),
    In (fold_left f discs h0) (h0 :: map (topOf log2 b) discs)
    /\ fold_left f discs h0 <= h0
    /\ forall t, In t (map (topOf log2 b) discs) -> fold_left f discs h0 <= t.
Proof.
  intros Step discs. induction discs as [| d rest IH]; intro h0.
  - cbn. split; [now left |]. split; [lra | tauto].
  - cbn [fold_left map]. rewrite Step.
    destruct (topOf log2 b d <? h0) eqn:C.
    + apply NumFacts.ltb_lt in C.
      destruct (IH (topOf log2 b d)) as (Hin & Hle & Hall).
      split; [right; exact Hin |]. split; [lra |].
      intros t [<- | Ht]; [exact Hle | apply Hall, Ht].
    + apply NumFacts.ltb_ge in C.
      destruct (IH h0) as (Hin & Hle & Hall).
      split; [destruct Hin as [Hin | Hin]; [now left | right; right; exact Hin] |].
      split; [exact Hle |].
      intros t [<- | Ht]; [lra | apply Hall, Ht].
Qed.

Lemma updateHighestCircle_minimum (g : Game) :
  isMinimum (State.highestCircleTop (state (updateHighestCircle log2 g)))
    (boardH g :: discTops log2 g).
Proof.
  unfold isMinimum, discTops, updateHighestCircle.
  cbn [state upd with_state State.highestCircleTop State.with_highestCircleTop].
  match goal with
  | |- In (fold_left ?f _ _) _ /\ _ =>
      destruct (highest_fold (board g) f (fun _ _ => eq_refl)
                  (JsMap.values (State.circles (state g))) (boardH g))
        as (Hin & Hle & Hall)
  end.
  split; [exact Hin |].
  intros t [<- | Ht]; [exact Hle | apply Hall, Ht].
Qed.

Lemma no_crossing_below (now : Q) (b : Board) (discs : list CircleData.t) :
  (forall d, In d discs -> dangerLineY b < topOf log2 b d) ->
  dangerCrossed log2 now b discs = false.
Proof.
  intro Below. induction discs as [| d rest IH]; [reflexivity |].
  cbn [dangerCrossed].
  assert (Hd : dangerLineY b < topOf log2 b d) by (apply Below; now left).
  assert (Hr : dangerCrossed log2 now b rest = false)
    by (apply IH; intros d' H; apply Below; now right).
  unfold topOf in Hd.
  pose proof (radius_at_least_12 b (CircleData.value d)) as R.
  destruct (_ <=? _); [exact Hr |].
  assert (T : (Vector.y (Body.position (CircleData.body d))
               - getRadiusForValue log2 b (CircleData.value d)
               <? dangerLineY b) = false)
    by (apply NumFacts.ltb_ge; lra).
  assert (Y : (Vector.y (Body.position (CircleData.body d)) <? dangerLineY b)
              = false)
    by (apply NumFacts.ltb_ge; lra).
  rewrite T, Y. exact Hr.
Qed.

Lemma no_emergency_below (now : Q) (b : Board) (discs : list CircleData.t) :
  (forall d, In d discs -> dangerLineY b < topOf log2 b d) ->
  (forall d, In d discs -> 30 <= getRadiusForValue log2 b (CircleData.value d)) ->
  emergencyCount now b discs = O.
Proof.
  intros Below Wide. induction discs as [| d rest IH]; [reflexivity |].
  rewrite emergencyCount_cons.
  assert (Hd : dangerLineY b < topOf log2 b d) by (apply Below; now left).
  assert (Wd : 30 <= getRadiusForValue log2 b (CircleData.value d))
    by (apply Wide; now left).
  unfold topOf in Hd.
  assert (Y : (Vector.y (Body.position (CircleData.body d)) <? dangerLineY b + 30)
              = false)
    by (apply NumFacts.ltb_ge; lra).
  rewrite Y, andb_false_r. cbn [Nat.add].
  apply IH; intros d' H; [apply Below | apply Wide]; now right.
Qed.

Lemma tops_below (g : Game) :
  dangerLineY (board g) < State.highestCircleTop (state (updateHighestCircle log2 g)) ->
  forall d, In d (JsMap.values (State.circles (state g))) ->
            dangerLineY (board g) < topOf log2 (board g) d.
Proof.
  intros High d Hd.
  destruct (updateHighestCircle_minimum g) as [_ Least].
  assert (L : State.highestCircleTop (state (updateHighestCircle log2 g))
              <= topOf log2 (board g) d).
  { apply Least. right. unfold discTops. now apply in_map. }
  lra.
Qed.

(** Where the fast path is sound. After [updateHighestCircle] the stored
    [highestCircleTop] is the least of [boardH] and the tops of the discs.
    When it is below the danger line (numerically greater than
    [dangerLineY]) no disc has its top or centre above the line, so the scan
    for a crossing that the fast path skips would not end the session; and
    when moreover every disc has a radius of at least 30 the emergency count
    is zero, and the full scan leaves the game exactly as the early return
    does. *)
Lemma fast_path_sound_for_wide_discs (now : Q) (g : Game) :
  let g1 := updateHighestCircle log2 g in
  isMinimum (State.highestCircleTop (state g1)) (boardH g :: discTops log2 g)
  /\ (dangerLineY (board g) < State.highestCircleTop (state g1) ->
      checkDangerLine log2 now g1 = g1
      /\ dangerCrossed log2 now (board g1)
           (JsMap.values (State.circles (state g1))) = false
      /\ ((forall d, In d (JsMap.values (State.circles (state g))) ->
                     30 <= getRadiusForValue log2 (board g) (CircleData.value d)) ->
          dangerScan log2 now g1 = checkDangerLine log2 now g1)).
Proof.
  cbn zeta. split; [apply updateHighestCircle_minimum |].
  intro High.
  assert (Fast : checkDangerLine log2 now (updateHighestCircle log2 g)
                 = updateHighestCircle log2 g).
  { unfold checkDangerLine.
    change (board (updateHighestCircle log2 g)) with (board g).
    apply NumFacts.gtb_gt in High. now rewrite High. }
  assert (Cross : dangerCrossed log2 now (board g)
                    (JsMap.values (State.circles (state g))) = false)
    by (apply no_crossing_below, tops_below, High).
  split; [exact Fast |]. split; [exact Cross |].
  intro Wide. rewrite Fast. unfold dangerScan.
  change (board (updateHighestCircle log2 g)) with (board g).
  change (State.circles (state (updateHighestCircle log2 g)))
    with (State.circles (state g)).
  rewrite Cross.
  rewrite (no_emergency_below now (board g) _ (tops_below g High) Wide).
  destruct (Nat.ltb 12 _); reflexivity.
Qed.

(** On the desktop board a disc of value 2 or more has a radius of at least
    34: the fast path and the full scan agree there. *)
Lemma desktop_radius (b : Board) (value : Z) :
  isMobile b = false ->
  0 <= log2 (inject_Z value / 2) ->
  34 <= getRadiusForValue log2 b value.
Proof.
  intros Desk Log. unfold getRadiusForValue, radius. rewrite Desk.
  eapply Qle_trans; [| apply NumFacts.max_ge_r].
  unfold Num.min. apply Q.min_glb.
  - eapply Qle_trans; [| apply NumFacts.max_ge_r]. lra.
  - lra.
Qed.

End Danger.


(** C8. On the narrow phone board the fast path is not a pure optimization.
    At time 10000 the thirteen discs of [exStack] are past their grace
    period; [highestCircleTop], just recomputed, is 123.6, the least of the
    tops, below the line at 120, and [checkDangerLine] returns at once,
    leaving the session running. The scan that it skips finds no disc across
    the line but counts seven centres less than 30 below it, and ends the
    session with the reason "Too many circles stacked.". *)
Theorem fast_path_skips_emergency_check :
  dangerLineY (board exStack) < State.highestCircleTop (state exStack)
  /\ State.highestCircleTop (state exStack) == 123.6
  /\ dangerCrossed exLog2 10000 (board exStack)
       (JsMap.values (State.circles (state exStack))) = false
  /\ JsMap.size (State.circles (state exStack)) = 13%nat
  /\ emergencyCount 10000 (board exStack)
       (JsMap.values (State.circles (state exStack))) = 7%nat
  /\ checkDangerLine exLog2 10000 exStack = exStack
  /\ State.ended (state exStack) = false
  /\ State.ended (state (dangerScan exLog2 10000 exStack)) = true
  /\ State.endReason (state (dangerScan exLog2 10000 exStack))
     = "Too many circles stacked."%string
  /\ dangerScan exLog2 10000 exStack <> checkDangerLine exLog2 10000 exStack.
Proof.
  assert (E : State.ended (state (dangerScan exLog2 10000 exStack)) = true)
    by (vm_compute; reflexivity).
  assert (F : checkDangerLine exLog2 10000 exStack = exStack)
    by (vm_compute; reflexivity).
  repeat split; try (vm_compute; reflexivity).
  rewrite F. intro H. rewrite H in E.
  assert (N : State.ended (state exStack) = false) by (vm_compute; reflexivity).
  congruence.
Qed.

(** On the desktop board, with thirteen discs at rest at the bottom and the
    highest top at 673, nothing is near the line, and the scan agrees
    with the early return. *)
Lemma fast_path_sound_on_floor :
  let g1 := updateHighestCircle exLog2 exFloor in
  State.highestCircleTop (state g1) == 673
  /\ checkDangerLine exLog2 10000 g1 = g1
  /\ dangerScan exLog2 10000 g1 = checkDangerLine exLog2 10000 g1.
Proof.
  intro g1.
  assert (High : dangerLineY (board exFloor)
                 < State.highestCircleTop (state (updateHighestCircle exLog2 exFloor)))
    by (vm_compute; reflexivity).
  destruct (proj2 (fast_path_sound_for_wide_discs exLog2 10000 exFloor) High)
    as (Fast & _ & Scan).
  split; [vm_compute; reflexivity |]. split; [exact Fast |].
  apply Scan.
  assert (All : forallb (fun d => 0 <=? exLog2 (inject_Z (CircleData.value d) / 2))
                  (JsMap.values (State.circles (state exFloor))) = true)
    by (vm_compute; reflexivity).
  assert (Desk : isMobile (board exFloor) = false) by (vm_compute; reflexivity).
  intros d H.
  apply (Qle_trans _ 34); [lra |].
  apply (desktop_radius exLog2 (board exFloor) (CircleData.value d) Desk).
  apply NumFacts.leb_le.
  exact (proj1 (forallb_forall _ _) All d H).
Defined.

(** ** What each piece of the game changes *)

Lemma with_randomCalls_same (g : Game) : with_randomCalls (randomCalls g) g = g.
Proof. now destruct g. Qed.

Section Frames.

Variable log2 : Q -> Q.
Variable sqrt : Q -> Q.
Variable cos : Q -> Q.
Variable sin : Q -> Q.
Variable PI : Q.
Variable random : nat -> Q.

(** The explosion of a merge touches the particle pool and draws random
    numbers, nothing else. *)
Lemma explosionLoop_frame (now x y : Q) (c1 c2 : Z) (m : Q) (n : Z)
    (indices : list nat) (g : Game) :
  exists p k,
    explosionLoop cos sin PI random now x y c1 c2 m n indices g
    = with_randomCalls k (with_particlePool p g).
Proof.
  revert g. induction indices as [| i rest IH]; intro g; cbn [explosionLoop].
  - exists (particlePool g), (randomCalls g). now destruct g.
  - destruct (ParticlePool.acquire (particlePool g)) as [particleIndex p1].
    destruct (particleIndex =? -1)%Z.
    + exists p1, (randomCalls g). now destruct g.
    + cbn [rand fst snd].
      match goal with
      | |- exists p k, explosionLoop _ _ _ _ _ _ _ _ _ _ _ _ ?h = _ =>
          destruct (IH h) as (p & k & E)
      end.
      exists p, k. rewrite E. reflexivity.
Qed.

Lemma createMergeExplosion_frame (now x y : Q) (c1 c2 v : Z) (g : Game) :
  exists p k,
    createMergeExplosion log2 cos sin PI random now x y c1 c2 v g
    = with_randomCalls k (with_particlePool p g).
Proof.
  unfold createMergeExplosion. cbn [rand].
  match goal with
  | |- exists p k, explosionLoop _ _ _ _ _ _ _ _ _ _ _ _ ?h = _ =>
      destruct (explosionLoop_frame now x y c1 c2
                  (getRadiusForValue log2 (board h) v / radius (board h))
                  (8 + Num.floor (random (randomCalls g) * 4))%Z
                  (seq 0 (Z.to_nat (8 + Num.floor (random (randomCalls g) * 4))))
                  h) as (p & k & E)
  end.
  exists p, k. rewrite E. reflexivity.
Qed.

Lemma performMerge_fields (now : Q) (A B : CircleData.t) (x y : Q) (g : Game) :
  let g' := performMerge log2 cos sin PI random now A B x y g in
  State.circles (state g') = State.circles (state g)
  /\ State.score (state g')
     = (State.score (state g) + 2 * CircleData.value A * cfg.scoreMul)%Z
  /\ timers g' = timers g ++ [completionOf now (A, B, (x, y))]
  /\ State.mergingCircles (state g')
     = JsSet.add (Body.id (CircleData.body B))
         (JsSet.add (Body.id (CircleData.body A)) (State.mergingCircles (state g)))
  /\ State.mergeQueue (state g') = State.mergeQueue (state g)
  /\ engine g' = engine g
  /\ board g' = board g
  /\ State.ended (state g') = State.ended (state g)
  /\ State.running (state g') = State.running (state g)
  /\ State.paused (state g') = State.paused (state g)
  /\ State.nextValue (state g') = State.nextValue (state g)
  /\ State.endReason (state g') = State.endReason (state g).
Proof.
  cbn zeta. unfold performMerge.
  match goal with
  | |- context [createMergeExplosion _ _ _ _ _ ?n ?a ?b ?c ?d ?v ?h] =>
      destruct (createMergeExplosion_frame n a b c d v h) as (p & k & E);
      rewrite E
  end.
  cbn [state upd with_state with_randomCalls with_particlePool State.score
       State.with_score State.with_animations State.with_mergingCircles
       State.best State.previewX State.nextValue State.running State.paused
       State.lastDropTs State.ended State.endReason State.circles
       State.nextLocalId State.mergingCircles State.animations
       State.mergeQueue State.highestCircleTop State.previewUpdateTime
       store particlePool engine board timers lastBestSave savedBest
       lastParticleUpdate targetFPS showModal toasts randomCalls].
  replace (CircleData.value A * 2)%Z with (2 * CircleData.value A)%Z by lia.
  destruct (_ <? _)%Z; [destruct (_ >? _) |]; cbn; repeat split.
Qed.

End Frames.

(** ** Merge resolution *)

Lemma mergedValues_app (l1 l2 : list Timer) :
  mergedValues (l1 ++ l2) = (mergedValues l1 + mergedValues l2)%Z.
Proof.
  induction l1 as [| t r IH]; [reflexivity |].
  destruct t; cbn [app mergedValues]; rewrite IH; lia.
Qed.

Section Merges.

Variable log2 : Q -> Q.
Variable sqrt : Q -> Q.
Variable cos : Q -> Q.
Variable sin : Q -> Q.
Variable PI : Q.
Variable random : nat -> Q.

#[local] Abbreviation drain := (drainQueue log2 cos sin PI random).

Lemma drainQueue_resolves (now : Q) (queue : list MergeRequest.t) (g : Game) :
  equalValues (State.circles (state g)) queue ->
  exists resolved : list (CircleData.t * CircleData.t * (Q * Q)),
    timers (drain now queue g) = timers g ++ map (completionOf now) resolved
    /\ (forall A B xy, In (A, B, xy) resolved ->
          In A (JsMap.values (State.circles (state g)))
          /\ In B (JsMap.values (State.circles (state g)))
          /\ CircleData.value A = CircleData.value B)
    /\ State.score (state (drain now queue g))
       = (State.score (state g)
          + mergedValues (map (completionOf now) resolved) * cfg.scoreMul)%Z
    /\ State.circles (state (drain now queue g)) = State.circles (state g)
    /\ engine (drain now queue g) = engine g
    /\ (queue <> [] -> State.mergeQueue (state (drain now queue g)) = []).
Proof.
  revert g. induction queue as [| r rest IH]; intros g Eq.
  - exists []. cbn. rewrite app_nil_r. repeat split; try tauto; lia.
  - assert (EqRest : equalValues (State.circles (state g)) rest)
      by (intros r' A B H; apply (Eq r' A B); now right).
    cbn [drainQueue].
    change (State.circles (state (upd (State.with_mergeQueue rest) g)))
      with (State.circles (state g)).
    change (State.mergingCircles (state (upd (State.with_mergeQueue rest) g)))
      with (State.mergingCircles (state g)).
    destruct (JsMap.get (MergeRequest.bodyAId r) (State.circles (state g)))
      as [A |] eqn:GA;
      [destruct (JsMap.get (MergeRequest.bodyBId r) (State.circles (state g)))
         as [B |] eqn:GB;
       [destruct (JsSet.has (Body.id (CircleData.body A)) _
                  || JsSet.has (Body.id (CircleData.body B)) _) eqn:M |] |].
    all: try solve
      [ destruct (IH (upd (State.with_mergeQueue rest) g) EqRest)
          as (resolved & Ht & Hin & Hs & Hc & He & Hq);
        exists resolved;
        split; [exact Ht |]; split; [exact Hin |]; split; [exact Hs |];
        split; [exact Hc |]; split; [exact He |];
        intros _; destruct rest; [reflexivity | apply Hq; discriminate] ].
    pose proof (performMerge_fields log2 cos sin PI random now A B
                  (MergeRequest.x r) (MergeRequest.y r)
                  (upd (State.with_mergeQueue rest) g)) as P.
    cbn zeta in P.
    destruct P as (Pc & Ps & Pt & _ & Pq & Pe & _).
    set (g2 := performMerge log2 cos sin PI random now A B (MergeRequest.x r)
                 (MergeRequest.y r) (upd (State.with_mergeQueue rest) g)) in *.
    change (State.circles (state (upd (State.with_mergeQueue rest) g)))
      with (State.circles (state g)) in Pc.
    assert (Eq2 : equalValues (State.circles (state g2)) rest)
      by (rewrite Pc; exact EqRest).
    destruct (IH g2 Eq2) as (resolved & Ht & Hin & Hs & Hc & He & Hq).
    exists ((A, B, (MergeRequest.x r, MergeRequest.y r)) :: resolved).
    split; [| split; [| split; [| split; [| split]]]].
    + rewrite Ht, Pt. cbn [map timers upd with_state]. now rewrite <- app_assoc.
    + intros A' B' xy [H | H].
      * injection H as <- <- <-.
        split; [eapply JsMapFacts.get_some_in, GA |].
        split; [eapply JsMapFacts.get_some_in, GB |].
        apply (Eq r A B); [now left | exact GA | exact GB].
      * rewrite <- Pc. apply (Hin A' B' xy), H.
    + rewrite Hs, Ps. cbn [map mergedValues completionOf State.score state upd
                             with_state State.with_mergeQueue]. lia.
    + now rewrite Hc.
    + rewrite He, Pe. reflexivity.
    + intros _. destruct rest as [| r' rest'].
      * cbn [drainQueue]. rewrite Pq. reflexivity.
      * apply Hq. discriminate.
Qed.

Lemma removeCircle_score (k : nat) (g : Game) :
  State.score (state (removeCircle k g)) = State.score (state g).
Proof.
  unfold removeCircle. now destruct (JsMap.get k (State.circles (state g))).
Qed.

Lemma removeCircle_engine_next (k : nat) (g : Game) :
  Engine.nextBodyId (engine (removeCircle k g)) = Engine.nextBodyId (engine g).
Proof.
  unfold removeCircle. now destruct (JsMap.get k (State.circles (state g))).
Qed.

Lemma collisionStart_equalValues (now : Q) (ps : list (Body.t * Body.t))
    (g : Game) :
  State.mergeQueue (state g) = [] ->
  equalValues (State.circles (state g))
    (State.mergeQueue (state (collisionStart sqrt now ps g))).
Proof.
  intro Empty.
  rewrite (collisionStart_queue sqrt now ps g).
  cbn [state upd with_state State.mergeQueue State.with_mergeQueue].
  rewrite Empty. cbn [app].
  intros r A B Hr GA GB.
  apply in_map_iff in Hr. destruct Hr as ([bodyA bodyB] & <- & Hp).
  apply filter_In in Hp. destruct Hp as [_ Hp].
  apply mergeEligibleb_iff in Hp.
  destruct Hp as (_ & _ & A0 & B0 & GA0 & GB0 & V & _).
  cbn [requestFor MergeRequest.bodyAId MergeRequest.bodyBId fst snd] in GA, GB.
  congruence.
Qed.

Lemma mergeCompletion_spawns (now : Q) (a b : nat) (x y : Q) (v : Z) (h : Game) :
  (JsMap.size (State.circles (state (removeCircle b (removeCircle a h))))
   < cfg.maxCircles)%nat ->
  exists C,
    JsMap.get (Engine.nextBodyId (engine h))
      (State.circles (state (mergeCompletion now a b x y v h))) = Some C
    /\ CircleData.value C = v
    /\ Vector.x (Body.position (CircleData.body C)) = x
    /\ Vector.y (Body.position (CircleData.body C)) = y.
Proof.
  intro Room. unfold mergeCompletion.
  set (g3 := upd _ (removeCircle b (removeCircle a h))).
  assert (Room3 : (JsMap.size (State.circles (state g3)) < cfg.maxCircles)%nat)
    by exact Room.
  assert (Next : Engine.nextBodyId (engine g3) = Engine.nextBodyId (engine h)).
  { unfold g3. cbn [engine upd with_state].
    now rewrite !removeCircle_engine_next. }
  pose proof (createCircle_room now x y v g3 Room3) as (Hd & _).
  destruct (createCircle now x y v g3) as [[C |] g4] eqn:E;
    cbn [fst] in Hd; [| discriminate].
  injection Hd as ->.
  cbn [Body.id Body.circle CircleData.body state upd with_state State.circles
       State.with_circles State.with_animations].
  rewrite <- Next, JsMapFacts.get_set_same.
  eexists. split; [reflexivity |]. cbn. repeat split.
Qed.

Lemma mergeCompletion_score (now : Q) (a b : nat) (x y : Q) (v : Z) (h : Game) :
  State.score (state (mergeCompletion now a b x y v h)) = State.score (state h).
Proof.
  unfold mergeCompletion.
  set (g3 := upd _ (removeCircle b (removeCircle a h))).
  assert (S3 : State.score (state g3) = State.score (state h))
    by (unfold g3; cbn [state upd with_state State.score State.with_mergingCircles];
        now rewrite !removeCircle_score).
  unfold createCircle.
  destruct (Nat.leb cfg.maxCircles _); cbn; exact S3.
Qed.

(** C4. In one fixed step, the merges that are resolved are those for which
    a merge completion is scheduled: each one is of two discs [A] and [B] of
    the table with [A.value = B.value], the completion holds the value
    [2 * A.value] (which is [2 * B.value]), and the score grows by the sum
    of these values times [scoreMul], each counted once. When a completion
    runs it changes no score, and unless the table is full the disc it
    creates has the value that the completion holds. *)
Theorem merge_doubles_and_scores (now : Q) (ps : list (Body.t * Body.t))
    (g : Game) :
  State.mergeQueue (state g) = [] ->
  let g' := processMergeQueue log2 cos sin PI random now
              (collisionStart sqrt now ps g) in
  (exists resolved : list (CircleData.t * CircleData.t * (Q * Q)),
      timers g' = timers g ++ map (completionOf now) resolved
      /\ (forall A B xy, In (A, B, xy) resolved ->
            In A (JsMap.values (State.circles (state g)))
            /\ In B (JsMap.values (State.circles (state g)))
            /\ CircleData.value A = CircleData.value B
            /\ completionOf now (A, B, xy)
               = MergeCompletion (now + 300) (Body.id (CircleData.body A))
                   (Body.id (CircleData.body B)) (fst xy) (snd xy)
                   (2 * CircleData.value B))
      /\ State.score (state g')
         = (State.score (state g)
            + mergedValues (map (completionOf now) resolved) * cfg.scoreMul)%Z)
  /\ (forall now' due a b x y v h,
        State.score (state (runTimer now' (MergeCompletion due a b x y v) h))
        = State.score (state h)
        /\ ((JsMap.size (State.circles (state (removeCircle b (removeCircle a h))))
             < cfg.maxCircles)%nat ->
            exists C,
              JsMap.get (Engine.nextBodyId (engine h))
                (State.circles
                   (state (runTimer now' (MergeCompletion due a b x y v) h)))
              = Some C
              /\ CircleData.value C = v)).
Proof.
  intros Empty g'. split.
  - unfold g', processMergeQueue.
    set (g1 := collisionStart sqrt now ps g).
    assert (C1 : State.circles (state g1) = State.circles (state g))
      by (unfold g1; now rewrite (collisionStart_queue sqrt now ps g)).
    assert (T1 : timers g1 = timers g)
      by (unfold g1; now rewrite (collisionStart_queue sqrt now ps g)).
    assert (S1 : State.score (state g1) = State.score (state g))
      by (unfold g1; now rewrite (collisionStart_queue sqrt now ps g)).
    assert (Eq : equalValues (State.circles (state g1)) (State.mergeQueue (state g1)))
      by (rewrite C1; apply collisionStart_equalValues, Empty).
    destruct (drainQueue_resolves now (State.mergeQueue (state g1)) g1 Eq)
      as (resolved & Ht & Hin & Hs & _).
    exists resolved. split; [| split].
    + rewrite Ht, T1. reflexivity.
    + intros A B [x y] H. destruct (Hin A B (x, y) H) as (HA & HB & V).
      rewrite <- C1. repeat split; try assumption.
      cbn [completionOf fst snd]. now rewrite V.
    + rewrite Hs, S1. reflexivity.
  - intros now' due a b x y v h. cbn [runTimer]. split.
    + apply mergeCompletion_score.
    + intro Room.
      destruct (mergeCompletion_spawns now' a b x y v h Room) as (C & HC & HV & _).
      exists C. split; assumption.
Qed.

End Merges.

(** ** The number of discs *)

Lemma createCircle_bounded (now x y : Q) (value : Z) (g : Game) :
  bounded g -> bounded (snd (createCircle now x y value g)).
Proof.
  unfold bounded. intro B.
  destruct (Nat.le_gt_cases cfg.maxCircles (JsMap.size (State.circles (state g))))
    as [Full | Room].
  - rewrite (createCircle_full now x y value g Full). exact B.
  - destruct (createCircle_room now x y value g Room) as (_ & Hc & _).
    rewrite Hc.
    pose proof (JsMapFacts.size_set_le (Engine.nextBodyId (engine g))
                  (CircleData.mk (Body.circle (Engine.nextBodyId (engine g)) x y)
                     value now (State.nextLocalId (state g)))
                  (State.circles (state g))).
    lia.
Qed.

Lemma removeCircle_size (k : nat) (g : Game) :
  (JsMap.size (State.circles (state (removeCircle k g)))
   <= JsMap.size (State.circles (state g)))%nat.
Proof.
  unfold removeCircle.
  destruct (JsMap.get k (State.circles (state g))); cbn; [| lia].
  apply JsMapFacts.size_delete_le.
Qed.

Lemma mergeCompletion_bounded (now : Q) (a b : nat) (x y : Q) (v : Z) (g : Game) :
  bounded g -> bounded (mergeCompletion now a b x y v g).
Proof.
  intro B. unfold mergeCompletion.
  set (g3 := upd _ (removeCircle b (removeCircle a g))).
  assert (B3 : bounded g3).
  { unfold bounded, g3 in *. cbn [state upd with_state State.circles
      State.with_mergingCircles].
    pose proof (removeCircle_size b (removeCircle a g)).
    pose proof (removeCircle_size a g). lia. }
  pose proof (createCircle_bounded now x y v g3 B3) as B4.
  destruct (createCircle now x y v g3) as [[C |] g4] eqn:E; cbn [snd] in B4;
    [| exact B4].
  assert (In4 : JsMap.get (Body.id (CircleData.body C)) (State.circles (state g4))
                = Some C).
  { unfold createCircle in E.
    destruct (Nat.leb cfg.maxCircles _); [discriminate |].
    cbn in E. injection E as <- <-. cbn.
    apply JsMapFacts.get_set_same. }
  unfold bounded in *.
  cbn [state upd with_state State.circles State.with_circles
       State.with_animations].
  now rewrite (JsMapFacts.size_set_present _ _ C).
Qed.

Lemma endGame_circles (now : Q) (reason : string) (g : Game) :
  State.circles (state (endGame now reason g)) = State.circles (state g).
Proof. unfold endGame. now destruct (State.ended (state g)). Qed.

Lemma restart_timers (random : nat -> Q) (now : Q) (g : Game) :
  timers (restart random now g) = timers g ++ [TimeScaleResume (now + 30)].
Proof.
  unfold restart.
  set (f := fun (h : Game) (data : CircleData.t) =>
              with_engine (Engine.remove (Body.id (CircleData.body data)) (engine h)) h).
  assert (T : forall l h, timers (fold_left f l h) = timers h).
  { induction l as [| d l IH]; intro h; [reflexivity |].
    cbn [fold_left]. now rewrite IH. }
  set (g2 := fold_left f _ _).
  assert (T2 : timers g2 = timers g) by (unfold g2; now rewrite T).
  cbn. now rewrite T2.
Qed.

Lemma restart_circles (random : nat -> Q) (now : Q) (g : Game) :
  State.circles (state (restart random now g)) = [].
Proof. reflexivity. Qed.

Section Count.

Variable log2 : Q -> Q.
Variable sqrt : Q -> Q.
Variable cos : Q -> Q.
Variable sin : Q -> Q.
Variable PI : Q.
Variable random : nat -> Q.

Lemma dropAt_bounded (now x y : Q) (value : Z) (g : Game) :
  bounded g -> bounded (dropAt random now x y value g).
Proof.
  intro B. unfold bounded. rewrite dropAt_circles.
  apply createCircle_bounded, B.
Qed.

Lemma tryDrop_bounded (now : Q) (g : Game) :
  bounded g -> bounded (tryDrop log2 sqrt random now g).
Proof.
  intro B. unfold tryDrop.
  destruct (_ || _); [exact B |].
  destruct (_ <? _); [exact B |].
  destruct (negb _); [| apply dropAt_bounded, B].
  destruct (offsetSearch _ _ _ _ _ _ _ _ _); [apply dropAt_bounded, B |].
  destruct (zigzagSearch _ _ _ _ _ _ _ _); [apply dropAt_bounded, B |].
  unfold bounded. now rewrite endGame_circles.
Qed.

Lemma drainQueue_circles (now : Q) (queue : list MergeRequest.t) (g : Game) :
  State.circles (state (drainQueue log2 cos sin PI random now queue g))
  = State.circles (state g).
Proof.
  revert g. induction queue as [| r rest IH]; intro g; [reflexivity |].
  cbn [drainQueue]. rewrite IH.
  destruct (JsMap.get _ _) as [A |]; [| reflexivity].
  destruct (JsMap.get _ _) as [B |]; [| reflexivity].
  destruct (_ || _); [reflexivity |].
  now rewrite (proj1 (performMerge_fields log2 cos sin PI random now A B _ _ _)).
Qed.

Lemma checkDangerLine_circles (now : Q) (g : Game) :
  State.circles (state (checkDangerLine log2 now g)) = State.circles (state g).
Proof.
  unfold checkDangerLine, dangerScan.
  destruct (_ >? _); [reflexivity |].
  destruct (dangerCrossed _ _ _ _); [apply endGame_circles |].
  destruct (Nat.ltb 12 _); [| reflexivity].
  destruct (Nat.ltb 6 _); [apply endGame_circles | reflexivity].
Qed.

Lemma tick_size (now : Q) (ph : Physics) (g : Game) :
  JsMap.size (State.circles (state (tick log2 sqrt cos sin PI random now ph g)))
  = JsMap.size (State.circles (state g)).
Proof.
  unfold tick. destruct (_ && _); [| reflexivity].
  rewrite checkDangerLine_circles.
  change (State.circles (state (updateHighestCircle log2 ?h)))
    with (State.circles (state h)).
  unfold processMergeQueue. rewrite drainQueue_circles.
  unfold engineUpdate.
  rewrite (collisionStart_queue sqrt now _ _).
  cbn [state upd with_state State.circles State.with_circles State.with_mergeQueue].
  apply length_map.
Qed.

Lemma animateOne_size (now : Q) (acc : Game * list nat)
    (binding : nat * Animation.t) :
  JsMap.size (State.circles (state (fst (animateOne now acc binding))))
  = JsMap.size (State.circles (state (fst acc))).
Proof.
  destruct acc as [g toDelete], binding as [bodyId anim].
  unfold animateOne. destruct (_ >=? _); [reflexivity |].
  destruct (Animation.type anim); [| reflexivity].
  destruct (JsMap.get bodyId (State.circles (state g))) as [data |] eqn:G;
    [| reflexivity].
  destruct (Animation.targetX anim), (Animation.targetY anim),
    (Animation.startX anim), (Animation.startY anim); try reflexivity.
  cbn [fst state upd with_state State.circles State.with_circles].
  now rewrite (JsMapFacts.size_set_present _ _ data).
Qed.

Lemma updateAnimations_size (now : Q) (g : Game) :
  JsMap.size (State.circles (state (updateAnimations now g)))
  = JsMap.size (State.circles (state g)).
Proof.
  unfold updateAnimations.
  assert (F : forall l acc,
             JsMap.size (State.circles (state (fst (fold_left (animateOne now) l acc))))
             = JsMap.size (State.circles (state (fst acc)))).
  { induction l as [| a l IH]; intro acc; [reflexivity |].
    cbn [fold_left]. rewrite IH. apply animateOne_size. }
  specialize (F (State.animations (state g)) (g, [])).
  destruct (fold_left _ _ _) as [g1 toDelete]. exact F.
Qed.

Lemma updateParticles_circles (now : Q) (g : Game) :
  State.circles (state (updateParticles now g)) = State.circles (state g).
Proof.
  unfold updateParticles. destruct (_ <? _); [reflexivity |].
  now destruct (fold_left _ _ _).
Qed.

Lemma fireTimer_bounded (now : Q) (n : nat) (g : Game) :
  bounded g -> bounded (fireTimer now n g).
Proof.
  intro B. unfold fireTimer.
  destruct (nth_error (timers g) n) as [t |]; [| exact B].
  destruct (_ <=? _); [| exact B].
  destruct t; cbn [runTimer]; [| exact B].
  apply mergeCompletion_bounded. exact B.
Qed.

Lemma step_bounded (g : Game) (op : Op) :
  bounded g -> bounded (step log2 sqrt cos sin PI random g op).
Proof.
  intro B. destruct op; cbn [step].
  - unfold bounded. rewrite restart_circles. cbn. lia.
  - apply tryDrop_bounded, B.
  - unfold bounded. rewrite tick_size. exact B.
  - unfold bounded, frame.
    rewrite updateAnimations_size, updateParticles_circles. exact B.
  - apply fireTimer_bounded, B.
  - unfold bounded, togglePause. now destruct (State.ended (state g)).
  - unfold bounded, updatePreview. now destruct (_ <? _).
  - exact B.
Qed.

Lemma run_bounded (ops : list Op) (g : Game) :
  bounded g -> bounded (run log2 sqrt cos sin PI random ops g).
Proof.
  unfold run. revert g. induction ops as [| op ops IH]; intros g B; [exact B |].
  cbn [fold_left]. apply IH, step_bounded, B.
Qed.

(** C5. The table never holds more than [maxCircles] discs: not after any
    run of the game from its start, whatever the drops, fixed steps, frames,
    timers, pauses and restarts of the run; every step keeps the bound. At
    capacity [createCircle] returns null and leaves the table of discs and
    the engine, with the bodies of its world, as they are: it only shows the
    toast. *)
Theorem disc_count_bounded :
  (forall ops mounted now b best fps firstBodyId calls,
      (JsMap.size
         (State.circles
            (state (run log2 sqrt cos sin PI random ops
                      (startGame random mounted now b best fps firstBodyId calls))))
       <= 150)%nat)
  /\ (forall g op,
        (JsMap.size (State.circles (state g)) <= 150)%nat ->
        (JsMap.size (State.circles (state (step log2 sqrt cos sin PI random g op)))
         <= 150)%nat)
  /\ (forall now x y value g,
        (150 <= JsMap.size (State.circles (state g)))%nat ->
        createCircle now x y value g
        = (None, with_toasts (toasts g ++ ["Object limit reached"%string]) g)).
Proof.
  split; [| split].
  - intros. apply (run_bounded ops). unfold bounded, startGame.
    rewrite restart_circles. cbn. lia.
  - intros g op. apply step_bounded.
  - intros now x y value g Full. apply createCircle_full, Full.
Qed.

End Count.

(** ** The merge queue is empty between the fixed steps *)

Lemma createCircle_queue (now x y : Q) (value : Z) (g : Game) :
  State.mergeQueue (state (snd (createCircle now x y value g)))
  = State.mergeQueue (state g).
Proof. unfold createCircle. now destruct (Nat.leb cfg.maxCircles _). Qed.

Lemma removeCircle_queue (k : nat) (g : Game) :
  State.mergeQueue (state (removeCircle k g)) = State.mergeQueue (state g).
Proof.
  unfold removeCircle. now destruct (JsMap.get k (State.circles (state g))).
Qed.

Lemma mergeCompletion_queue (now : Q) (a b : nat) (x y : Q) (v : Z) (g : Game) :
  State.mergeQueue (state (mergeCompletion now a b x y v g))
  = State.mergeQueue (state g).
Proof.
  unfold mergeCompletion.
  set (g3 := upd _ (removeCircle b (removeCircle a g))).
  assert (Q3 : State.mergeQueue (state g3) = State.mergeQueue (state g))
    by (unfold g3; cbn [state upd with_state State.mergeQueue
                          State.with_mergingCircles];
        now rewrite !removeCircle_queue).
  pose proof (createCircle_queue now x y v g3) as Q4.
  destruct (createCircle now x y v g3) as [[C |] g4]; cbn [snd] in Q4;
    cbn [state upd with_state State.mergeQueue State.with_circles
         State.with_animations]; congruence.
Qed.

Lemma endGame_queue (now : Q) (reason : string) (g : Game) :
  State.mergeQueue (state (endGame now reason g)) = State.mergeQueue (state g).
Proof. unfold endGame. now destruct (State.ended (state g)). Qed.

Section Queue.

Variable log2 : Q -> Q.
Variable sqrt : Q -> Q.
Variable cos : Q -> Q.
Variable sin : Q -> Q.
Variable PI : Q.
Variable random : nat -> Q.

Lemma dropAt_queue (now x y : Q) (value : Z) (g : Game) :
  State.mergeQueue (state (dropAt random now x y value g))
  = State.mergeQueue (state g).
Proof.
  unfold dropAt. pose proof (createCircle_queue now x y value g) as Q1.
  destruct (createCircle now x y value g) as [[C |] g1]; exact Q1.
Qed.

Lemma tryDrop_queue (now : Q) (g : Game) :
  State.mergeQueue (state (tryDrop log2 sqrt random now g))
  = State.mergeQueue (state g).
Proof.
  unfold tryDrop.
  destruct (_ || _); [reflexivity |].
  destruct (_ <? _); [reflexivity |].
  destruct (negb _); [| apply dropAt_queue].
  destruct (offsetSearch _ _ _ _ _ _ _ _ _); [apply dropAt_queue |].
  destruct (zigzagSearch _ _ _ _ _ _ _ _); [apply dropAt_queue |].
  apply endGame_queue.
Qed.

Lemma drainQueue_queue (now : Q) (queue : list MergeRequest.t) (g : Game) :
  State.mergeQueue (state (drainQueue log2 cos sin PI random now queue g))
  = match queue with [] => State.mergeQueue (state g) | _ :: _ => [] end.
Proof.
  revert g. induction queue as [| r rest IH]; intro g; [reflexivity |].
  cbn [drainQueue]. rewrite IH. destruct rest as [| r' rest']; [| reflexivity].
  destruct (JsMap.get _ _) as [A |]; [| reflexivity].
  destruct (JsMap.get _ _) as [B |]; [| reflexivity].
  destruct (_ || _); [reflexivity |].
  pose proof (performMerge_fields log2 cos sin PI random now A B
                (MergeRequest.x r) (MergeRequest.y r)
                (upd (State.with_mergeQueue []) g)) as P.
  cbn zeta in P. destruct P as (_ & _ & _ & _ & Pq & _).
  exact Pq.
Qed.

Lemma processMergeQueue_queue (now : Q) (g : Game) :
  State.mergeQueue (state (processMergeQueue log2 cos sin PI random now g)) = [].
Proof.
  unfold processMergeQueue. rewrite drainQueue_queue.
  now destruct (State.mergeQueue (state g)).
Qed.

Lemma checkDangerLine_queue (now : Q) (g : Game) :
  State.mergeQueue (state (checkDangerLine log2 now g))
  = State.mergeQueue (state g).
Proof.
  unfold checkDangerLine, dangerScan.
  destruct (_ >? _); [reflexivity |].
  destruct (dangerCrossed _ _ _ _); [apply endGame_queue |].
  destruct (Nat.ltb 12 _); [| reflexivity].
  destruct (Nat.ltb 6 _); [apply endGame_queue | reflexivity].
Qed.

Lemma tick_queue (now : Q) (ph : Physics) (g : Game) :
  State.mergeQueue (state g) = [] ->
  State.mergeQueue (state (tick log2 sqrt cos sin PI random now ph g)) = [].
Proof.
  intro Empty. unfold tick. destruct (_ && _); [| exact Empty].
  rewrite checkDangerLine_queue.
  change (State.mergeQueue (state (updateHighestCircle log2 ?h)))
    with (State.mergeQueue (state h)).
  apply processMergeQueue_queue.
Qed.

Lemma animateOne_queue (now : Q) (acc : Game * list nat)
    (binding : nat * Animation.t) :
  State.mergeQueue (state (fst (animateOne now acc binding)))
  = State.mergeQueue (state (fst acc)).
Proof.
  destruct acc as [g toDelete], binding as [bodyId anim].
  unfold animateOne. destruct (_ >=? _); [reflexivity |].
  destruct (Animation.type anim); [| reflexivity].
  destruct (JsMap.get bodyId (State.circles (state g))) as [data |];
    [| reflexivity].
  now destruct (Animation.targetX anim), (Animation.targetY anim),
    (Animation.startX anim), (Animation.startY anim).
Qed.

Lemma frame_queue (now : Q) (g : Game) :
  State.mergeQueue (state (frame now g)) = State.mergeQueue (state g).
Proof.
  unfold frame, updateAnimations.
  assert (F : forall l acc,
             State.mergeQueue (state (fst (fold_left (animateOne now) l acc)))
             = State.mergeQueue (state (fst acc))).
  { induction l as [| a l IH]; intro acc; [reflexivity |].
    cbn [fold_left]. rewrite IH. apply animateOne_queue. }
  specialize (F (State.animations (state (updateParticles now g)))
                (updateParticles now g, [])).
  destruct (fold_left _ _ _) as [g1 toDelete]. cbn [fst] in F.
  cbn [state upd with_state State.mergeQueue State.with_animations].
  rewrite F. unfold updateParticles.
  destruct (_ <? _); [reflexivity |]. now destruct (fold_left _ _ _).
Qed.

Lemma step_queue (g : Game) (op : Op) :
  State.mergeQueue (state g) = [] ->
  State.mergeQueue (state (step log2 sqrt cos sin PI random g op)) = [].
Proof.
  intro Empty. destruct op; cbn [step].
  - reflexivity.
  - now rewrite tryDrop_queue.
  - apply tick_queue, Empty.
  - now rewrite frame_queue.
  - unfold fireTimer.
    destruct (nth_error (timers g) n) as [t |]; [| exact Empty].
    destruct (_ <=? _); [| exact Empty].
    destruct t; cbn [runTimer]; [| exact Empty].
    now rewrite mergeCompletion_queue.
  - unfold togglePause. now destruct (State.ended (state g)).
  - unfold updatePreview. now destruct (_ <? _).
  - exact Empty.
Qed.

(** Every fixed step drains the queue it fills: in a run of the game the
    merge queue is empty after every step. *)
Lemma run_queue (ops : list Op) (mounted now : Q) (b : Board) (best : Z)
    (fps : Q) (firstBodyId calls : nat) :
  State.mergeQueue
    (state (run log2 sqrt cos sin PI random ops
              (startGame random mounted now b best fps firstBodyId calls))) = [].
Proof.
  unfold run.
  assert (R : forall l g, State.mergeQueue (state g) = [] ->
                State.mergeQueue
                  (state (fold_left (step log2 sqrt cos sin PI random) l g)) = []).
  { induction l as [| op l IH]; intros g E; [exact E |].
    cbn [fold_left]. apply IH, step_queue, E. }
  apply R. reflexivity.
Qed.

End Queue.

(** ** Only a merge changes the score *)

Lemma createCircle_score (now x y : Q) (value : Z) (g : Game) :
  State.score (state (snd (createCircle now x y value g))) = State.score (state g).
Proof. unfold createCircle. now destruct (Nat.leb cfg.maxCircles _). Qed.

Lemma endGame_score (now : Q) (reason : string) (g : Game) :
  State.score (state (endGame now reason g)) = State.score (state g)
  /\ timers (endGame now reason g) = timers g.
Proof. unfold endGame. now destruct (State.ended (state g)). Qed.

Section Score.

Variable log2 : Q -> Q.
Variable sqrt : Q -> Q.
Variable cos : Q -> Q.
Variable sin : Q -> Q.
Variable PI : Q.
Variable random : nat -> Q.

Lemma tryDrop_score (now : Q) (g : Game) :
  State.score (state (tryDrop log2 sqrt random now g)) = State.score (state g).
Proof.
  assert (D : forall x y v,
             State.score (state (dropAt random now x y v g)) = State.score (state g)).
  { intros x y v. unfold dropAt.
    pose proof (createCircle_score now x y v g) as S1.
    destruct (createCircle now x y v g) as [[C |] g1]; exact S1. }
  unfold tryDrop.
  destruct (_ || _); [reflexivity |].
  destruct (_ <? _); [reflexivity |].
  destruct (negb _); [| apply D].
  destruct (offsetSearch _ _ _ _ _ _ _ _ _); [apply D |].
  destruct (zigzagSearch _ _ _ _ _ _ _ _); [apply D |].
  apply endGame_score.
Qed.

Lemma checkDangerLine_score (now : Q) (g : Game) :
  State.score (state (checkDangerLine log2 now g)) = State.score (state g)
  /\ timers (checkDangerLine log2 now g) = timers g.
Proof.
  unfold checkDangerLine, dangerScan.
  destruct (_ >? _); [now split |].
  destruct (dangerCrossed _ _ _ _); [apply endGame_score |].
  destruct (Nat.ltb 12 _); [| now split].
  destruct (Nat.ltb 6 _); [apply endGame_score | now split].
Qed.

Lemma frame_score (now : Q) (g : Game) :
  State.score (state (frame now g)) = State.score (state g).
Proof.
  unfold frame, updateAnimations.
  assert (F : forall l acc,
             State.score (state (fst (fold_left (animateOne now) l acc)))
             = State.score (state (fst acc))).
  { induction l as [| a l IH]; intro acc; [reflexivity |].
    cbn [fold_left]. rewrite IH.
    destruct acc as [h toDelete], a as [bodyId anim].
    unfold animateOne. destruct (_ >=? _); [reflexivity |].
    destruct (Animation.type anim); [| reflexivity].
    destruct (JsMap.get bodyId (State.circles (state h))); [| reflexivity].
    now destruct (Animation.targetX anim), (Animation.targetY anim),
      (Animation.startX anim), (Animation.startY anim). }
  specialize (F (State.animations (state (updateParticles now g)))
                (updateParticles now g, [])).
  destruct (fold_left _ _ _) as [g1 toDelete]. cbn [fst] in F.
  cbn [state upd with_state State.score State.with_animations].
  rewrite F. unfold updateParticles.
  destruct (_ <? _); [reflexivity |]. now destruct (fold_left _ _ _).
Qed.

Lemma tick_score (now : Q) (ph : Physics) (g : Game) :
  State.mergeQueue (state g) = [] ->
  exists resolved : list (CircleData.t * CircleData.t * (Q * Q)),
    timers (tick log2 sqrt cos sin PI random now ph g)
    = timers g ++ map (completionOf now) resolved
    /\ State.score (state (tick log2 sqrt cos sin PI random now ph g))
       = (State.score (state g)
          + mergedValues (map (completionOf now) resolved) * cfg.scoreMul)%Z.
Proof.
  intro Empty. unfold tick.
  destruct (_ && _).
  2: { exists []. cbn [map mergedValues]. rewrite app_nil_r. split; [reflexivity | lia]. }
  destruct (checkDangerLine_score now
              (updateHighestCircle log2
                 (processMergeQueue log2 cos sin PI random now
                    (engineUpdate sqrt now ph g)))) as [Sc Tc].
  rewrite Sc, Tc.
  change (State.score (state (updateHighestCircle log2 ?h)))
    with (State.score (state h)).
  change (timers (updateHighestCircle log2 ?h)) with (timers h).
  unfold engineUpdate.
  set (moved := upd _ g).
  assert (EmptyM : State.mergeQueue (state moved) = []) by exact Empty.
  pose proof (collisionStart_equalValues sqrt now (pairs ph) moved EmptyM) as Eq.
  set (g1 := collisionStart sqrt now (pairs ph) moved) in *.
  assert (C1 : State.circles (state g1) = State.circles (state moved))
    by (unfold g1; now rewrite collisionStart_queue).
  assert (T1 : timers g1 = timers g)
    by (unfold g1; now rewrite collisionStart_queue).
  assert (S1 : State.score (state g1) = State.score (state g))
    by (unfold g1; now rewrite collisionStart_queue).
  rewrite <- C1 in Eq.
  destruct (drainQueue_resolves log2 sqrt cos sin PI random now
              (State.mergeQueue (state g1)) g1 Eq)
    as (resolved & Ht & _ & Hs & _).
  exists resolved. unfold processMergeQueue.
  rewrite Ht, Hs, T1, S1. split; reflexivity.
Qed.

(** The score is zero after a restart, grows in a fixed step by the values
    of the merge completions that the step schedules, times [scoreMul], and
    is left as it is by every other step: drops, frames, timers (the
    completions of the merges among them), pauses, pointer moves and
    resizes. *)
Lemma step_score (g : Game) (op : Op) :
  State.mergeQueue (state g) = [] ->
  match op with
  | OpRestart _ =>
      State.score (state (step log2 sqrt cos sin PI random g op)) = 0%Z
  | OpTick now _ =>
      exists resolved : list (CircleData.t * CircleData.t * (Q * Q)),
        timers (step log2 sqrt cos sin PI random g op)
        = timers g ++ map (completionOf now) resolved
        /\ State.score (state (step log2 sqrt cos sin PI random g op))
           = (State.score (state g)
              + mergedValues (map (completionOf now) resolved) * cfg.scoreMul)%Z
  | _ =>
      State.score (state (step log2 sqrt cos sin PI random g op))
      = State.score (state g)
  end.
Proof.
  intro Empty. destruct op; cbn [step].
  - reflexivity.
  - apply tryDrop_score.
  - apply tick_score, Empty.
  - apply frame_score.
  - unfold fireTimer.
    destruct (nth_error (timers g) n) as [t |]; [| reflexivity].
    destruct (_ <=? _); [| reflexivity].
    destruct t; cbn [runTimer]; [| reflexivity].
    now rewrite mergeCompletion_score.
  - unfold togglePause. now destruct (State.ended (state g)).
  - unfold updatePreview. now destruct (_ <? _).
  - reflexivity.
Qed.

End Score.

(** With 150 discs in the table a drop creates nothing. *)
Lemma disc_count_bounded_witness :
  createCircle 5000 600 54.4 2 exFull
  = (None, with_toasts (toasts exFull ++ ["Object limit reached"%string]) exFull).
Proof.
  apply (proj2 (proj2 (disc_count_bounded exLog2 exSqrt exCos exSin exPI exRandom))).
  apply Nat.leb_le. vm_compute. reflexivity.
Defined.

(** ** Two discs of value 2 meet *)

(** The two discs of value 2 merge: the score grows by 4, once. *)
Lemma merge_doubles_and_scores_witness :
  State.score (state exTwoDiscs) = 0%Z
  /\ State.score
       (state (processMergeQueue exLog2 exCos exSin exPI exRandom 3000
                 (collisionStart exSqrt 3000 (pairs exCollision) exTwoDiscs)))
     = 4%Z.
Proof.
  split; [vm_compute; reflexivity |].
  assert (Empty : State.mergeQueue (state exTwoDiscs) = [])
    by (vm_compute; reflexivity).
  destruct (proj1 (merge_doubles_and_scores exLog2 exSqrt exCos exSin exPI
                     exRandom 3000 (pairs exCollision) exTwoDiscs Empty))
    as (resolved & Ht & _ & Hs).
  rewrite Hs.
  assert (T : timers (processMergeQueue exLog2 exCos exSin exPI exRandom 3000
                        (collisionStart exSqrt 3000 (pairs exCollision) exTwoDiscs))
              = timers exTwoDiscs
                ++ [MergeCompletion (3000 + 300) 4 5 ((300 + 232) / 2)
                      ((766 + 766) / 2) 4])
    by (vm_compute; reflexivity).
  rewrite T in Ht. apply app_inv_head in Ht. rewrite <- Ht.
  assert (Zero : State.score (state exTwoDiscs) = 0%Z) by (vm_compute; reflexivity).
  rewrite Zero. reflexivity.
Defined.

(** ** A restart while a merge is pending *)

Lemma removeCircle_absent (k : nat) (g : Game) :
  JsMap.get k (State.circles (state g)) = None -> removeCircle k g = g.
Proof. intro E. unfold removeCircle. now rewrite E. Qed.

Lemma mergeCompletion_on_empty (now : Q) (a b : nat) (x y : Q) (v : Z) (h : Game) :
  State.circles (state h) = [] ->
  State.circles (state (mergeCompletion now a b x y v h))
  = [(Engine.nextBodyId (engine h),
      CircleData.mk
        (Body.applyForce (Body.circle (Engine.nextBodyId (engine h)) x y)
           (Vector.mk 0 0.005))
        v now (State.nextLocalId (state h)))].
Proof.
  intro E. unfold mergeCompletion.
  rewrite (removeCircle_absent a h) by (now rewrite E).
  rewrite (removeCircle_absent b h) by (now rewrite E).
  unfold createCircle.
  cbn [state upd with_state State.circles State.with_mergingCircles].
  rewrite E. cbn. rewrite E. cbn. rewrite Nat.eqb_refl. reflexivity.
Qed.

Lemma restart_nextBodyId (random : nat -> Q) (now : Q) (g : Game) :
  Engine.nextBodyId (engine (restart random now g)) = Engine.nextBodyId (engine g).
Proof.
  unfold restart.
  set (f := fun (h : Game) (data : CircleData.t) =>
              with_engine (Engine.remove (Body.id (CircleData.body data)) (engine h)) h).
  assert (T : forall l h, Engine.nextBodyId (engine (fold_left f l h))
                          = Engine.nextBodyId (engine h)).
  { induction l as [| d l IH]; intro h; [reflexivity |].
    cbn [fold_left]. now rewrite IH. }
  set (g2 := fold_left f _ _).
  assert (T2 : Engine.nextBodyId (engine g2) = Engine.nextBodyId (engine g))
    by (unfold g2; now rewrite T).
  cbn. exact T2.
Qed.

(** A merge completion that runs on an empty table leaves exactly one disc
    in it, of the value that the completion holds. *)
Lemma completion_on_empty_table (now : Q) (n : nat) (due : Q) (a b : nat)
    (x y : Q) (v : Z) (r : Game) :
  nth_error (timers r) n = Some (MergeCompletion due a b x y v) ->
  due <= now ->
  State.circles (state r) = [] ->
  exists C,
    State.circles (state (fireTimer now n r))
    = [(Engine.nextBodyId (engine r), C)]
    /\ CircleData.value C = v.
Proof.
  intros Pending Due Empty.
  unfold fireTimer. rewrite Pending. cbn [due_of].
  apply NumFacts.leb_le in Due. rewrite Due. cbn [runTimer].
  rewrite mergeCompletion_on_empty by exact Empty.
  cbn [engine with_timers].
  eexists. split; reflexivity.
Qed.

(** Whatever the game, a merge completion that is pending when the game
    restarts is still pending after the restart, at the same place among
    the timers; when it runs, once it is due, the table of the restarted
    game, if nothing has been dropped yet, holds exactly one disc: the one
    of doubled value that the completion creates. *)
Lemma pending_completion_survives_restart (random : nat -> Q) (now now' : Q)
    (n : nat) (due : Q) (a b : nat) (x y : Q) (v : Z) (g : Game) :
  nth_error (timers g) n = Some (MergeCompletion due a b x y v) ->
  due <= now' ->
  nth_error (timers (restart random now g)) n
  = Some (MergeCompletion due a b x y v)
  /\ State.circles (state (restart random now g)) = []
  /\ exists C,
       State.circles (state (fireTimer now' n (restart random now g)))
       = [(Engine.nextBodyId (engine g), C)]
       /\ CircleData.value C = v.
Proof.
  intros Pending Due.
  assert (Still : nth_error (timers (restart random now g)) n
                  = Some (MergeCompletion due a b x y v)).
  { rewrite restart_timers, nth_error_app1; [exact Pending |].
    apply nth_error_Some. congruence. }
  split; [exact Still |]. split; [apply restart_circles |].
  rewrite <- (restart_nextBodyId random now g).
  exact (completion_on_empty_table now' n due a b x y v (restart random now g)
           Still Due (restart_circles random now g)).
Qed.

(** C1, on the program. [restart] cancels no timer: it leaves every pending
    timer and adds its own. So the completion of a merge that was pending at
    the restart runs in the new game. Here two discs of value 2 merge in the
    fixed step at 3000 and the completion is due at 3300; the game restarts
    at 3100, with an empty table; at 3300 the completion runs and puts a disc
    of value 4 into the table of the new game, which no drop has yet
    filled. *)
Theorem restart_keeps_pending_merge :
  (forall random now g,
      timers (restart random now g) = timers g ++ [TimeScaleResume (now + 30)])
  /\ nth_error (timers exMerging) 1
     = Some (MergeCompletion (3000 + 300) 4 5 ((300 + 232) / 2) ((766 + 766) / 2) 4)
  /\ State.ended (state exMerging) = false
  /\ (let restarted := restart exRandom 3100 exMerging in
      let fired := fireTimer 3300 1 restarted in
      JsMap.size (State.circles (state restarted)) = 0%nat
      /\ nth_error (timers restarted) 1
         = Some (MergeCompletion (3000 + 300) 4 5 ((300 + 232) / 2)
                   ((766 + 766) / 2) 4)
      /\ JsMap.size (State.circles (state fired)) = 1%nat
      /\ map CircleData.value (JsMap.values (State.circles (state fired))) = [4%Z]
      /\ Engine.world (engine fired) = [6%nat]
      /\ State.score (state fired) = 0%Z
      /\ State.running (state fired) = true).
Proof.
  split; [apply restart_timers |].
  vm_compute. repeat split.
Qed.

(** * Part IV: the rest of the component *)

(** ** The geometry of the board *)

(** Case analysis on every [Math.max] and [Math.min] of the goal. *)
Ltac minmax_one a b spec op :=
  let m := fresh "m" in
  pose proof (spec a b); set (m := op a b) in *; clearbody m.

Ltac minmax :=
  cbv zeta; unfold Num.max, Num.min in *;
  repeat match goal with
  | |- context [Qmax ?a ?b] => minmax_one a b Q.max_spec Qmax
  | |- context [Qmin ?a ?b] => minmax_one a b Q.min_spec Qmin
  | _ : context [Qmax ?a ?b] |- _ => minmax_one a b Q.max_spec Qmax
  | _ : context [Qmin ?a ?b] |- _ => minmax_one a b Q.min_spec Qmin
  end;
  repeat match goal with
  | H : _ /\ _ \/ _ /\ _ |- _ => destruct H as [[? ?] | [? ?]]
  end.

Lemma radius_range (b : Board) : 16 <= radius b <= 34.
Proof.
  unfold radius. destruct (isMobile b); [| lra].
  minmax; lra.
Qed.

Lemma getRadiusForValue_range (log2 : Q -> Q) (b : Board) (v : Z) :
  Num.max 12 (radius b * 0.5) <= getRadiusForValue log2 b v
  /\ getRadiusForValue log2 b v <= Num.max 40 (radius b * 1.8).
Proof.
  unfold getRadiusForValue. cbv zeta. pose proof (radius_range b) as R.
  set (raw := radius b + _). clearbody raw.
  minmax; lra.
Qed.

(** X1. [getRadiusForValue]: whatever the value, the board and the logarithm,
    the radius of a disc lies between 12 and 61.2, and between half the
    base radius and 1.8 times the base radius plus 40. *)
Theorem getRadiusForValue_bounds (log2 : Q -> Q) (b : Board) (v : Z) :
  12 <= getRadiusForValue log2 b v <= 61.2
  /\ radius b * 0.5 <= getRadiusForValue log2 b v <= radius b * 1.8 + 40.
Proof.
  pose proof (getRadiusForValue_range log2 b v) as [L U].
  pose proof (radius_range b) as R.
  revert L U. minmax; lra.
Qed.

Lemma dangerLineY_range (b : Board) : 80 <= dangerLineY b <= 150.
Proof.
  unfold dangerLineY. destruct (isMobile b); [minmax; lra | lra].
Qed.

(** X3. The spawn height [cfg.spawnY] is at least the radius of the largest
    disc that can be dropped (value 32) and is strictly above the danger
    line, on every board. *)
Theorem spawn_above_danger_line (log2 : Q -> Q) (b : Board) :
  getRadiusForValue log2 b 32 <= spawnY log2 b
  /\ spawnY log2 b < dangerLineY b.
Proof.
  unfold spawnY. cbv zeta.
  pose proof (getRadiusForValue_range log2 b 32) as [L U].
  set (r := getRadiusForValue log2 b 32) in *. clearbody r.
  revert L U. unfold dangerLineY, radius.
  destruct (isMobile b); intros L U; minmax; lra.
Qed.

(** X4. [getColorIndex]: a power of two from 2 to 8192 has the index of its
    exponent minus one, so that two of them never share an index; every
    other value has index 13. *)
Theorem getColorIndex_table (v : Z) :
  (In v paletteValues
   /\ (0 <= getColorIndex v < 13)%Z /\ v = (2 ^ (getColorIndex v + 1))%Z)
  \/ (~ In v paletteValues /\ getColorIndex v = 13%Z).
Proof.
  unfold getColorIndex.
  repeat match goal with
  | |- context [(v =? ?c)%Z] =>
      destruct (Z.eqb_spec v c);
      [left; subst v; split; [cbv; tauto | split; [lia | reflexivity]] |]
  end.
  right. split; [| reflexivity].
  cbv [paletteValues map seq]. simpl. intuition lia.
Qed.

(** The colour of a value is always one of the palette: the fallback of
    [getColor] is never needed for an index that [getColorIndex] returns. *)
Lemma getColor_in_palette (v : Z) :
  In (SpriteCache.getColor (getColorIndex v)) SpriteCache.colorPalette.
Proof.
  destruct (getColorIndex_table v) as [[_ [R _]] | [_ E]].
  - set (i := getColorIndex v) in *. clearbody i.
    assert (C : (i = 0 \/ i = 1 \/ i = 2 \/ i = 3 \/ i = 4 \/ i = 5 \/ i = 6
                 \/ i = 7 \/ i = 8 \/ i = 9 \/ i = 10 \/ i = 11 \/ i = 12)%Z)
      by lia.
    repeat (destruct C as [C | C]; [subst i; cbv; tauto |]).
    subst i; cbv; tauto.
  - rewrite E. cbv. tauto.
Qed.

Lemma Qmax_inject (a b : Z) : Qmax (inject_Z a) (inject_Z b) = inject_Z (Z.max a b).
Proof.
  unfold Qmax, GenericMinMax.gmax, Qcompare, Z.max. simpl.
  rewrite !Z.mul_1_r. now destruct (a ?= b)%Z.
Qed.

Lemma Qmin_inject (a b : Z) : Qmin (inject_Z a) (inject_Z b) = inject_Z (Z.min a b).
Proof.
  unfold Qmin, GenericMinMax.gmin, Qcompare, Z.min. simpl.
  rewrite !Z.mul_1_r. now destruct (a ?= b)%Z.
Qed.

(** X5. [calculateBoardDimensions]: the board is mobile exactly when the
    window is at most 768 wide; its sides are whole numbers, within
    280..800 by 400..1000 on mobile and 500..1200 by 500..1000 otherwise. *)
Theorem calculateBoardDimensions_clamped (e : BoardBox) :
  let b := calculateBoardDimensions e in
  isMobile b = (innerWidth e <=? 768)
  /\ (if isMobile b
      then 280 <= dynamicBoardW b <= 800 /\ 400 <= dynamicBoardH b <= 1000
      else 500 <= dynamicBoardW b <= 1200 /\ 500 <= dynamicBoardH b <= 1000)
  /\ (exists w h : Z,
        dynamicBoardW b = inject_Z w /\ dynamicBoardH b = inject_Z h).
Proof.
  unfold calculateBoardDimensions. cbv zeta.
  set (w := Num.floor _). set (h := Num.floor _). clearbody w h.
  destruct (innerWidth e <=? 768); simpl.
  - split; [reflexivity |]. split; [minmax; lra |].
    exists (Z.max 280 (Z.min w 800)), (Z.max 400 (Z.min h 1000)).
    unfold Num.max, Num.min.
    change 800 with (inject_Z 800). change 1000 with (inject_Z 1000).
    change 280 with (inject_Z 280). change 400 with (inject_Z 400).
    now rewrite !Qmin_inject, !Qmax_inject.
  - split; [reflexivity |]. split; [minmax; lra |].
    exists (Z.max 500 (Z.min w 1200)), (Z.max 500 (Z.min h 1000)).
    unfold Num.max, Num.min.
    change 1200 with (inject_Z 1200). change 1000 with (inject_Z 1000).
    change 500 with (inject_Z 500).
    now rewrite !Qmin_inject, !Qmax_inject.
Qed.

(** On a measured board a disc of any value fits between the walls and
    between ceiling and floor. *)
Lemma disc_fits_board (log2 : Q -> Q) (e : BoardBox) (v : Z) :
  let b := calculateBoardDimensions e in
  getRadiusForValue log2 b v <= dynamicBoardW b - getRadiusForValue log2 b v
  /\ getRadiusForValue log2 b v <= dynamicBoardH b - getRadiusForValue log2 b v.
Proof.
  intro b.
  pose proof (getRadiusForValue_bounds log2 b v) as [[_ U] _].
  pose proof (calculateBoardDimensions_clamped e) as [_ [C _]].
  fold b in C. destruct (isMobile b); lra.
Qed.

(** X6. After [handleResize] has measured the board, a pointer move either
    is throttled and changes nothing, or leaves the preview between the
    walls: at least one radius of the next disc from either side. *)
Theorem preview_stays_on_board (log2 : Q -> Q) (e : BoardBox) (now x : Q)
    (g : Game) :
  let g1 := handleResize (calculateBoardDimensions e) g in
  let g2 := updatePreview log2 now x g1 in
  let r := getRadiusForValue log2 (board g1) (State.nextValue (state g1)) in
  g2 = g1
  \/ (State.previewUpdateTime (state g2) = now
      /\ r <= State.previewX (state g2) <= boardW g1 - r).
Proof.
  intros g1 g2 r. subst g2. unfold updatePreview. cbv zeta.
  destruct (_ <? _); [left; reflexivity | right].
  split; [reflexivity |]. cbn.
  pose proof (disc_fits_board log2 e (State.nextValue (state g))) as [F _].
  cbv zeta in F. subst r. cbn. unfold boardW. cbn.
  set (rr := getRadiusForValue _ _ _) in *. clearbody rr.
  minmax; lra.
Qed.

(** X2. [getRadiusForValue] is monotone in the value when the logarithm is
    monotone: a disc of a larger value is never drawn smaller. *)
Theorem getRadiusForValue_monotone (log2 : Q -> Q) (b : Board) (v w : Z) :
  (forall p q : Q, p <= q -> log2 p <= log2 q) ->
  (v <= w)%Z ->
  getRadiusForValue log2 b v <= getRadiusForValue log2 b w.
Proof.
  intros M L. unfold getRadiusForValue. cbv zeta.
  pose proof (radius_range b) as R.
  assert (S : log2 (inject_Z v / 2) <= log2 (inject_Z w / 2)).
  { apply M. rewrite Zle_Qle in L. unfold Qdiv.
    apply Qmult_le_compat_r; [exact L | discriminate]. }
  set (sv := log2 (inject_Z v / 2)) in *.
  set (sw := log2 (inject_Z w / 2)) in *. clearbody sv sw.
  assert (E : radius b + sv * 0.15 * radius b <= radius b + sw * 0.15 * radius b).
  { apply Qplus_le_r. apply Qmult_le_compat_r; lra. }
  set (rv := radius b + sv * 0.15 * radius b) in *.
  set (rw := radius b + sw * 0.15 * radius b) in *. clearbody rv rw.
  minmax; lra.
Qed.

Lemma exLog2_monotone (p q : Q) : p <= q -> exLog2 p <= exLog2 q.
Proof.
  intro L. unfold exLog2. rewrite <- Zle_Qle.
  apply Z.log2_le_mono, Qfloor_resp_le, L.
Qed.

Lemma getRadiusForValue_monotone_witness :
  getRadiusForValue exLog2 desktop 2 <= getRadiusForValue exLog2 desktop 4.
Proof.
  apply getRadiusForValue_monotone; [apply exLog2_monotone | lia].
Defined.

(** ** The particle pool *)

Module PoolFacts.
Import PoolSpec.

Lemma NoDup_map_of_nat (l : list nat) : NoDup l -> NoDup (map Z.of_nat l).
Proof.
  induction 1 as [| a l A N IH]; simpl; constructor; [| exact IH].
  rewrite in_map_iff. intros [k [E I]]. apply Nat2Z.inj in E. now subst k.
Qed.

Lemma initialFreeList_NoDup (n : nat) : NoDup (ParticlePool.initialFreeList n).
Proof.
  unfold ParticlePool.initialFreeList.
  apply NoDup_rev, NoDup_map_of_nat, seq_NoDup.
Qed.

Lemma initialFreeList_range (n : nat) (i : Z) :
  In i (ParticlePool.initialFreeList n) <-> (0 <= i < Z.of_nat n)%Z.
Proof.
  unfold ParticlePool.initialFreeList. rewrite <- in_rev, in_map_iff.
  split.
  - intros [k [E I]]. apply in_seq in I. lia.
  - intro R. exists (Z.to_nat i). split; [lia |]. apply in_seq. lia.
Qed.

Lemma initialFreeList_length (n : nat) :
  List.length (ParticlePool.initialFreeList n) = n.
Proof.
  unfold ParticlePool.initialFreeList.
  now rewrite length_rev, length_map, length_seq.
Qed.

Lemma create_wellFormed (n : nat) : wellFormed (ParticlePool.create n).
Proof.
  unfold wellFormed. simpl. split; [| split; [| split]].
  - apply initialFreeList_NoDup.
  - intros i I. apply initialFreeList_range in I. lia.
  - lia.
  - rewrite initialFreeList_length. lia.
Qed.

Lemma clear_wellFormed (p : ParticlePool.t) :
  wellFormed p -> wellFormed (ParticlePool.clear p).
Proof.
  intros (_ & _ & C & E). unfold wellFormed. simpl.
  assert (0 <= ParticlePool.capacity p)%Z by lia.
  split; [| split; [| split]].
  - apply initialFreeList_NoDup.
  - intros i I. apply initialFreeList_range in I. lia.
  - lia.
  - rewrite initialFreeList_length. lia.
Qed.

(** The free list with its last slot apart. *)
Lemma freeList_last (p : ParticlePool.t) (i : Z) (r : list Z) :
  rev (ParticlePool.freeList p) = i :: r ->
  ParticlePool.freeList p = rev r ++ [i].
Proof.
  intro E. rewrite <- (rev_involutive (ParticlePool.freeList p)), E.
  reflexivity.
Qed.

Lemma acquire_wellFormed (p : ParticlePool.t) :
  wellFormed p -> wellFormed (snd (ParticlePool.acquire p)).
Proof.
  intros (N & R & C & E). unfold ParticlePool.acquire.
  destruct (rev (ParticlePool.freeList p)) as [| i r] eqn:F; simpl.
  - exact (conj N (conj R (conj C E))).
  - apply freeList_last in F. rewrite F in N, R, E.
    unfold wellFormed. simpl. split; [| split; [| split]].
    + apply NoDup_remove_1 in N. now rewrite app_nil_r in N.
    + intros j J. apply R, in_or_app. now left.
    + lia.
    + rewrite length_app in E. simpl in E. lia.
Qed.

(** A pool with no slot in use has every slot in its free list. *)
Lemma free_slots_counted (p : ParticlePool.t) (i : Z) :
  wellFormed p ->
  (0 <= i < ParticlePool.capacity p)%Z ->
  ~ In i (ParticlePool.freeList p) ->
  (1 <= ParticlePool.count p)%Z.
Proof.
  intros (N & R & C & E) I F.
  assert (L : (List.length (i :: ParticlePool.freeList p)
               <= List.length (ParticlePool.initialFreeList
                                 (Z.to_nat (ParticlePool.capacity p))))%nat).
  { apply NoDup_incl_length; [now constructor |].
    intros j [<- | J]; apply initialFreeList_range.
    - lia.
    - apply R in J. lia. }
  rewrite initialFreeList_length in L. simpl in L. lia.
Qed.

Lemma release_wellFormed (p : ParticlePool.t) (i : Z) :
  wellFormed p ->
  ~ In i (ParticlePool.freeList p) ->
  wellFormed (ParticlePool.release i p).
Proof.
  intros W F. unfold ParticlePool.release.
  destruct ((i <? 0) || (i >=? ParticlePool.capacity p))%Z eqn:G; [exact W |].
  apply orb_false_elim in G as [G1 G2].
  assert (I : (0 <= i < ParticlePool.capacity p)%Z) by lia.
  pose proof (free_slots_counted p i W I F) as P.
  destruct W as (N & R & C & E).
  unfold wellFormed. simpl. split; [| split; [| split]].
  - apply NoDup_rev in N. rewrite <- (rev_involutive (_ ++ _)).
    apply NoDup_rev. rewrite rev_app_distr. simpl. constructor; [| exact N].
    now rewrite <- in_rev.
  - intros j J. apply in_app_or in J as [J | [<- | []]]; [apply R in J |]; lia.
  - lia.
  - rewrite length_app. simpl. lia.
Qed.

Lemma step_wellFormed (p : ParticlePool.t) (op : Op) :
  wellFormed p ->
  match op with
  | Release index => ~ In index (ParticlePool.freeList p)
  | _ => True
  end ->
  wellFormed (step p op).
Proof.
  intros W D. destruct op; simpl.
  - apply acquire_wellFormed, W.
  - apply release_wellFormed; assumption.
  - apply clear_wellFormed, W.
Qed.

Lemma run_wellFormed (ops : list Op) (p : ParticlePool.t) :
  wellFormed p -> disciplined p ops -> wellFormed (fold_left step ops p).
Proof.
  revert p. induction ops as [| op rest IH]; intros p W D; simpl; [exact W |].
  destruct D as [D1 D2]. apply IH; [apply step_wellFormed |]; assumption.
Qed.

Lemma pool_eta (p : ParticlePool.t) (c : Z) (f : list Z) :
  c = ParticlePool.count p -> f = ParticlePool.freeList p ->
  ParticlePool.with_free c f p = p.
Proof. intros -> ->. now destruct p. Qed.

End PoolFacts.

(** X7. [ParticlePool]: from the constructor on, as long as no slot is
    released while it is free, the free list holds distinct slots of the
    pool and the active count is the number of slots that are not free (so
    it never leaves the range from 0 to the capacity). *)
Theorem pool_wellFormed (n : nat) (ops : list PoolSpec.Op) :
  PoolSpec.disciplined (ParticlePool.create n) ops ->
  PoolSpec.wellFormed (fold_left PoolSpec.step ops (ParticlePool.create n)).
Proof.
  apply PoolFacts.run_wellFormed, PoolFacts.create_wellFormed.
Qed.

Lemma pool_wellFormed_witness :
  PoolSpec.wellFormed
    (fold_left PoolSpec.step
       [PoolSpec.Acquire; PoolSpec.Acquire; PoolSpec.Release 0;
        PoolSpec.Acquire; PoolSpec.Release 7; PoolSpec.Clear;
        PoolSpec.Acquire]
       (ParticlePool.create 3)).
Proof.
  apply pool_wellFormed. simpl. intuition lia.
Defined.

(** X8. [acquire] on a well-formed pool: with no free slot it returns -1 and
    leaves the pool as it is; otherwise it returns a slot of the pool that
    is no longer in the free list, counts it, and [release] of that slot
    gives back the pool as it was. *)
Theorem acquire_release_round_trip (p : ParticlePool.t) :
  PoolSpec.wellFormed p ->
  let i := fst (ParticlePool.acquire p) in
  let p' := snd (ParticlePool.acquire p) in
  (i = (-1)%Z /\ p' = p /\ ParticlePool.count p = ParticlePool.capacity p)
  \/ ((0 <= i < ParticlePool.capacity p)%Z
      /\ ~ In i (ParticlePool.freeList p')
      /\ ParticlePool.count p' = (ParticlePool.count p + 1)%Z
      /\ ParticlePool.release i p' = p).
Proof.
  intros (N & R & C & E). unfold ParticlePool.acquire.
  destruct (rev (ParticlePool.freeList p)) as [| i r] eqn:F; simpl.
  - left. split; [reflexivity |]. split; [reflexivity |].
    assert (Z : ParticlePool.freeList p = []).
    { rewrite <- (rev_involutive (ParticlePool.freeList p)), F. reflexivity. }
    rewrite Z in E. simpl in E. lia.
  - right. apply PoolFacts.freeList_last in F.
    assert (I : (0 <= i < ParticlePool.capacity p)%Z).
    { apply R. rewrite F. apply in_or_app. right. now left. }
    split; [exact I |]. split; [| split; [reflexivity |]].
    + rewrite F in N. apply NoDup_remove_2 in N. now rewrite app_nil_r in N.
    + unfold ParticlePool.release. simpl.
      destruct ((i <? 0) || (i >=? ParticlePool.capacity p))%Z eqn:G;
        [apply orb_true_iff in G; lia |].
      unfold ParticlePool.with_free. simpl. rewrite <- F.
      replace (ParticlePool.count p + 1 - 1)%Z with (ParticlePool.count p)
        by lia.
      now destruct p.
Qed.

Lemma acquire_release_round_trip_witness :
  let p := snd (ParticlePool.acquire (ParticlePool.create 3)) in
  let i := fst (ParticlePool.acquire p) in
  let p' := snd (ParticlePool.acquire p) in
  (i = (-1)%Z /\ p' = p /\ ParticlePool.count p = ParticlePool.capacity p)
  \/ ((0 <= i < ParticlePool.capacity p)%Z
      /\ ~ In i (ParticlePool.freeList p')
      /\ ParticlePool.count p' = (ParticlePool.count p + 1)%Z
      /\ ParticlePool.release i p' = p).
Proof.
  apply acquire_release_round_trip.
  apply PoolFacts.acquire_wellFormed, PoolFacts.create_wellFormed.
Defined.

(** ** The merge explosion and the pool *)

Section Explosion.

Variable log2 : Q -> Q.
Variable cos : Q -> Q.
Variable sin : Q -> Q.
Variable PI : Q.
Variable random : nat -> Q.

Lemma firstn_last {A : Type} (l : list A) (a : A) :
  firstn (List.length l) (l ++ [a]) = l.
Proof.
  rewrite firstn_app, Nat.sub_diag, firstn_all. simpl. apply app_nil_r.
Qed.

(** The loop takes one free slot per round, from the end of the free list,
    until the rounds or the free slots run out; a round that finds a slot
    draws five random numbers. *)
Lemma explosionLoop_pool (now x y : Q) (c1 c2 : Z) (m : Q) (n : Z)
    (indices : list nat) (g : Game) :
  (forall i, In i (ParticlePool.freeList (particlePool g)) -> (0 <= i)%Z) ->
  let g' := explosionLoop cos sin PI random now x y c1 c2 m n indices g in
  let free := ParticlePool.freeList (particlePool g) in
  let k := Nat.min (List.length indices) (List.length free) in
  ParticlePool.freeList (particlePool g') = firstn (List.length free - k) free
  /\ ParticlePool.count (particlePool g')
     = (ParticlePool.count (particlePool g) + Z.of_nat k)%Z
  /\ ParticlePool.capacity (particlePool g')
     = ParticlePool.capacity (particlePool g)
  /\ randomCalls g' = (randomCalls g + 5 * k)%nat.
Proof.
  revert g. induction indices as [| i rest IH]; intros g R; cbn [explosionLoop].
  - cbn. rewrite Nat.sub_0_r, firstn_all. repeat split; lia.
  - unfold ParticlePool.acquire.
    destruct (rev (ParticlePool.freeList (particlePool g))) as [| s r] eqn:F.
    + assert (Z : ParticlePool.freeList (particlePool g) = []).
      { rewrite <- (rev_involutive (ParticlePool.freeList _)), F. reflexivity. }
      cbn. rewrite Z. cbn. repeat split; lia.
    + apply PoolFacts.freeList_last in F.
      assert (S0 : (0 <= s)%Z).
      { apply R. rewrite F. apply in_or_app. right. now left. }
      cbv beta iota.
      destruct (s =? -1)%Z eqn:S1; [lia |].
      cbn [rand fst snd].
      match goal with
      | |- context [explosionLoop _ _ _ _ _ _ _ _ _ _ _ _ ?h] =>
          specialize (IH h)
      end.
      cbn in IH. cbn. rewrite F in *. rewrite length_app in *. cbn [List.length].
      rewrite length_rev in *.
      destruct IH as (I1 & I2 & I3 & I4).
      { intros j J. apply R, in_or_app. left. exact J. }
      rewrite I1, I2, I3, I4. clear I1 I2 I3 I4.
      replace (List.length r + 1)%nat with (S (List.length r)) by lia.
      rewrite Nat.min_comm. cbn [Nat.min]. rewrite Nat.min_comm.
      set (k := Nat.min (List.length rest) (List.length r)).
      assert (K : (k <= List.length r)%nat) by apply Nat.le_min_r.
      split; [| repeat split; lia].
      replace (S (List.length r) - S k)%nat with (List.length r - k)%nat by lia.
      rewrite firstn_app, length_rev.
      replace (List.length r - k - List.length r)%nat with O by lia.
      cbn. now rewrite app_nil_r.
Qed.

(** X9. [createMergeExplosion] on a well-formed pool takes exactly as many
    slots as it has particles, or every free slot when there are fewer: the
    burst is truncated, the slots come off the end of the free list, the
    active count grows by their number, and the pool stays well-formed. *)
Theorem createMergeExplosion_truncates (now x y : Q) (c1 c2 v : Z) (g : Game) :
  PoolSpec.wellFormed (particlePool g) ->
  let g' := createMergeExplosion log2 cos sin PI random now x y c1 c2 v g in
  let free := ParticlePool.freeList (particlePool g) in
  let particleCount := (8 + Num.floor (random (randomCalls g) * 4))%Z in
  let k := Nat.min (Z.to_nat particleCount) (List.length free) in
  ParticlePool.freeList (particlePool g') = firstn (List.length free - k) free
  /\ ParticlePool.count (particlePool g')
     = (ParticlePool.count (particlePool g) + Z.of_nat k)%Z
  /\ randomCalls g' = (randomCalls g + 1 + 5 * k)%nat
  /\ PoolSpec.wellFormed (particlePool g').
Proof.
  intros W g' free particleCount k.
  assert (R : forall i, In i free -> (0 <= i)%Z).
  { intros i I. destruct W as (_ & R & _). apply R in I. lia. }
  subst g'. unfold createMergeExplosion. cbn [rand].
  match goal with
  | |- context [explosionLoop _ _ _ _ _ _ _ _ _ ?m ?n ?l ?h] =>
      pose proof (explosionLoop_pool now x y c1 c2 m n l h R) as P;
      set (g' := explosionLoop cos sin PI random now x y c1 c2 m n l h) in *
  end.
  cbv zeta in P. cbn [particlePool with_randomCalls randomCalls] in P.
  rewrite length_seq in P. fold free particleCount k in P.
  destruct P as (P1 & P2 & P3 & P4).
  split; [exact P1 |]. split; [exact P2 |]. split; [lia |].
  destruct W as (N & Rg & C & E). fold free in N, Rg, E.
  assert (K : (k <= List.length free)%nat) by apply Nat.le_min_r.
  unfold PoolSpec.wellFormed. rewrite P1, P2, P3.
  split; [| split; [| split]].
  - rewrite <- (firstn_skipn (List.length free - k) free) in N.
    apply NoDup_app_remove_r in N. exact N.
  - intros i I. apply Rg. rewrite <- (firstn_skipn (List.length free - k) free).
    apply in_or_app. now left.
  - lia.
  - rewrite length_firstn. lia.
Qed.

End Explosion.

(** A pool of five slots: the burst of eight particles is cut to five. *)
Lemma createMergeExplosion_truncates_witness :
  let g := with_particlePool (ParticlePool.create 5) exOneDisc in
  let g' := createMergeExplosion exLog2 exCos exSin exPI exRandom
              2000 300 700 0 1 2 g in
  let free := ParticlePool.freeList (particlePool g) in
  let particleCount := (8 + Num.floor (exRandom (randomCalls g) * 4))%Z in
  let k := Nat.min (Z.to_nat particleCount) (List.length free) in
  ParticlePool.freeList (particlePool g') = firstn (List.length free - k) free
  /\ ParticlePool.count (particlePool g')
     = (ParticlePool.count (particlePool g) + Z.of_nat k)%Z
  /\ randomCalls g' = (randomCalls g + 1 + 5 * k)%nat
  /\ PoolSpec.wellFormed (particlePool g').
Proof.
  apply createMergeExplosion_truncates.
  apply (PoolFacts.create_wellFormed 5).
Defined.

(** ** The subscribers of the store *)

Module StoreFacts.

Lemma has_true_iff (k : nat) (s : JsSet.t) : JsSet.has k s = true <-> In k s.
Proof.
  unfold JsSet.has. rewrite existsb_exists. split.
  - intros [j [I E]]. apply Nat.eqb_eq in E. now subst j.
  - intro I. exists k. split; [exact I | apply Nat.eqb_refl].
Qed.

Lemma in_add (k j : nat) (s : JsSet.t) : In j (JsSet.add k s) <-> j = k \/ In j s.
Proof.
  unfold JsSet.add. destruct (JsSet.has k s) eqn:H.
  - apply has_true_iff in H. split; [now right | intros [-> | I]; assumption].
  - rewrite in_app_iff. simpl. intuition congruence.
Qed.

Lemma in_delete (k j : nat) (s : JsSet.t) :
  In j (JsSet.delete k s) <-> j <> k /\ In j s.
Proof.
  unfold JsSet.delete. rewrite filter_In, negb_true_iff, Nat.eqb_neq.
  intuition congruence.
Qed.

Lemma add_NoDup (k : nat) (s : JsSet.t) : NoDup s -> NoDup (JsSet.add k s).
Proof.
  intro N. unfold JsSet.add. destruct (JsSet.has k s) eqn:H; [exact N |].
  rewrite <- (rev_involutive (s ++ [k])). apply NoDup_rev.
  rewrite rev_app_distr. simpl. constructor; [| apply NoDup_rev, N].
  rewrite <- in_rev. intro I. apply has_true_iff in I. congruence.
Qed.

Lemma delete_NoDup (k : nat) (s : JsSet.t) : NoDup s -> NoDup (JsSet.delete k s).
Proof. apply NoDup_filter. Qed.

Lemma add_add (k : nat) (s : JsSet.t) : JsSet.add k (JsSet.add k s) = JsSet.add k s.
Proof.
  unfold JsSet.add at 1.
  assert (H : JsSet.has k (JsSet.add k s) = true).
  { apply has_true_iff, in_add. now left. }
  now rewrite H.
Qed.

End StoreFacts.

(** X10. [GameStateStore.subscribe]: the listeners are a set. An update that
    is accepted calls a subscribed listener exactly once, however often it
    subscribed, and does not call one that has unsubscribed; subscribing
    twice is subscribing once. *)
Theorem subscribe_notified_once (listener : nat) (now : Q)
    (newState : PartialGameState.t) (s : GameStateStore.t) :
  NoDup (GameStateStore.listeners s) ->
  GameStateStore.throttleMs <= now - GameStateStore.updateThrottle s ->
  let subscribed := GameStateStore.subscribe listener s in
  let unsubscribed := GameStateStore.unsubscribe listener subscribed in
  count_occ Nat.eq_dec
    (snd (GameStateStore.setState now newState subscribed)) listener = 1%nat
  /\ ~ In listener (snd (GameStateStore.setState now newState unsubscribed))
  /\ GameStateStore.subscribe listener subscribed = subscribed
  /\ NoDup (GameStateStore.listeners
              (fst (GameStateStore.setState now newState subscribed))).
Proof.
  intros N A subscribed unsubscribed.
  apply NumFacts.ltb_ge in A.
  unfold GameStateStore.setState. cbn [GameStateStore.updateThrottle
    subscribed unsubscribed GameStateStore.subscribe GameStateStore.unsubscribe
    GameStateStore.listeners GameStateStore.state].
  rewrite A. cbn [fst snd GameStateStore.listeners].
  pose proof (StoreFacts.add_NoDup listener _ N) as N1.
  split; [| split; [| split]].
  - apply NoDup_count_occ' ; [exact N1 |]. apply StoreFacts.in_add. now left.
  - rewrite StoreFacts.in_delete. intros [D _]. now apply D.
  - unfold GameStateStore.subscribe. cbn. now rewrite StoreFacts.add_add.
  - exact N1.
Qed.

Lemma subscribe_notified_once_witness :
  let s := GameStateStore.subscribe 7
             (GameStateStore.create
                (GameState.mk 0 0 2 false false false EmptyString)) in
  let subscribed := GameStateStore.subscribe 7 s in
  let unsubscribed := GameStateStore.unsubscribe 7 subscribed in
  count_occ Nat.eq_dec
    (snd (GameStateStore.setState 250 PartialGameState.none subscribed)) 7%nat
  = 1%nat
  /\ ~ In 7%nat (snd (GameStateStore.setState 250 PartialGameState.none unsubscribed))
  /\ GameStateStore.subscribe 7 subscribed = subscribed
  /\ NoDup (GameStateStore.listeners
              (fst (GameStateStore.setState 250 PartialGameState.none subscribed))).
Proof.
  apply subscribe_notified_once.
  - cbn. repeat constructor. intros [].
  - unfold GameStateStore.throttleMs. cbn. lra.
Defined.

(** ** The step runner *)

Module RunnerFacts.
Import AdaptiveStepRunner RunnerSpec.

Section WithCallback.
Context {S : Type}.
Variable updateFn : Q -> S -> S.



End WithCallback.



End RunnerFacts.



(** X12. The first frame and [reset]: a runner that has just been built or
    reset runs no fixed step at its next [update], whatever the time that
    has passed and whatever the fuel; it only records the time. The rate
    that [detectRefreshRate] sets is 60, or between 120 and 240. *)
Theorem reset_skips_a_frame {S : Type} (updateFn : Q -> S -> S) (fuel : nat)
    (currentTime elapsed : Q) (r : AdaptiveStepRunner.t) (s : S) :
  AdaptiveStepRunner.update fuel currentTime updateFn
    (AdaptiveStepRunner.reset r) s
  = Some (AdaptiveStepRunner.mk 0 currentTime (AdaptiveStepRunner.targetFPS r)
            0 currentTime (AdaptiveStepRunner.currentFPS r), s)
  /\ AdaptiveStepRunner.update fuel currentTime updateFn
       AdaptiveStepRunner.create s
     = Some (AdaptiveStepRunner.mk 0 currentTime 144 0 currentTime 60, s)
  /\ (AdaptiveStepRunner.targetFPS (AdaptiveStepRunner.detected elapsed r) = 60
      \/ 120 <= AdaptiveStepRunner.targetFPS
                  (AdaptiveStepRunner.detected elapsed r) <= 240).
Proof.
  split; [reflexivity |]. split; [reflexivity |].
  unfold AdaptiveStepRunner.detected. cbv zeta.
  set (detectedFPS := inject_Z _). clearbody detectedFPS.
  destruct (detectedFPS >=? 120) eqn:D;
    cbn [AdaptiveStepRunner.targetFPS]; [right | now left].
  apply NumFacts.geb_ge in D. minmax; lra.
Qed.

(** ** The sprite cache *)

Module SpriteFacts.
Import SpriteCache.

Lemma sprite_get_set_same (k : string) (v : Sprite) (m : t) :
  get k (set k v m) = Some v.
Proof.
  induction m as [| [k' v'] r IH]; simpl.
  - now rewrite String.eqb_refl.
  - destruct (String.eqb k k') eqn:E; simpl.
    + now rewrite String.eqb_refl.
    + now rewrite E.
Qed.

Lemma sprite_size_set_le (k : string) (v : Sprite) (m : t) :
  (size (set k v m) <= Datatypes.S (size m))%nat.
Proof.
  unfold size. induction m as [| [k' v'] r IH]; simpl; [lia |].
  destruct (String.eqb k k'); simpl; lia.
Qed.

Lemma round_near (a : Q) :
  a - (1 # 2) < inject_Z (JsMath.round a) <= a + (1 # 2).
Proof.
  unfold JsMath.round.
  pose proof (Qfloor_le (a + (1 # 2))) as L.
  pose proof (Qlt_floor (a + (1 # 2))) as U.
  rewrite inject_Z_plus in U. change (inject_Z 1) with 1 in U.
  lra.
Qed.

End SpriteFacts.

(** X13. [SpriteCache.getSprite]: the sprite is drawn for the radius rounded
    to the nearest multiple of 4, which is within 2 of the radius of the
    disc; the sprite that a call returns is in the cache after it, so that
    the same call again, or a call with any radius of the same bucket,
    returns the same sprite and leaves the cache as it is; a call adds at
    most one sprite. *)
Theorem getSprite_memoises (numberToString : Q -> string) (value : Z)
    (radius radius' dpr : Q) (cache : SpriteCache.t) :
  let sprite := fst (SpriteCache.getSprite numberToString value radius dpr cache) in
  let cache' := snd (SpriteCache.getSprite numberToString value radius dpr cache) in
  (SpriteCache.radiusBucket radius' = SpriteCache.radiusBucket radius ->
   SpriteCache.getSprite numberToString value radius' dpr cache'
   = (sprite, cache'))
  /\ (SpriteCache.size cache' <= Datatypes.S (SpriteCache.size cache))%nat
  /\ radius - 2 <= SpriteCache.radiusBucket radius <= radius + 2
  /\ (exists k : Z, SpriteCache.radiusBucket radius = inject_Z k * 4).
Proof.
  intros sprite cache'. split; [| split; [| split]].
  - intro B. subst sprite cache'. unfold SpriteCache.getSprite. cbv zeta.
    rewrite B.
    set (key := SpriteCache.generateCacheKey _ _ _ _).
    destruct (SpriteCache.get key cache) as [hit |] eqn:G; cbn [fst snd].
    + now rewrite G.
    + now rewrite SpriteFacts.sprite_get_set_same.
  - subst cache'. unfold SpriteCache.getSprite. cbv zeta.
    destruct (SpriteCache.get _ cache); cbn [snd].
    + lia.
    + apply SpriteFacts.sprite_size_set_le.
  - unfold SpriteCache.radiusBucket.
    pose proof (SpriteFacts.round_near (radius / 4)) as R.
    assert (E : radius == 4 * (radius / 4)) by (field; discriminate).
    set (q := radius / 4) in *. clearbody q. lra.
  - eexists. reflexivity.
Qed.

(** The radii 34 and 35 are in the bucket 36: the sprite drawn for the
    first is returned for the second. *)
Lemma getSprite_memoises_witness :
  let numberToString :=
    fun q : Q => if Qeq_bool q 2 then "2"%string else "n"%string in
  let sprite := fst (SpriteCache.getSprite numberToString 2 34 1 SpriteCache.empty) in
  let cache' := snd (SpriteCache.getSprite numberToString 2 34 1 SpriteCache.empty) in
  SpriteCache.getSprite numberToString 2 35 1 cache' = (sprite, cache')
  /\ SpriteCache.spriteRadius sprite == 36.
Proof.
  intros numberToString sprite cache'.
  destruct (getSprite_memoises numberToString 2 34 35 1 SpriteCache.empty)
    as (M & _).
  split; [apply M; vm_compute; reflexivity | vm_compute; reflexivity].
Defined.

(** ** The handlers of the game on the view of the session *)

(** The projections of the records of the game, computed through its
    setters. *)
Ltac fields :=
  unfold View.of_game;
  cbn [state store particlePool engine board timers lastBestSave savedBest
       lastParticleUpdate targetFPS showModal toasts randomCalls
       upd with_state with_store with_particlePool with_engine with_board
       with_timers with_bestSave with_lastParticleUpdate with_showModal
       with_toasts with_randomCalls storeSet setTimeout showToastMessage
       State.previewX State.score State.best State.nextValue State.running
       State.paused State.lastDropTs State.ended State.endReason
       State.circles State.nextLocalId State.mergingCircles State.animations
       State.mergeQueue State.highestCircleTop State.previewUpdateTime
       State.with_previewX State.with_score State.with_best
       State.with_nextValue State.with_running State.with_paused
       State.with_lastDropTs State.with_ended State.with_endReason
       State.with_circles State.with_nextLocalId State.with_mergingCircles
       State.with_animations State.with_mergeQueue
       State.with_highestCircleTop State.with_previewUpdateTime
       Engine.timeScale Engine.world Engine.nextBodyId Engine.add
       Engine.remove Engine.with_timeScale Engine.fresh
       CircleData.body CircleData.value CircleData.bornAt CircleData.id
       CircleData.with_body
       Body.id Body.label Body.position Body.velocity Body.force Body.circle
       Body.setPosition Body.applyForce
       View.of_game View.of_disc View.discs View.world View.nextBodyId
       View.nextLocalId View.merging View.pending View.score View.best
       View.saved View.nextValue View.running View.paused View.ended
       View.bodyId View.value View.localId
       fst snd].

Module ViewFacts.

Lemma of_circles_get (k : nat) (m : JsMap.t CircleData.t) :
  JsMap.get k (View.of_circles m) = option_map View.of_disc (JsMap.get k m).
Proof.
  induction m as [| [k' d] r IH]; simpl; [reflexivity |].
  destruct (Nat.eqb k k'); [reflexivity | exact IH].
Qed.

Lemma of_circles_set (k : nat) (d : CircleData.t) (m : JsMap.t CircleData.t) :
  View.of_circles (JsMap.set k d m)
  = JsMap.set k (View.of_disc d) (View.of_circles m).
Proof.
  induction m as [| [k' d'] r IH]; simpl; [reflexivity |].
  destruct (Nat.eqb k k'); simpl; [reflexivity | now rewrite <- IH].
Qed.

Lemma of_circles_delete (k : nat) (m : JsMap.t CircleData.t) :
  View.of_circles (JsMap.delete k m) = JsMap.delete k (View.of_circles m).
Proof.
  induction m as [| [k' d'] r IH]; simpl; [reflexivity |].
  destruct (Nat.eqb k k'); simpl; [exact IH | now rewrite <- IH].
Qed.

Lemma of_circles_size (m : JsMap.t CircleData.t) :
  JsMap.size (View.of_circles m) = JsMap.size m.
Proof. apply length_map. Qed.

Lemma of_circles_values (m : JsMap.t CircleData.t) :
  JsMap.values (View.of_circles m) = map View.of_disc (JsMap.values m).
Proof.
  unfold JsMap.values, View.of_circles. rewrite !map_map. reflexivity.
Qed.

Lemma of_circles_keys (m : JsMap.t CircleData.t) :
  JsMap.keys (View.of_circles m) = JsMap.keys m.
Proof.
  unfold JsMap.keys, View.of_circles. rewrite map_map. reflexivity.
Qed.

Lemma set_set_same {V : Type} (k : nat) (v v' : V) (m : JsMap.t V) :
  JsMap.set k v (JsMap.set k v' m) = JsMap.set k v m.
Proof.
  induction m as [| [k' w] r IH]; simpl.
  - now rewrite Nat.eqb_refl.
  - destruct (Nat.eqb k k') eqn:E; simpl.
    + now rewrite Nat.eqb_refl.
    + now rewrite E, IH.
Qed.

Lemma set_get_same {V : Type} (k : nat) (v : V) (m : JsMap.t V) :
  JsMap.get k m = Some v -> JsMap.set k v m = m.
Proof.
  induction m as [| [k' w] r IH]; simpl; [discriminate |].
  destruct (Nat.eqb k k') eqn:E.
  - intro H. apply Nat.eqb_eq in E. congruence.
  - intro H. now rewrite IH.
Qed.

(** A disc that only moves is the same disc of the view. *)
Lemma of_circles_move (k : nat) (d d' : CircleData.t) (m : JsMap.t CircleData.t) :
  JsMap.get k m = Some d ->
  View.of_disc d' = View.of_disc d ->
  View.of_circles (JsMap.set k d' m) = View.of_circles m.
Proof.
  intros G E. rewrite of_circles_set, E. apply set_get_same.
  now rewrite of_circles_get, G.
Qed.

Lemma createCircle_view (now x y : Q) (newValue : Z) (g : Game) :
  View.of_game (snd (createCircle now x y newValue g))
  = View.create newValue (View.of_game g).
Proof.
  unfold createCircle, View.create.
  cbn [View.of_game View.discs]. rewrite of_circles_size.
  destruct (cfg.maxCircles <=? _)%nat; [reflexivity |].
  fields. now rewrite of_circles_set.
Qed.

Lemma createCircle_none (now x y : Q) (newValue : Z) (g : Game) :
  fst (createCircle now x y newValue g) = None
  <-> (cfg.maxCircles <=? JsMap.size (State.circles (state g)))%nat = true.
Proof.
  unfold createCircle. destruct (cfg.maxCircles <=? _)%nat; cbn; split;
    congruence.
Qed.

Lemma removeCircle_view (k : nat) (g : Game) :
  View.of_game (removeCircle k g) = View.remove k (View.of_game g).
Proof.
  unfold removeCircle, View.remove.
  cbn [View.of_game View.discs]. rewrite of_circles_get.
  destruct (JsMap.get k _) as [d |]; fields; [| reflexivity].
  cbn [option_map]. fields. now rewrite of_circles_delete.
Qed.

Lemma mergeCompletion_view (now : Q) (a b : nat) (x y : Q) (newValue : Z)
    (g : Game) :
  View.of_game (mergeCompletion now a b x y newValue g)
  = View.complete a b newValue (View.of_game g).
Proof.
  unfold mergeCompletion, View.complete.
  rewrite <- !removeCircle_view.
  set (g2 := removeCircle b (removeCircle a g)).
  set (g3 := upd _ g2).
  change (View.unlock a b (View.of_game g2)) with (View.of_game g3).
  rewrite <- (createCircle_view now x y).
  unfold createCircle.
  destruct (cfg.maxCircles <=? _)%nat; [reflexivity |].
  fields. rewrite !of_circles_set. fields. now rewrite set_set_same.
Qed.

Lemma endGame_view (now : Q) (reason : string) (g : Game) :
  View.of_game (endGame now reason g) = View.finish (View.of_game g).
Proof.
  unfold endGame, View.finish. fields.
  destruct (State.ended (state g)) eqn:E; fields; rewrite ?E; reflexivity.
Qed.

Lemma togglePause_view (now : Q) (g : Game) :
  View.of_game (togglePause now g) = View.pause (View.of_game g).
Proof.
  unfold togglePause, View.pause. fields.
  destruct (State.ended (state g)) eqn:E; fields; rewrite ?E; reflexivity.
Qed.

Section WithMath.

Variable log2 : Q -> Q.
Variable sqrt : Q -> Q.
Variable cos : Q -> Q.
Variable sin : Q -> Q.
Variable PI : Q.
Variable random : nat -> Q.

Lemma dropAt_view (now x y : Q) (g : Game) :
  View.of_game (dropAt random now x y (State.nextValue (state g)) g)
  = View.drop (rolledAt random (randomCalls g)) (View.of_game g).
Proof.
  unfold dropAt, View.drop.
  rewrite <- createCircle_view with (now := now) (x := x) (y := y).
  unfold createCircle. fields. rewrite of_circles_size.
  destruct (cfg.maxCircles <=? _)%nat; [reflexivity |].
  reflexivity.
Qed.

Lemma performMerge_view (now : Q) (A B : CircleData.t) (x y : Q) (g : Game) :
  View.of_game (performMerge log2 cos sin PI random now A B x y g)
  = View.resolve now x y (View.of_disc A) (View.of_disc B)
      (now - lastBestSave g >? 1000) (View.of_game g).
Proof.
  unfold performMerge, View.resolve.
  match goal with
  | |- context [createMergeExplosion _ _ _ _ _ ?n ?a ?b ?c ?d ?v ?h] =>
      destruct (createMergeExplosion_frame log2 cos sin PI random n a b c d v h)
        as (p & k & E);
      rewrite E
  end.
  cbn [state upd with_state with_randomCalls with_particlePool State.score
       State.with_score State.with_animations State.with_mergingCircles
       State.best State.previewX State.nextValue State.running State.paused
       State.lastDropTs State.ended State.endReason State.circles
       State.nextLocalId State.mergingCircles State.animations
       State.mergeQueue State.highestCircleTop State.previewUpdateTime
       store particlePool engine board timers lastBestSave savedBest
       lastParticleUpdate targetFPS showModal toasts randomCalls].
  fields.
  destruct (_ <? _)%Z; [destruct (_ >? _) |]; reflexivity.
Qed.

End WithMath.

End ViewFacts.

(** ** Every step of the game is made of transitions of the view *)

Module StepFacts.
Import ViewFacts.

(** The loop of [restart] that takes the bodies of the discs out of the
    world. *)
Lemma restart_world (l : list CircleData.t) (h : Game) :
  fold_left
    (fun h data =>
       with_engine (Engine.remove (Body.id (CircleData.body data)) (engine h)) h)
    l h
  = with_engine
      (Engine.mk (Engine.timeScale (engine h))
         (fold_left (fun w d => JsSet.delete (View.bodyId d) w)
            (map View.of_disc l) (Engine.world (engine h)))
         (Engine.nextBodyId (engine h))) h.
Proof.
  revert h. induction l as [| d l IH]; intro h; cbn [fold_left map].
  - destruct h as [s st p [ts w n] b t l1 sb lp fps m to rc]. reflexivity.
  - rewrite IH. reflexivity.
Qed.

Lemma restart_view (random : nat -> Q) (now : Q) (g : Game) :
  View.of_game (restart random now g)
  = View.restart now (rolledAt random (randomCalls g)) (View.of_game g).
Proof.
  unfold restart. rewrite restart_world.
  unfold View.restart. fields. rewrite of_circles_values. reflexivity.
Qed.

Lemma runTimer_view (now : Q) (n : nat) (timer : Timer) (g : Game) :
  View.of_game (runTimer now timer (with_timers (removeAt n (timers g)) g))
  = View.fire n timer (View.of_game g).
Proof.
  unfold runTimer, View.fire. destruct timer as [due a b x y newValue | due].
  - rewrite mergeCompletion_view. reflexivity.
  - reflexivity.
Qed.

Lemma steps_one (rolled : Z -> Prop) (v1 v2 : View.t) :
  View.Step rolled v1 v2 -> View.Steps rolled v1 v2.
Proof. intro H. eapply View.steps_more; [apply View.steps_none | exact H]. Qed.

Lemma steps_trans (rolled : Z -> Prop) (v1 v2 v3 : View.t) :
  View.Steps rolled v1 v2 -> View.Steps rolled v2 v3 -> View.Steps rolled v1 v3.
Proof.
  intros H12 H23. induction H23 as [| v2 v3 v4 _ IH S]; [exact H12 |].
  eapply View.steps_more; [apply IH, H12 | exact S].
Qed.

Lemma steps_same (rolled : Z -> Prop) (v1 v2 : View.t) :
  v2 = v1 -> View.Steps rolled v1 v2.
Proof. intros ->. apply View.steps_none. Qed.

(** An invariant of the transitions is an invariant of their sequences. *)
Lemma steps_invariant (rolled : Z -> Prop) (I : View.t -> Prop) :
  (forall v v', View.Step rolled v v' -> I v -> I v') ->
  forall v v', View.Steps rolled v v' -> I v -> I v'.
Proof.
  intros P v v' H. induction H as [| v1 v2 v3 _ IH S]; [tauto |].
  intro H1. eapply P; [exact S | apply IH, H1].
Qed.

Lemma moved_view (ph : Physics) (m : JsMap.t CircleData.t) :
  View.of_circles
    (map (fun kv =>
            (fst kv,
             CircleData.with_body (moveBody ph (CircleData.body (snd kv)))
               (snd kv))) m)
  = View.of_circles m.
Proof.
  unfold View.of_circles. rewrite map_map. apply map_ext.
  intros [k d]. reflexivity.
Qed.

Lemma updateParticles_view (now : Q) (g : Game) :
  View.of_game (updateParticles now g) = View.of_game g.
Proof.
  unfold updateParticles. cbv zeta.
  destruct (_ <? _); [reflexivity |].
  destruct (fold_left _ _ _) as [p1 active]. reflexivity.
Qed.

Lemma animateOne_view (now : Q) (acc : Game * list nat)
    (binding : nat * Animation.t) :
  View.of_game (fst (animateOne now acc binding)) = View.of_game (fst acc).
Proof.
  destruct acc as [g toDelete], binding as [bodyId anim].
  unfold animateOne. cbv zeta.
  destruct (_ >=? _); [reflexivity |].
  destruct (Animation.type anim); [| reflexivity].
  destruct (JsMap.get bodyId _) as [data |] eqn:G; [| reflexivity].
  destruct (Animation.targetX anim); [| reflexivity].
  destruct (Animation.targetY anim); [| reflexivity].
  destruct (Animation.startX anim); [| reflexivity].
  destruct (Animation.startY anim); [| reflexivity].
  fields. now rewrite (of_circles_move bodyId data).
Qed.

Lemma updateAnimations_view (now : Q) (g : Game) :
  View.of_game (updateAnimations now g) = View.of_game g.
Proof.
  unfold updateAnimations.
  assert (F : forall l acc,
            View.of_game (fst (fold_left (animateOne now) l acc))
            = View.of_game (fst acc)).
  { induction l as [| b l IH]; intro acc; [reflexivity |].
    cbn [fold_left]. now rewrite IH, animateOne_view. }
  specialize (F (State.animations (state g)) (g, [])).
  destruct (fold_left _ _ _) as [g1 toDelete].
  cbn [fst] in F. rewrite <- F. reflexivity.
Qed.

Section WithMath.

Variable log2 : Q -> Q.
Variable sqrt : Q -> Q.
Variable cos : Q -> Q.
Variable sin : Q -> Q.
Variable PI : Q.
Variable random : nat -> Q.

#[local] Abbreviation Steps := (View.Steps (rolledBy random)).

Lemma engineUpdate_view (now : Q) (ph : Physics) (g : Game) :
  View.of_game (engineUpdate sqrt now ph g) = View.of_game g.
Proof.
  unfold engineUpdate. rewrite collisionStart_queue.
  fields. now rewrite moved_view.
Qed.

Lemma dropAt_steps (now x y : Q) (g : Game) :
  Steps (View.of_game g)
    (View.of_game (dropAt random now x y (State.nextValue (state g)) g)).
Proof.
  rewrite dropAt_view. apply steps_one, View.step_drop.
  now exists (randomCalls g).
Qed.

Lemma endGame_steps (now : Q) (reason : string) (g : Game) :
  Steps (View.of_game g) (View.of_game (endGame now reason g)).
Proof. rewrite endGame_view. apply steps_one, View.step_finish. Qed.

Lemma tryDrop_steps (now : Q) (g : Game) :
  Steps (View.of_game g) (View.of_game (tryDrop log2 sqrt random now g)).
Proof.
  unfold tryDrop.
  destruct (_ || _); [apply View.steps_none |].
  destruct (_ <? _); [apply View.steps_none |].
  cbv zeta. destruct (negb _); [| apply dropAt_steps].
  destruct (offsetSearch _ _ _ _ _ _ _ _ _); [apply dropAt_steps |].
  destruct (zigzagSearch _ _ _ _ _ _ _ _);
    [apply dropAt_steps | apply endGame_steps].
Qed.

Lemma drainQueue_steps (now : Q) (queue : list MergeRequest.t) (g : Game) :
  Steps (View.of_game g)
    (View.of_game (drainQueue log2 cos sin PI random now queue g)).
Proof.
  revert g. induction queue as [| request rest IH]; intro g;
    [apply View.steps_none |].
  cbn [drainQueue]. cbv zeta.
  set (g1 := upd (State.with_mergeQueue rest) g).
  eapply steps_trans; [| apply IH].
  change (View.of_game g) with (View.of_game g1).
  destruct (JsMap.get (MergeRequest.bodyAId request) _) as [A |] eqn:GA;
    [| apply View.steps_none].
  destruct (JsMap.get (MergeRequest.bodyBId request) _) as [B |] eqn:GB;
    [| apply View.steps_none].
  destruct (_ || _) eqn:L; [apply View.steps_none |].
  apply orb_false_elim in L as [LA LB].
  rewrite performMerge_view. apply steps_one.
  apply View.step_resolve
    with (a := MergeRequest.bodyAId request) (b := MergeRequest.bodyBId request).
  - fields. now rewrite of_circles_get, GA.
  - fields. now rewrite of_circles_get, GB.
  - exact LA.
  - exact LB.
Qed.

Lemma checkDangerLine_steps (now : Q) (g : Game) :
  Steps (View.of_game g) (View.of_game (checkDangerLine log2 now g)).
Proof.
  unfold checkDangerLine, dangerScan.
  destruct (_ >? _); [apply View.steps_none |].
  destruct (dangerCrossed _ _ _ _); [apply endGame_steps |].
  destruct (_ <? _)%nat; [| apply View.steps_none].
  destruct (_ <? _)%nat; [apply endGame_steps | apply View.steps_none].
Qed.

Lemma tick_steps (now : Q) (ph : Physics) (g : Game) :
  Steps (View.of_game g)
    (View.of_game (tick log2 sqrt cos sin PI random now ph g)).
Proof.
  unfold tick. destruct (_ && _); [| apply View.steps_none]. cbv zeta.
  eapply steps_trans; [| apply checkDangerLine_steps].
  change (View.of_game (updateHighestCircle log2 ?h)) with (View.of_game h).
  rewrite <- (engineUpdate_view now ph g) at 1.
  apply drainQueue_steps.
Qed.

Lemma fireTimer_steps (now : Q) (n : nat) (g : Game) :
  Steps (View.of_game g) (View.of_game (fireTimer now n g)).
Proof.
  unfold fireTimer.
  destruct (nth_error (timers g) n) as [timer |] eqn:N;
    [| apply View.steps_none].
  destruct (_ <=? _); [| apply View.steps_none].
  rewrite runTimer_view. apply steps_one, View.step_fire. exact N.
Qed.

Lemma step_steps (g : Game) (op : Op) :
  Steps (View.of_game g)
    (View.of_game (step log2 sqrt cos sin PI random g op)).
Proof.
  destruct op as [now | now | now ph | now | now n | now | now x | newBoard];
    cbn [step].
  - rewrite restart_view. apply steps_one, View.step_restart.
    now exists (randomCalls g).
  - apply tryDrop_steps.
  - apply tick_steps.
  - unfold frame. rewrite updateAnimations_view, updateParticles_view.
    apply View.steps_none.
  - apply fireTimer_steps.
  - rewrite togglePause_view. apply steps_one, View.step_pause.
  - apply steps_same. unfold updatePreview. cbv zeta.
    now destruct (_ <? _).
  - apply View.steps_none.
Qed.

Lemma run_steps (ops : list Op) (g : Game) :
  Steps (View.of_game g)
    (View.of_game (run log2 sqrt cos sin PI random ops g)).
Proof.
  revert g. induction ops as [| op ops IH]; intro g; [apply View.steps_none |].
  cbn [run fold_left]. eapply steps_trans; [apply step_steps | apply IH].
Qed.

(** An invariant of the view that holds when [initGame] has built the game
    and that every transition keeps holds after every run. *)
Lemma run_invariant (I : View.t -> Prop) (mounted now : Q) (b : Board)
    (best : Z) (fps : Q) (firstBodyId calls : nat) (ops : list Op) :
  (forall v v', View.Step (rolledBy random) v v' -> I v -> I v') ->
  I (View.of_game (initGame random mounted now b best fps firstBodyId calls)) ->
  I (View.of_game
       (run log2 sqrt cos sin PI random ops
          (startGame random mounted now b best fps firstBodyId calls))).
Proof.
  intros P H0.
  eapply steps_invariant; [exact P | apply run_steps |].
  unfold startGame.
  eapply P; [| exact H0].
  rewrite restart_view. apply View.step_restart.
  now exists (randomCalls (initGame random mounted now b best fps firstBodyId calls)).
Qed.

End WithMath.

End StepFacts.

(** ** The table of discs and the world of the engine *)

Module TableFacts.
Import ViewFacts StepFacts.

Section Maps.
Context {V : Type}.
Implicit Types (m : JsMap.t V) (k : nat) (v : V).

Lemma get_in k v m : JsMap.get k m = Some v -> In (k, v) m.
Proof.
  induction m as [| [k' v'] r IH]; simpl; [discriminate |].
  destruct (Nat.eqb k k') eqn:E.
  - intro H. apply Nat.eqb_eq in E. left. congruence.
  - intro H. right. apply IH, H.
Qed.

Lemma in_keys k v m : In (k, v) m -> In k (JsMap.keys m).
Proof. intro H. apply in_map_iff. now exists (k, v). Qed.

Lemma keys_in k m : In k (JsMap.keys m) -> exists v, In (k, v) m.
Proof.
  intro H. apply in_map_iff in H as [[k' v] [E I]]. simpl in E. subst k'.
  now exists v.
Qed.

Lemma get_none k m : ~ In k (JsMap.keys m) -> JsMap.get k m = None.
Proof.
  intro N. destruct (JsMap.get k m) as [v |] eqn:G; [| reflexivity].
  exfalso. apply N. eapply in_keys, get_in, G.
Qed.

Lemma set_fresh k v m : JsMap.get k m = None -> JsMap.set k v m = m ++ [(k, v)].
Proof.
  induction m as [| [k' v'] r IH]; simpl; [reflexivity |].
  destruct (Nat.eqb k k'); [discriminate |].
  intro H. now rewrite IH.
Qed.

Lemma in_map_delete k k' v m : In (k', v) (JsMap.delete k m) -> In (k', v) m /\ k' <> k.
Proof.
  unfold JsMap.delete. rewrite filter_In. simpl.
  rewrite negb_true_iff, Nat.eqb_neq. intuition congruence.
Qed.

Lemma keys_delete k m :
  JsMap.keys (JsMap.delete k m) = JsSet.delete k (JsMap.keys m).
Proof.
  unfold JsMap.keys, JsMap.delete, JsSet.delete.
  induction m as [| [k' v'] r IH]; simpl; [reflexivity |].
  destruct (Nat.eqb k k'); simpl; now rewrite IH.
Qed.

Lemma get_of_in k v m : NoDup (JsMap.keys m) -> In (k, v) m -> JsMap.get k m = Some v.
Proof.
  induction m as [| [k' v'] r IH]; simpl; [tauto |].
  intros N [E | I].
  - inversion E. subst. now rewrite Nat.eqb_refl.
  - inversion N as [| ? ? N1 N2]. subst.
    destruct (Nat.eqb k k') eqn:E.
    + apply Nat.eqb_eq in E. subst k'. exfalso. apply N1.
      eapply in_keys, I.
    + apply IH; assumption.
Qed.

End Maps.

Lemma NoDup_snoc {A : Type} (l : list A) (a : A) :
  NoDup l -> ~ In a l -> NoDup (l ++ [a]).
Proof.
  intros N I. rewrite <- (rev_involutive (l ++ [a])). apply NoDup_rev.
  rewrite rev_app_distr. simpl. constructor; [| apply NoDup_rev, N].
  now rewrite <- in_rev.
Qed.

Lemma in_values {V : Type} (v : V) (m : JsMap.t V) :
  In v (JsMap.values m) -> exists k, In (k, v) m.
Proof.
  intro H. apply in_map_iff in H as [[k v'] [E I]]. simpl in E. subst v'.
  now exists k.
Qed.

(** Taking a disc out of the table keeps the local identifiers distinct. *)
Lemma localIds_delete (k : nat) (m : JsMap.t View.Disc) :
  NoDup (map View.localId (JsMap.values m)) ->
  NoDup (map View.localId (JsMap.values (JsMap.delete k m))).
Proof.
  induction m as [| [k' d] r IH]; cbn; [tauto |].
  intro N. inversion N as [| ? ? Fresh Rest]. subst.
  destruct (Nat.eqb k k'); cbn; [apply IH, Rest |].
  constructor; [| apply IH, Rest].
  intro I. apply Fresh.
  apply in_map_iff in I as [d' [E I]]. apply in_map_iff. exists d'.
  split; [exact E |].
  apply in_values in I as [j I]. apply in_map_delete in I as [I _].
  apply in_map_iff. now exists (j, d').
Qed.

(** [createCircle] keeps the table and the world together. *)
Lemma create_table (newValue : Z) (v : View.t) :
  Inv.table v -> Inv.table (View.create newValue v).
Proof.
  intros (W & N & K & L). unfold View.create.
  destruct (cfg.maxCircles <=? _)%nat; [exact (conj W (conj N (conj K L))) |].
  assert (F : ~ In (View.nextBodyId v) (JsMap.keys (View.discs v))).
  { intro I. apply keys_in in I as [d I]. apply K in I. lia. }
  unfold Inv.table. cbn [View.discs View.world View.nextBodyId View.nextLocalId].
  rewrite (set_fresh _ _ _ (get_none _ _ F)).
  unfold JsMap.keys, JsMap.values in *. rewrite !map_app. cbn [map fst snd].
  split; [now rewrite W |]. split; [apply NoDup_snoc; assumption |]. split.
  - intros k d I. apply in_app_or in I as [I | [E | []]].
    + apply K in I. lia.
    + inversion E. subst. cbn. lia.
  - apply NoDup_snoc; [exact L |]. cbn.
    rewrite in_map_iff. intros [d [E I]].
    apply (in_values d (View.discs v)) in I as [k I]. apply K in I. lia.
Qed.

(** [removeCircle] keeps the table and the world together. *)
Lemma remove_table (k : nat) (v : View.t) :
  Inv.table v -> Inv.table (View.remove k v).
Proof.
  intros (W & N & K & L). unfold View.remove.
  destruct (JsMap.get k (View.discs v)) as [d |] eqn:G;
    [| exact (conj W (conj N (conj K L)))].
  assert (B : View.bodyId d = k) by (apply get_in, K in G; tauto).
  unfold Inv.table. cbn [View.discs View.world View.nextBodyId View.nextLocalId].
  rewrite B, keys_delete, W.
  split; [reflexivity |]. split; [apply NoDup_filter, N |]. split.
  - intros k' d' I. apply in_map_delete in I as [I _]. apply K, I.
  - apply localIds_delete, L.
Qed.

(** The loop of [restart] takes every body of the table out of the world. *)
Lemma restart_empties_world (ds : list View.Disc) (w : JsSet.t) (k : nat) :
  In k (fold_left (fun w d => JsSet.delete (View.bodyId d) w) ds w) ->
  In k w /\ forall d, In d ds -> View.bodyId d <> k.
Proof.
  revert w. induction ds as [| d ds IH]; intros w I; cbn [fold_left] in I.
  - split; [exact I | intros d []].
  - apply IH in I as [I R]. apply StoreFacts.in_delete in I as [D I].
    split; [exact I |]. intros d' [<- | I']; [congruence | apply R, I'].
Qed.

Lemma restart_table (now : Q) (rolled : Z) (v : View.t) :
  Inv.table v -> Inv.table (View.restart now rolled v).
Proof.
  intros (W & N & K & L). unfold Inv.table, View.restart.
  cbn [View.discs View.world View.nextBodyId View.nextLocalId JsMap.empty
       JsMap.keys JsMap.values map].
  split; [| split; [constructor | split; [intros k d [] | constructor]]].
  destruct (fold_left _ _ _) as [| k r] eqn:F; [reflexivity |].
  exfalso.
  assert (I : In k (fold_left (fun w d => JsSet.delete (View.bodyId d) w)
                      (JsMap.values (View.discs v)) (View.world v)))
    by (rewrite F; now left).
  apply restart_empties_world in I as [I R]. rewrite W in I.
  apply keys_in in I as [d I]. apply (R d).
  - apply in_map_iff. now exists (k, d).
  - apply K in I. tauto.
Qed.

Lemma step_table (rolled : Z -> Prop) (v v' : View.t) :
  View.Step rolled v v' -> Inv.table v -> Inv.table v'.
Proof.
  intros S T. destruct S as [r v _ | v | now x y a b A B save v _ _ _ _
                             | n timer v _ | now r v _ | v].
  - unfold View.drop.
    pose proof (create_table (View.nextValue v) v T) as C.
    destruct (cfg.maxCircles <=? _)%nat; [exact T | exact C].
  - unfold View.finish. destruct (View.ended v); exact T.
  - exact T.
  - unfold View.fire. destruct timer as [due a b x y newValue | due];
      [| exact T].
    unfold View.complete. apply create_table.
    change (Inv.table (View.remove b (View.remove a
              (View.mk (View.discs v) (View.world v) (View.nextBodyId v)
                 (View.nextLocalId v) (View.merging v)
                 (removeAt n (View.pending v)) (View.score v) (View.best v)
                 (View.saved v) (View.nextValue v) (View.running v)
                 (View.paused v) (View.ended v))))).
    apply remove_table, remove_table. exact T.
  - apply restart_table, T.
  - unfold View.pause. destruct (View.ended v); exact T.
Qed.

Lemma initGame_view (random : nat -> Q) (mounted now : Q) (b : Board)
    (best : Z) (fps : Q) (firstBodyId calls : nat) :
  View.of_game (initGame random mounted now b best fps firstBodyId calls)
  = View.mk [] [] firstBodyId 1 [] [] 0 best best (rolledAt random calls)
      false false false.
Proof. reflexivity. Qed.

End TableFacts.

(** X14. In every game that a run reaches, the table of discs and the world
    of the physics engine hold the same bodies, in the same order; no body
    is filed twice; every disc is filed under the identifier of its own
    body, which is older than the counter of the engine; and the discs have
    distinct local identifiers, all older than [nextLocalId]. *)
Theorem table_and_world_in_step (log2 sqrt cos sin : Q -> Q) (PI : Q)
    (random : nat -> Q) (mounted now : Q) (b : Board) (best : Z) (fps : Q)
    (firstBodyId calls : nat) (ops : list Op) :
  let g := run log2 sqrt cos sin PI random ops
             (startGame random mounted now b best fps firstBodyId calls) in
  Engine.world (engine g) = JsMap.keys (State.circles (state g))
  /\ NoDup (JsMap.keys (State.circles (state g)))
  /\ (forall k d, JsMap.get k (State.circles (state g)) = Some d ->
        Body.id (CircleData.body d) = k
        /\ (k < Engine.nextBodyId (engine g))%nat
        /\ (CircleData.id d < State.nextLocalId (state g))%nat)
  /\ NoDup (map CircleData.id (JsMap.values (State.circles (state g)))).
Proof.
  intro g.
  assert (T : Inv.table (View.of_game g)).
  { apply StepFacts.run_invariant.
    - apply TableFacts.step_table.
    - rewrite TableFacts.initGame_view. unfold Inv.table.
      cbn [View.discs View.world JsMap.keys JsMap.values map].
      split; [reflexivity |]. split; [constructor |].
      split; [intros k d [] | constructor]. }
  destruct T as (W & N & K & L).
  cbn [View.of_game View.discs View.world View.nextBodyId View.nextLocalId]
    in W, N, K, L.
  rewrite ViewFacts.of_circles_keys in W, N.
  split; [exact W |]. split; [exact N |]. split.
  - intros k d G. apply TableFacts.get_in in G.
    apply (K k (View.of_disc d)).
    apply in_map_iff. now exists (k, d).
  - rewrite ViewFacts.of_circles_values, map_map in L. exact L.
Qed.


(** After two drops and the fixed step in which the two discs touch, the
    disc of body 4 is filed under 4. *)
Lemma table_and_world_in_step_witness :
  let g := run exLog2 exSqrt exCos exSin exPI exRandom
             [OpTryDrop 1000; OpTryDrop 2000; OpTick 3000 exCollision]
             (startGame exRandom 0 100 desktop 0 60 4 0) in
  Engine.world (engine g) = JsMap.keys (State.circles (state g))
  /\ exists d,
       JsMap.get 4 (State.circles (state g)) = Some d
       /\ Body.id (CircleData.body d) = 4%nat
       /\ (4 < Engine.nextBodyId (engine g))%nat
       /\ (CircleData.id d < State.nextLocalId (state g))%nat.
Proof.
  intro g.
  destruct (table_and_world_in_step exLog2 exSqrt exCos exSin exPI exRandom
              0 100 desktop 0 60 4 0
              [OpTryDrop 1000; OpTryDrop 2000; OpTick 3000 exCollision])
    as (W & _ & K & _).
  split; [exact W |].
  assert (H : JsMap.has 4 (State.circles (state g)) = true)
    by (vm_compute; reflexivity).
  unfold JsMap.has in H.
  destruct (JsMap.get 4 (State.circles (state g))) as [d |] eqn:G;
    [| discriminate].
  exists d. split; [reflexivity |]. apply K. exact G.
Defined.

(** ** The values in play *)

Module ValueFacts.
Import ViewFacts StepFacts TableFacts.

Lemma rolledAt_in (random : nat -> Q) (n : nat) :
  0 <= random n < 1 -> In (rolledAt random n) cfg.valueDist.
Proof.
  intros [L U]. unfold rolledAt, TypedArray.read, Num.floor.
  change (inject_Z (Z.of_nat (List.length cfg.valueDist))) with 10.
  set (q := random n * 10).
  assert (Q0 : 0 <= q < 10) by (unfold q; lra).
  pose proof (Qfloor_le q) as F1. pose proof (Qlt_floor q) as F2.
  assert (Z0 : (0 <= Qfloor q < 10)%Z).
  { split.
    - assert (H : inject_Z 0 < inject_Z (Qfloor q + 1)) by (change (inject_Z 0) with 0; lra).
      rewrite <- Zlt_Qlt in H. lia.
    - assert (H : inject_Z (Qfloor q) < inject_Z 10) by (change (inject_Z 10) with 10; lra).
      now rewrite <- Zlt_Qlt in H. }
  destruct (Qfloor q <? 0)%Z eqn:N; [lia |].
  apply nth_In. change (List.length cfg.valueDist) with 10%nat. lia.
Qed.

Lemma valueDist_powers (z : Z) : In z cfg.valueDist -> Inv.powerOfTwo z.
Proof.
  cbn. intros H.
  repeat (destruct H as [<- | H];
          [first [now exists 1%Z | now exists 2%Z | now exists 3%Z
                 | now exists 4%Z | now exists 5%Z] |]).
  destruct H.
Qed.

Lemma double_power (z : Z) : Inv.powerOfTwo z -> Inv.powerOfTwo (z * 2).
Proof.
  intros [k [K ->]]. exists (k + 1)%Z. split; [lia |].
  rewrite Z.pow_add_r by lia. reflexivity.
Qed.

Lemma in_set {V : Type} (k k' : nat) (v v' : V) (m : JsMap.t V) :
  In (k', v') (JsMap.set k v m) -> (k', v') = (k, v) \/ In (k', v') m.
Proof.
  induction m as [| [k0 v0] r IH]; simpl.
  - intros [E | []]. now left.
  - destruct (Nat.eqb k k0); simpl.
    + intros [E | I]; [now left | right; now right].
    + intros [E | I]; [right; now left |].
      destruct (IH I) as [E | I']; [now left | right; now right].
Qed.

Lemma in_removeAt {A : Type} (n : nat) (a : A) (l : list A) :
  In a (removeAt n l) -> In a l.
Proof.
  revert n. induction l as [| b l IH]; intros [| n]; simpl; try tauto.
  intros [E | I]; [now left | right; apply (IH n), I].
Qed.

Lemma create_values (newValue : Z) (v : View.t) :
  Inv.powerOfTwo newValue -> Inv.values v -> Inv.values (View.create newValue v).
Proof.
  intros P (D & N & T). unfold View.create.
  destruct (cfg.maxCircles <=? _)%nat; [exact (conj D (conj N T)) |].
  split; [| split; [exact N | exact T]].
  cbn [View.discs]. intros k d I. apply in_set in I as [E | I].
  - inversion E. subst. exact P.
  - apply (D k d I).
Qed.

Lemma remove_values (k : nat) (v : View.t) :
  Inv.values v -> Inv.values (View.remove k v).
Proof.
  intros (D & N & T). unfold View.remove.
  destruct (JsMap.get k (View.discs v)); [| exact (conj D (conj N T))].
  split; [| split; [exact N | exact T]].
  cbn [View.discs]. intros k' d' I. apply in_map_delete in I as [I _].
  apply (D k' d' I).
Qed.

Lemma step_values (rolled : Z -> Prop) (v v' : View.t) :
  (forall r, rolled r -> In r cfg.valueDist) ->
  View.Step rolled v v' -> Inv.values v -> Inv.values v'.
Proof.
  intros R S I. destruct S as [r v Hr | v | now x y a b A B save v GA _ _ _
                               | n timer v Hn | now r v Hr | v].
  - unfold View.drop.
    pose proof (create_values (View.nextValue v) v
                  (valueDist_powers _ (proj1 (proj2 I))) I)
      as (D & _ & T).
    destruct (cfg.maxCircles <=? _)%nat; [exact I |].
    split; [exact D | split; [apply R, Hr | exact T]].
  - unfold View.finish. destruct (View.ended v); exact I.
  - destruct I as (D & N & T).
    split; [exact D | split; [exact N |]].
    cbn [View.pending]. intros due a' b' x' y' nv In'.
    apply in_app_or in In' as [In' | [E | []]]; [apply (T _ _ _ _ _ _ In') |].
    inversion E. subst. apply double_power.
    apply get_in in GA. apply (D _ _ GA).
  - destruct I as (D & N & T).
    assert (I1 : Inv.values
                   (View.mk (View.discs v) (View.world v) (View.nextBodyId v)
                      (View.nextLocalId v) (View.merging v)
                      (removeAt n (View.pending v)) (View.score v)
                      (View.best v) (View.saved v) (View.nextValue v)
                      (View.running v) (View.paused v) (View.ended v))).
    { split; [exact D | split; [exact N |]].
      cbn [View.pending]. intros due a b x y nv In'.
      apply in_removeAt in In'. apply (T _ _ _ _ _ _ In'). }
    unfold View.fire. destruct timer as [due a b x y newValue | due];
      [| exact I1].
    unfold View.complete. apply create_values.
    + apply nth_error_In in Hn. apply (T _ _ _ _ _ _ Hn).
    + apply (remove_values a), (remove_values b) in I1.
      destruct I1 as (D1 & N1 & T1). split; [exact D1 | split; [exact N1 | exact T1]].
  - destruct I as (D & N & T).
    split; [intros k d [] | split; [apply R, Hr |]].
    cbn [View.pending]. intros due a b x y nv In'.
    apply in_app_or in In' as [In' | [E | []]]; [apply (T _ _ _ _ _ _ In') |].
    discriminate.
  - unfold View.pause. destruct (View.ended v); exact I.
Qed.

(** The invariant of the values after a run, when [Math.random] is in
    range. *)
Lemma run_values (log2 sqrt cos sin : Q -> Q) (PI : Q) (random : nat -> Q)
    (mounted now : Q) (b : Board) (best : Z) (fps : Q)
    (firstBodyId calls : nat) (ops : list Op) :
  (forall n, 0 <= random n < 1) ->
  Inv.values
    (View.of_game
       (run log2 sqrt cos sin PI random ops
          (startGame random mounted now b best fps firstBodyId calls))).
Proof.
  intro R.
  assert (P : forall r, rolledBy random r -> In r cfg.valueDist).
  { intros r [n ->]. apply rolledAt_in, R. }
  apply StepFacts.run_invariant.
  - intros v v'. apply step_values. exact P.
  - rewrite TableFacts.initGame_view.
    split; [intros k d [] | split; [| intros ? ? ? ? ? ? []]].
    apply P. now exists calls.
Qed.

End ValueFacts.

(** X15. When [Math.random] stays in the interval from 0 to 1, as it does,
    every value in play is a power of two, from 2 up: the value of every
    disc of the table and the value that every pending merge completion
    will create; and the value of the next disc is one of the values of
    [cfg.valueDist]. *)
Theorem values_are_powers_of_two (log2 sqrt cos sin : Q -> Q) (PI : Q)
    (random : nat -> Q) (mounted now : Q) (b : Board) (best : Z) (fps : Q)
    (firstBodyId calls : nat) (ops : list Op) :
  (forall n, 0 <= random n < 1) ->
  let g := run log2 sqrt cos sin PI random ops
             (startGame random mounted now b best fps firstBodyId calls) in
  (forall d, In d (JsMap.values (State.circles (state g))) ->
     Inv.powerOfTwo (CircleData.value d))
  /\ In (State.nextValue (state g)) cfg.valueDist
  /\ (forall due a b x y newValue,
        In (MergeCompletion due a b x y newValue) (timers g) ->
        Inv.powerOfTwo newValue).
Proof.
  intros R g.
  destruct (ValueFacts.run_values log2 sqrt cos sin PI random mounted now b
              best fps firstBodyId calls ops R) as (D & N & T).
  split; [| split; [exact N | exact T]].
  intros d I. apply TableFacts.in_values in I as [k I].
  apply (D k (View.of_disc d)).
  apply in_map_iff. now exists (k, d).
Qed.

(** With [Math.random] at 0: after two drops and the fixed step in which
    the two discs touch, the next value is one that can be rolled and the
    value 4 of the pending completion is a power of two. *)
Lemma values_are_powers_of_two_witness :
  let g := run exLog2 exSqrt exCos exSin exPI exRandom
             [OpTryDrop 1000; OpTryDrop 2000; OpTick 3000 exCollision]
             (startGame exRandom 0 100 desktop 0 60 4 0) in
  In (State.nextValue (state g)) cfg.valueDist /\ Inv.powerOfTwo 4.
Proof.
  intro g.
  destruct (values_are_powers_of_two exLog2 exSqrt exCos exSin exPI exRandom
              0 100 desktop 0 60 4 0
              [OpTryDrop 1000; OpTryDrop 2000; OpTick 3000 exCollision])
    as (_ & N & T).
  { intro n. unfold exRandom. lra. }
  split; [exact N |].
  apply (T (3000 + 300) 4%nat 5%nat ((300 + 232) / 2) ((766 + 766) / 2)).
  apply nth_error_In with (n := 1%nat). vm_compute. reflexivity.
Defined.

(** ** The scores and the flags of the session *)

Module SessionFacts.
Import ViewFacts StepFacts TableFacts.

(** What [createCircle], [removeCircle] and a merge completion leave as it
    is. *)
Lemma create_frame (newValue : Z) (v : View.t) :
  let v' := View.create newValue v in
  View.merging v' = View.merging v /\ View.pending v' = View.pending v
  /\ View.score v' = View.score v /\ View.best v' = View.best v
  /\ View.saved v' = View.saved v /\ View.nextValue v' = View.nextValue v
  /\ View.running v' = View.running v /\ View.paused v' = View.paused v
  /\ View.ended v' = View.ended v.
Proof.
  unfold View.create. destruct (cfg.maxCircles <=? _)%nat; repeat split.
Qed.

Lemma remove_frame (k : nat) (v : View.t) :
  let v' := View.remove k v in
  View.nextBodyId v' = View.nextBodyId v
  /\ View.nextLocalId v' = View.nextLocalId v
  /\ View.pending v' = View.pending v
  /\ View.score v' = View.score v /\ View.best v' = View.best v
  /\ View.saved v' = View.saved v /\ View.nextValue v' = View.nextValue v
  /\ View.running v' = View.running v /\ View.paused v' = View.paused v
  /\ View.ended v' = View.ended v.
Proof.
  unfold View.remove. destruct (JsMap.get k (View.discs v)); repeat split.
Qed.

Lemma complete_frame (a b : nat) (newValue : Z) (v : View.t) :
  let v' := View.complete a b newValue v in
  View.pending v' = View.pending v
  /\ View.score v' = View.score v /\ View.best v' = View.best v
  /\ View.saved v' = View.saved v /\ View.nextValue v' = View.nextValue v
  /\ View.running v' = View.running v /\ View.paused v' = View.paused v
  /\ View.ended v' = View.ended v.
Proof.
  cbv zeta. unfold View.complete.
  pose proof (remove_frame a v) as Ra.
  pose proof (remove_frame b (View.remove a v)) as Rb.
  pose proof (create_frame newValue
                (View.unlock a b (View.remove b (View.remove a v)))) as C.
  cbv zeta in Ra, Rb, C.
  set (v1 := View.remove a v) in *.
  set (v2 := View.remove b v1) in *.
  set (v3 := View.create newValue (View.unlock a b v2)) in *.
  cbn [View.unlock View.merging View.pending View.score View.best View.saved
       View.nextValue View.running View.paused View.ended] in C.
  clearbody v1 v2 v3.
  destruct Ra as (_ & _ & A3 & A4 & A5 & A6 & A7 & A8 & A9 & A10).
  destruct Rb as (_ & _ & B3 & B4 & B5 & B6 & B7 & B8 & B9 & B10).
  destruct C as (_ & C3 & C4 & C5 & C6 & C7 & C8 & C9 & C10).
  repeat split; congruence.
Qed.

Lemma fire_frame (n : nat) (timer : Timer) (v : View.t) :
  let v' := View.fire n timer v in
  View.pending v' = removeAt n (View.pending v)
  /\ View.score v' = View.score v /\ View.best v' = View.best v
  /\ View.saved v' = View.saved v /\ View.nextValue v' = View.nextValue v
  /\ View.running v' = View.running v /\ View.paused v' = View.paused v
  /\ View.ended v' = View.ended v.
Proof.
  cbv zeta. unfold View.fire. cbv zeta.
  destruct timer as [due a b x y newValue | due]; [| repeat split].
  match goal with
  | |- context [View.complete a b newValue ?w] =>
      exact (complete_frame a b newValue w)
  end.
Qed.

Lemma drop_frame (rolled : Z) (v : View.t) :
  let v' := View.drop rolled v in
  View.merging v' = View.merging v /\ View.pending v' = View.pending v
  /\ View.score v' = View.score v /\ View.best v' = View.best v
  /\ View.saved v' = View.saved v
  /\ View.running v' = View.running v /\ View.paused v' = View.paused v
  /\ View.ended v' = View.ended v.
Proof.
  unfold View.drop, View.create.
  destruct (cfg.maxCircles <=? _)%nat; repeat split.
Qed.

Lemma step_scores (rolled : Z -> Prop) (best0 : Z) (v v' : View.t) :
  View.Step rolled v v' -> Inv.scores best0 v -> Inv.scores best0 v'.
Proof.
  intros S (B0 & B & Sc & Sv).
  destruct S as [r v _ | v | now x y a b A B' save v _ _ _ _
                 | n timer v _ | now r v _ | v];
    unfold Inv.scores.
  - destruct (drop_frame r v) as (_ & _ & -> & -> & -> & _). tauto.
  - unfold View.finish. destruct (View.ended v); tauto.
  - unfold View.resolve. cbv zeta. cbn [View.score View.best View.saved].
    destruct (View.best v <? _)%Z eqn:E;
      [apply Z.ltb_lt in E | apply Z.ltb_ge in E];
      destruct save; cbn [andb]; repeat split; lia.
  - destruct (fire_frame n timer v) as (_ & -> & -> & -> & _). tauto.
  - cbn [View.restart View.score View.best View.saved]. repeat split; lia.
  - unfold View.pause. destruct (View.ended v); tauto.
Qed.

Lemma step_flags (rolled : Z -> Prop) (v v' : View.t) :
  View.Step rolled v v' -> Inv.flags v -> Inv.flags v'.
Proof.
  unfold Inv.flags. intros S F.
  destruct S as [r v _ | v | now x y a b A B' save v _ _ _ _
                 | n timer v _ | now r v _ | v].
  - destruct (drop_frame r v) as (_ & _ & _ & _ & _ & -> & _ & ->). exact F.
  - unfold View.finish.
    destruct (View.ended v) eqn:E; [rewrite ?E; exact F | reflexivity].
  - exact F.
  - destruct (fire_frame n timer v) as (_ & _ & _ & _ & _ & -> & _ & ->).
    exact F.
  - reflexivity.
  - unfold View.pause.
    destruct (View.ended v) eqn:E; cbn [View.running View.ended];
      rewrite ?E; exact F.
Qed.

Lemma step_fourfold (rolled : Z -> Prop) (v v' : View.t) :
  View.Step rolled v v' ->
  Inv.values v /\ Inv.fourfold v -> Inv.fourfold v'.
Proof.
  unfold Inv.fourfold. intros S [(D & _ & _) (k & K & E)].
  destruct S as [r v _ | v | now x y a b A B' save v GA _ _ _
                 | n timer v _ | now r v _ | v].
  - destruct (drop_frame r v) as (_ & _ & -> & _). now exists k.
  - unfold View.finish. destruct (View.ended v); now exists k.
  - apply get_in in GA. destruct (D _ _ GA) as (j & J & EA).
    exists (k + 2 ^ (j - 1))%Z. cbn [View.resolve View.score].
    unfold cfg.scoreMul. rewrite E, EA.
    assert (P : (2 ^ j = 2 * 2 ^ (j - 1))%Z).
    { replace j with (1 + (j - 1))%Z at 1 by lia.
      rewrite Z.pow_add_r by lia. reflexivity. }
    assert (0 <= 2 ^ (j - 1))%Z by (apply Z.pow_nonneg; lia).
    split; lia.
  - destruct (fire_frame n timer v) as (_ & -> & _). now exists k.
  - exists 0%Z. cbn [View.restart View.score]. split; lia.
  - unfold View.pause. destruct (View.ended v); now exists k.
Qed.

End SessionFacts.

(** X16. With a best score that is not negative when the game starts, in
    every game that a run reaches the best score is at least the score of
    the session, at least the best score that was saved, and at least the
    best score of the start: it never decreases. *)
Theorem best_score_dominates (log2 sqrt cos sin : Q -> Q) (PI : Q)
    (random : nat -> Q) (mounted now : Q) (b : Board) (best : Z) (fps : Q)
    (firstBodyId calls : nat) (ops : list Op) :
  (0 <= best)%Z ->
  let g := run log2 sqrt cos sin PI random ops
             (startGame random mounted now b best fps firstBodyId calls) in
  (best <= State.best (state g))%Z
  /\ (State.score (state g) <= State.best (state g))%Z
  /\ (savedBest g <= State.best (state g))%Z.
Proof.
  intros B g.
  assert (I : Inv.scores best (View.of_game g)).
  { apply StepFacts.run_invariant.
    - intros v v'. apply SessionFacts.step_scores.
    - rewrite TableFacts.initGame_view. unfold Inv.scores. cbn. lia. }
  destruct I as (_ & I1 & I2 & I3). auto.
Qed.

Lemma best_score_dominates_witness :
  let g := run exLog2 exSqrt exCos exSin exPI exRandom exEnded
             (startGame exRandom 0 100 desktop 12 60 4 0) in
  (12 <= State.best (state g))%Z
  /\ (State.score (state g) <= State.best (state g))%Z
  /\ (savedBest g <= State.best (state g))%Z.
Proof.
  apply best_score_dominates. lia.
Defined.

(** X17. In every game that a run reaches, [state.running] is the negation
    of [state.ended]: the session runs from [restart] until [endGame], and
    pausing does not stop it. *)
Theorem running_until_ended (log2 sqrt cos sin : Q -> Q) (PI : Q)
    (random : nat -> Q) (mounted now : Q) (b : Board) (best : Z) (fps : Q)
    (firstBodyId calls : nat) (ops : list Op) :
  let g := run log2 sqrt cos sin PI random ops
             (startGame random mounted now b best fps firstBodyId calls) in
  State.running (state g) = negb (State.ended (state g)).
Proof.
  intro g.
  change (Inv.flags (View.of_game g)).
  eapply StepFacts.steps_invariant;
    [apply SessionFacts.step_flags | apply StepFacts.run_steps |].
  unfold startGame. rewrite StepFacts.restart_view. reflexivity.
Qed.

(** X18. Once the session has ended, a drop, a fixed step, a pause toggle
    and a second [endGame] leave the game exactly as it is, until
    [restart]. *)
Theorem ended_session_is_frozen (log2 sqrt cos sin : Q -> Q) (PI : Q)
    (random : nat -> Q) (mounted now : Q) (b : Board) (best : Z) (fps : Q)
    (firstBodyId calls : nat) (ops : list Op) (now' : Q) (ph : Physics)
    (reason : string) :
  let g := run log2 sqrt cos sin PI random ops
             (startGame random mounted now b best fps firstBodyId calls) in
  State.ended (state g) = true ->
  tryDrop log2 sqrt random now' g = g
  /\ tick log2 sqrt cos sin PI random now' ph g = g
  /\ togglePause now' g = g
  /\ endGame now' reason g = g.
Proof.
  intros g E.
  pose proof (running_until_ended log2 sqrt cos sin PI random mounted now b
                best fps firstBodyId calls ops) as R.
  cbv zeta in R. fold g in R. clearbody g. rewrite E in R. cbn [negb] in R.
  unfold tryDrop, tick, togglePause, endGame. rewrite E, R.
  cbn [negb orb andb]. auto.
Qed.

Lemma ended_session_is_frozen_witness :
  let g := run exLog2 exSqrt exCos exSin exPI exRandom exEnded
             (startGame exRandom 0 100 desktop 0 60 4 0) in
  tryDrop exLog2 exSqrt exRandom 5000 g = g
  /\ tick exLog2 exSqrt exCos exSin exPI exRandom 5000 exStill g = g
  /\ togglePause 5000 g = g
  /\ endGame 5000 "again" g = g.
Proof.
  apply ended_session_is_frozen.
  vm_compute. reflexivity.
Defined.

(** X26. When [Math.random] stays in the interval from 0 to 1, the score of
    every game that a run reaches is a multiple of 4 and is not negative:
    every merge adds the double of a power of two. *)
Theorem score_is_fourfold (log2 sqrt cos sin : Q -> Q) (PI : Q)
    (random : nat -> Q) (mounted now : Q) (b : Board) (best : Z) (fps : Q)
    (firstBodyId calls : nat) (ops : list Op) :
  (forall n, 0 <= random n < 1) ->
  let g := run log2 sqrt cos sin PI random ops
             (startGame random mounted now b best fps firstBodyId calls) in
  exists k : Z, (0 <= k)%Z /\ State.score (state g) = (4 * k)%Z.
Proof.
  intros R g.
  assert (P : forall r, rolledBy random r -> In r cfg.valueDist).
  { intros r [n ->]. apply ValueFacts.rolledAt_in, R. }
  assert (I : Inv.values (View.of_game g) /\ Inv.fourfold (View.of_game g)).
  { apply (StepFacts.run_invariant log2 sqrt cos sin PI random
             (fun v => Inv.values v /\ Inv.fourfold v)).
    - intros v v' S I. split.
      + eapply ValueFacts.step_values; [exact P | exact S | apply I].
      + eapply SessionFacts.step_fourfold; [exact S | exact I].
    - rewrite TableFacts.initGame_view. split.
      + split; [intros k d [] | split; [| intros ? ? ? ? ? ? []]].
        apply P. now exists calls.
      + exists 0%Z. cbn. split; lia. }
  exact (proj2 I).
Qed.

Lemma score_is_fourfold_witness :
  let g := run exLog2 exSqrt exCos exSin exPI exRandom
             [OpTryDrop 1000; OpTryDrop 2000; OpTick 3000 exCollision]
             (startGame exRandom 0 100 desktop 0 60 4 0) in
  exists k : Z, (0 <= k)%Z /\ State.score (state g) = (4 * k)%Z.
Proof.
  apply score_is_fourfold.
  intro n. unfold exRandom. lra.
Defined.

(** ** The mid-merge lock *)

Module LockFacts.
Import ViewFacts StepFacts TableFacts ValueFacts SessionFacts.

Lemma key_has_value {V : Type} (k : nat) (m : JsMap.t V) :
  In k (JsMap.keys m) -> JsMap.get k m <> None.
Proof.
  intros I E. apply keys_in in I as [v I].
  induction m as [| [k' v'] r IH]; simpl in *; [tauto |].
  destruct (Nat.eqb k k') eqn:Q; [discriminate |].
  destruct I as [I | I]; [| apply IH; assumption].
  inversion I. subst. now rewrite Nat.eqb_refl in Q.
Qed.

Lemma keys_set {V : Type} (k k' : nat) (v : V) (m : JsMap.t V) :
  In k' (JsMap.keys (JsMap.set k v m)) -> k' = k \/ In k' (JsMap.keys m).
Proof.
  intro I. apply keys_in in I as [v' I]. apply in_set in I as [E | I].
  - left. congruence.
  - right. eapply in_keys, I.
Qed.

Lemma create_effect (newValue : Z) (v : View.t) :
  let v' := View.create newValue v in
  View.merging v' = View.merging v
  /\ View.pending v' = View.pending v
  /\ (View.nextBodyId v <= View.nextBodyId v')%nat
  /\ (forall k, In k (JsMap.keys (View.discs v')) ->
        In k (JsMap.keys (View.discs v)) \/ k = View.nextBodyId v).
Proof.
  unfold View.create. destruct (cfg.maxCircles <=? _)%nat;
    cbn [View.merging View.pending View.nextBodyId View.discs].
  - repeat split; auto.
  - repeat split; [lia |]. intros k I. apply keys_set in I. tauto.
Qed.

Lemma remove_effect (k0 : nat) (v : View.t) :
  let v' := View.remove k0 v in
  View.pending v' = View.pending v
  /\ View.nextBodyId v' = View.nextBodyId v
  /\ (forall k, In k (View.merging v') -> In k (View.merging v))
  /\ (forall k, In k (View.merging v) -> k <> k0 -> In k (View.merging v'))
  /\ (forall k, In k (JsMap.keys (View.discs v')) ->
        In k (JsMap.keys (View.discs v)) /\ k <> k0).
Proof.
  unfold View.remove. destruct (JsMap.get k0 (View.discs v)) eqn:G;
    cbn [View.merging View.pending View.nextBodyId View.discs].
  - split; [reflexivity |]. split; [reflexivity |]. split; [| split].
    + intros k I. apply StoreFacts.in_delete in I. tauto.
    + intros k I N. apply StoreFacts.in_delete. tauto.
    + intros k I. rewrite keys_delete in I.
      apply StoreFacts.in_delete in I. tauto.
  - split; [reflexivity |]. split; [reflexivity |]. split; [auto |].
    split; [auto |]. intros k I. split; [exact I |].
    intros ->. now apply key_has_value in I.
Qed.

Lemma complete_effect (a b : nat) (newValue : Z) (v : View.t) :
  let v' := View.complete a b newValue v in
  View.pending v' = View.pending v
  /\ (View.nextBodyId v <= View.nextBodyId v')%nat
  /\ (forall k, In k (View.merging v') ->
        In k (View.merging v) /\ k <> a /\ k <> b)
  /\ (forall k, In k (View.merging v) -> k <> a -> k <> b ->
        In k (View.merging v'))
  /\ (forall k, In k (JsMap.keys (View.discs v')) ->
        (In k (JsMap.keys (View.discs v)) /\ k <> a /\ k <> b)
        \/ k = View.nextBodyId v).
Proof.
  cbv zeta. unfold View.complete.
  pose proof (remove_effect a v) as Ra.
  pose proof (remove_effect b (View.remove a v)) as Rb.
  pose proof (create_effect newValue
                (View.unlock a b (View.remove b (View.remove a v)))) as C.
  cbv zeta in Ra, Rb, C.
  set (v1 := View.remove a v) in *.
  set (v2 := View.remove b v1) in *.
  set (v3 := View.create newValue (View.unlock a b v2)) in *.
  cbn [View.unlock View.merging View.pending View.nextBodyId View.discs] in C.
  clearbody v1 v2 v3.
  destruct Ra as (A1 & A2 & A3 & A4 & A5).
  destruct Rb as (B1 & B2 & B3 & B4 & B5).
  destruct C as (C1 & C2 & C3 & C4).
  split; [congruence |]. split; [lia |]. split; [| split].
  - intros k I. rewrite C1 in I.
    apply StoreFacts.in_delete in I as [Nb I].
    apply StoreFacts.in_delete in I as [Na I].
    split; [apply A3, B3, I | tauto].
  - intros k I Na Nb. rewrite C1.
    apply StoreFacts.in_delete. split; [exact Nb |].
    apply StoreFacts.in_delete. split; [exact Na |].
    apply B4; [apply A4; assumption | exact Nb].
  - intros k I. apply C4 in I as [I | ->].
    + left. apply B5 in I as [I Nb]. apply A5 in I as [I Na]. tauto.
    + right. congruence.
Qed.

(** The list of timers around the one that fires. *)
Lemma removeAt_split {A : Type} (n : nat) (a : A) (l : list A) :
  nth_error l n = Some a ->
  exists l1 l2, l = l1 ++ a :: l2 /\ removeAt n l = l1 ++ l2.
Proof.
  revert n. induction l as [| b l IH]; intros [| n] H; simpl in H;
    try discriminate.
  - inversion H. subst. now exists [], l.
  - destruct (IH n H) as (l1 & l2 & E1 & E2).
    exists (b :: l1), l2. simpl. now rewrite E1 at 1; rewrite E2.
Qed.

Lemma NoDup_app_middle {A : Type} (l1 l2 l3 : list A) :
  NoDup (l1 ++ l2 ++ l3) -> NoDup (l1 ++ l3).
Proof.
  induction l1 as [| a l1 IH]; simpl.
  - intro N. apply NoDup_app_remove_l in N. exact N.
  - intro N. inversion N as [| ? ? N1 N2]. subst.
    constructor; [| apply IH, N2].
    intro I. apply N1. apply in_app_or in I as [I | I]; apply in_or_app;
      [now left | right; apply in_or_app; now right].
Qed.

Lemma step_locks (rolled : Z -> Prop) (v v' : View.t) :
  View.Step rolled v v' ->
  Inv.table v /\ locks v -> Inv.table v' /\ locks v'.
Proof.
  intros S [T L].
  split; [eapply step_table; eassumption |].
  destruct L as (L1 & L2 & L3).
  destruct S as [r v _ | v | now x y a b A B save v GA GB HA HB
                 | n timer v Hn | now r v _ | v].
  - (* drop *)
    unfold View.drop.
    pose proof (create_effect (View.nextValue v) v) as (C1 & C2 & C3 & C4).
    destruct (cfg.maxCircles <=? _)%nat; [exact (conj L1 (conj L2 L3)) |].
    unfold locks.
    cbn [View.merging View.pending View.nextBodyId View.discs].
    rewrite C1, C2. split; [exact L1 |]. split; [| exact L3].
    intros timer k I P. destruct (L2 timer k I P) as [Lt Lk].
    split; [lia |]. intro K. apply C4 in K as [K | ->]; [auto | lia].
  - unfold View.finish. destruct (View.ended v); exact (conj L1 (conj L2 L3)).
  - (* a merge is resolved *)
    destruct T as (_ & _ & K & _).
    apply get_in in GA, GB.
    destruct (K a A GA) as (EA & NA & _).
    destruct (K b B GB) as (EB & NB & _).
    rewrite EA in HA. rewrite EB in HB.
    unfold locks, View.resolve. cbv zeta.
    cbn [View.merging View.pending View.nextBodyId View.discs].
    rewrite EA, EB.
    assert (P : forall k, In k (participants
                                  (MergeCompletion (now + 300) a b x y
                                     (View.value A * 2))) ->
                          k = a \/ k = b).
    { cbn. destruct (Nat.eqb a b); cbn; intuition congruence. }
    assert (Q : forall k, In k (JsSet.add b (JsSet.add a (View.merging v)))
                          <-> k = b \/ k = a \/ In k (View.merging v)).
    { intro k. now rewrite !StoreFacts.in_add. }
    split; [| split].
    + intros k I. apply Q in I as [-> | [-> | I]].
      * eexists. split; [apply in_or_app; right; now left |].
        cbn. destruct (Nat.eqb a b) eqn:E; cbn; [apply Nat.eqb_eq in E |]; auto.
      * eexists. split; [apply in_or_app; right; now left |].
        cbn. destruct (Nat.eqb a b); cbn; auto.
      * destruct (L1 k I) as (timer & I1 & I2).
        exists timer. split; [apply in_or_app; now left | exact I2].
    + intros timer k I Pk. apply in_app_or in I as [I | [<- | []]].
      * destruct (L2 timer k I Pk) as [Lt Lk].
        split; [exact Lt |]. intro I'. apply Q. right. right. auto.
      * apply P in Pk. split; [destruct Pk as [-> | ->]; assumption |].
        intros _. apply Q. tauto.
    + rewrite flat_map_app. cbn [flat_map]. rewrite app_nil_r.
      apply NoDup_app; [exact L3 | | ].
      * cbn [participants]. destruct (Nat.eqb a b) eqn:E.
        -- constructor; [intros [] | constructor].
        -- apply Nat.eqb_neq in E.
           constructor; [cbn; intuition | constructor; [intros [] | constructor]].
      * intros k I Pk. apply P in Pk.
        apply in_flat_map in I as (timer & I1 & I2).
        destruct (L2 timer k I1 I2) as [_ Lk].
        assert (M : In k (View.merging v)).
        { apply Lk. destruct Pk as [-> | ->]; eapply in_keys; eassumption. }
        apply StoreFacts.has_true_iff in M.
        destruct Pk as [-> | ->]; congruence.
  - (* a timer fires *)
    destruct (removeAt_split n timer (View.pending v) Hn) as (l1 & l2 & E1 & E2).
    assert (R3 : NoDup (flat_map participants (removeAt n (View.pending v)))).
    { rewrite E2, flat_map_app. rewrite E1, flat_map_app in L3.
      cbn [flat_map] in L3. apply NoDup_app_middle in L3. exact L3. }
    assert (R1 : forall timer' k, In timer' (View.pending v) ->
                   In k (participants timer') ->
                   ~ In k (participants timer) ->
                   In timer' (removeAt n (View.pending v))).
    { intros timer' k I Pk Nk. rewrite E2. rewrite E1 in I.
      apply in_app_or in I as [I | [<- | I]]; apply in_or_app; tauto. }
    unfold View.fire. cbv zeta.
    destruct timer as [due a b x y newValue | due].
    + match goal with
      | |- locks (View.complete a b newValue ?w) =>
          pose proof (complete_effect a b newValue w) as C; set (v1 := w) in *
      end.
      cbv zeta in C.
      cbn [v1 View.merging View.pending View.nextBodyId View.discs] in C.
      set (v' := View.complete a b newValue v1) in *. clearbody v'.
      destruct C as (C1 & C2 & C3 & C4 & C5).
      assert (P : forall k, In k (participants
                                    (MergeCompletion due a b x y newValue)) ->
                            k = a \/ k = b).
      { cbn. destruct (Nat.eqb a b); cbn; intuition congruence. }
      unfold locks. rewrite C1. split; [| split; [| exact R3]].
      * intros k I. apply C3 in I as (I & Na & Nb).
        destruct (L1 k I) as (timer' & I1 & I2).
        exists timer'. split; [| exact I2].
        apply (R1 timer' k I1 I2). intro Pk. apply P in Pk. tauto.
      * intros timer' k I Pk. apply in_removeAt in I.
        destruct (L2 timer' k I Pk) as [Lt Lk].
        split; [lia |]. intro K. apply C5 in K as [(K & Na & Nb) | ->]; [| lia].
        apply C4; auto.
    + unfold locks. cbn [View.merging View.pending View.nextBodyId View.discs].
      split; [| split; [| exact R3]].
      * intros k I. destruct (L1 k I) as (timer' & I1 & I2).
        exists timer'. split; [| exact I2].
        apply (R1 timer' k I1 I2). cbn. tauto.
      * intros timer' k I Pk. apply in_removeAt in I. apply (L2 timer' k I Pk).
  - (* restart *)
    unfold locks, View.restart.
    cbn [View.merging View.pending View.nextBodyId View.discs JsSet.empty
         JsMap.empty JsMap.keys map].
    split; [intros k [] |]. split.
    + intros timer k I Pk. apply in_app_or in I as [I | [<- | []]]; [| destruct Pk].
      destruct (L2 timer k I Pk) as [Lt _]. split; [exact Lt | intros []].
    + rewrite flat_map_app. cbn [flat_map participants]. now rewrite !app_nil_r.
  - unfold View.pause. destruct (View.ended v); exact (conj L1 (conj L2 L3)).
Qed.

End LockFacts.

(** X19. The mid-merge lock, in every game that a run reaches: a disc that
    is locked has a pending merge completion that will unlock it; a disc
    that a pending completion will remove is locked as long as it is in the
    table, so that no other merge takes it; and no disc is in two pending
    completions. *)
Theorem merge_lock_is_exclusive (log2 sqrt cos sin : Q -> Q) (PI : Q)
    (random : nat -> Q) (mounted now : Q) (b : Board) (best : Z) (fps : Q)
    (firstBodyId calls : nat) (ops : list Op) :
  let g := run log2 sqrt cos sin PI random ops
             (startGame random mounted now b best fps firstBodyId calls) in
  (forall k, JsSet.has k (State.mergingCircles (state g)) = true ->
     exists timer, In timer (timers g) /\ In k (participants timer))
  /\ (forall timer k, In timer (timers g) -> In k (participants timer) ->
        JsMap.has k (State.circles (state g)) = true ->
        JsSet.has k (State.mergingCircles (state g)) = true)
  /\ NoDup (flat_map participants (timers g)).
Proof.
  intro g.
  assert (I : Inv.table (View.of_game g) /\ locks (View.of_game g)).
  { apply (StepFacts.run_invariant log2 sqrt cos sin PI random
             (fun v => Inv.table v /\ locks v)).
    - apply LockFacts.step_locks.
    - rewrite TableFacts.initGame_view. split.
      + unfold Inv.table. cbn [View.discs View.world JsMap.keys JsMap.values map].
        split; [reflexivity |]. split; [constructor |].
        split; [intros k d [] | constructor].
      + unfold locks. cbn [View.merging View.pending flat_map].
        split; [intros k [] |]. split; [intros timer k [] | constructor]. }
  destruct I as [_ (L1 & L2 & L3)].
  cbn [View.of_game View.merging View.pending View.discs] in L1, L2, L3.
  split; [| split; [| exact L3]].
  - intros k H. apply L1, StoreFacts.has_true_iff, H.
  - intros timer k I P H. apply StoreFacts.has_true_iff.
    apply (L2 timer k I P). rewrite ViewFacts.of_circles_keys.
    unfold JsMap.has in H.
    destruct (JsMap.get k (State.circles (state g))) as [d |] eqn:G;
      [| discriminate].
    eapply TableFacts.in_keys, TableFacts.get_in, G.
Qed.

(** After two drops and the fixed step in which the two discs touch, the
    disc of body 4 is locked and has its pending completion. *)
Lemma merge_lock_is_exclusive_witness :
  let g := run exLog2 exSqrt exCos exSin exPI exRandom
             [OpTryDrop 1000; OpTryDrop 2000; OpTick 3000 exCollision]
             (startGame exRandom 0 100 desktop 0 60 4 0) in
  (exists timer, In timer (timers g) /\ In 4%nat (participants timer))
  /\ NoDup (flat_map participants (timers g)).
Proof.
  intro g.
  destruct (merge_lock_is_exclusive exLog2 exSqrt exCos exSin exPI exRandom
              0 100 desktop 0 60 4 0
              [OpTryDrop 1000; OpTryDrop 2000; OpTick 3000 exCollision])
    as (L1 & _ & L3).
  split; [| exact L3].
  apply L1. vm_compute. reflexivity.
Defined.

(** ** The completion of a merge *)

Module CompletionFacts.
Import ViewFacts StepFacts TableFacts ValueFacts SessionFacts LockFacts.

Lemma size_delete_present {V : Type} (k : nat) (v : V) (m : JsMap.t V) :
  NoDup (JsMap.keys m) -> JsMap.get k m = Some v ->
  S (JsMap.size (JsMap.delete k m)) = JsMap.size m.
Proof.
  induction m as [| [k' v'] r IH]; simpl; [discriminate |].
  intros N G. inversion N as [| ? ? N1 N2]. subst.
  destruct (Nat.eqb k k') eqn:E; simpl.
  - apply Nat.eqb_eq in E. subst k'.
    rewrite (JsMapFacts.get_none_delete k r); [reflexivity |].
    now apply get_none.
  - f_equal. apply IH; assumption.
Qed.

Lemma has_delete_same (k : nat) (s : JsSet.t) : JsSet.has k (JsSet.delete k s) = false.
Proof.
  destruct (JsSet.has k (JsSet.delete k s)) eqn:H; [| reflexivity].
  apply StoreFacts.has_true_iff, StoreFacts.in_delete in H. tauto.
Qed.

Lemma has_delete_false (k j : nat) (s : JsSet.t) :
  JsSet.has k s = false -> JsSet.has k (JsSet.delete j s) = false.
Proof.
  intro F. destruct (JsSet.has k (JsSet.delete j s)) eqn:H; [| reflexivity].
  apply StoreFacts.has_true_iff, StoreFacts.in_delete in H as [_ H].
  apply StoreFacts.has_true_iff in H. congruence.
Qed.

Lemma remove_present (k : nat) (d : View.Disc) (v : View.t) :
  JsMap.get k (View.discs v) = Some d ->
  View.remove k v
  = View.mk (JsMap.delete k (View.discs v))
      (JsSet.delete (View.bodyId d) (View.world v))
      (View.nextBodyId v) (View.nextLocalId v)
      (JsSet.delete k (View.merging v))
      (View.pending v) (View.score v) (View.best v) (View.saved v)
      (View.nextValue v) (View.running v) (View.paused v) (View.ended v).
Proof. intro G. unfold View.remove. now rewrite G. Qed.

(** On a table that is in order, the completion of a merge of two discs
    that are both there takes them out and puts one disc in. *)
Lemma complete_two (a b : nat) (A B : View.Disc) (newValue : Z) (v : View.t) :
  Inv.table v ->
  (JsMap.size (View.discs v) <= cfg.maxCircles)%nat ->
  a <> b ->
  JsMap.get a (View.discs v) = Some A ->
  JsMap.get b (View.discs v) = Some B ->
  let v' := View.complete a b newValue v in
  S (JsMap.size (View.discs v')) = JsMap.size (View.discs v)
  /\ JsMap.get a (View.discs v') = None
  /\ JsMap.get b (View.discs v') = None
  /\ JsMap.get (View.nextBodyId v) (View.discs v')
     = Some (View.mkDisc (View.nextBodyId v) newValue (View.nextLocalId v))
  /\ JsSet.has a (View.merging v') = false
  /\ JsSet.has b (View.merging v') = false.
Proof.
  intros (W & N & K & L) Bd Nab GA GB. cbv zeta.
  assert (GB1 : JsMap.get b (JsMap.delete a (View.discs v)) = Some B).
  { rewrite JsMapFacts.get_delete_other; [exact GB | congruence]. }
  assert (N1 : NoDup (JsMap.keys (JsMap.delete a (View.discs v)))).
  { rewrite keys_delete. apply NoDup_filter, N. }
  pose proof (size_delete_present a A _ N GA) as S1.
  pose proof (size_delete_present b B _ N1 GB1) as S2.
  destruct (K a A (get_in _ _ _ GA)) as (_ & La & _).
  destruct (K b B (get_in _ _ _ GB)) as (_ & Lb & _).
  set (m2 := JsMap.delete b (JsMap.delete a (View.discs v))) in *.
  assert (F : JsMap.get (View.nextBodyId v) m2 = None).
  { apply get_none. intro I. unfold m2 in I.
    rewrite !keys_delete in I.
    apply StoreFacts.in_delete in I as [_ I].
    apply StoreFacts.in_delete in I as [_ I].
    apply keys_in in I as [d I]. apply K in I. lia. }
  unfold View.complete.
  rewrite (remove_present a A v GA).
  match goal with
  | |- context [View.remove b ?w] => rewrite (remove_present b B w GB1)
  end.
  unfold View.unlock, View.create.
  cbn [View.discs View.world View.nextBodyId View.nextLocalId View.merging].
  fold m2.
  assert (R : (cfg.maxCircles <=? JsMap.size m2)%nat = false).
  { apply Nat.leb_gt. lia. }
  rewrite R. cbn [View.discs View.merging].
  split; [| split; [| split; [| split; [| split]]]].
  - rewrite (JsMapFacts.size_set_fresh _ _ _ F). lia.
  - rewrite JsMapFacts.get_set_other by lia. unfold m2.
    rewrite JsMapFacts.get_delete_other by congruence.
    apply JsMapFacts.get_delete_same.
  - rewrite JsMapFacts.get_set_other by lia. unfold m2.
    apply JsMapFacts.get_delete_same.
  - apply JsMapFacts.get_set_same.
  - apply has_delete_false, has_delete_same.
  - apply has_delete_same.
Qed.

Lemma fire_completion (n : nat) (due : Q) (a b : nat) (x y : Q) (newValue : Z)
    (v : View.t) :
  View.fire n (MergeCompletion due a b x y newValue) v
  = View.complete a b newValue
      (View.mk (View.discs v) (View.world v) (View.nextBodyId v)
         (View.nextLocalId v) (View.merging v) (removeAt n (View.pending v))
         (View.score v) (View.best v) (View.saved v) (View.nextValue v)
         (View.running v) (View.paused v) (View.ended v)).
Proof. reflexivity. Qed.

(** The same on the game, for one whose table is in order. *)
Lemma fireTimer_two (g : Game) (now' : Q) (n : nat) (due : Q) (aId bId : nat)
    (x y : Q) (newValue : Z) :
  Inv.table (View.of_game g) ->
  bounded g ->
  nth_error (timers g) n = Some (MergeCompletion due aId bId x y newValue) ->
  due <= now' ->
  aId <> bId ->
  JsMap.has aId (State.circles (state g)) = true ->
  JsMap.has bId (State.circles (state g)) = true ->
  let g' := fireTimer now' n g in
  S (JsMap.size (State.circles (state g'))) = JsMap.size (State.circles (state g))
  /\ JsMap.has aId (State.circles (state g')) = false
  /\ JsMap.has bId (State.circles (state g')) = false
  /\ (exists d,
        JsMap.get (Engine.nextBodyId (engine g)) (State.circles (state g'))
        = Some d
        /\ CircleData.value d = newValue
        /\ Body.id (CircleData.body d) = Engine.nextBodyId (engine g))
  /\ JsSet.has aId (State.mergingCircles (state g')) = false
  /\ JsSet.has bId (State.mergingCircles (state g')) = false.
Proof.
  intros T Bd Hn Due Nab HA HB g'.
  assert (V : View.of_game g' = View.fire n (MergeCompletion due aId bId x y newValue)
                                  (View.of_game g)).
  { subst g'. unfold fireTimer. rewrite Hn. apply NumFacts.leb_le in Due.
    cbn [due_of]. rewrite Due. apply StepFacts.runTimer_view. }
  clearbody g'.
  unfold JsMap.has in HA, HB.
  destruct (JsMap.get aId (State.circles (state g))) as [A |] eqn:GA;
    [| discriminate].
  destruct (JsMap.get bId (State.circles (state g))) as [B |] eqn:GB;
    [| discriminate].
  assert (GA' : JsMap.get aId (View.of_circles (State.circles (state g)))
                = Some (View.of_disc A))
    by now rewrite ViewFacts.of_circles_get, GA.
  assert (GB' : JsMap.get bId (View.of_circles (State.circles (state g)))
                = Some (View.of_disc B))
    by now rewrite ViewFacts.of_circles_get, GB.
  assert (Bd' : (JsMap.size (View.of_circles (State.circles (state g)))
                 <= cfg.maxCircles)%nat)
    by (rewrite ViewFacts.of_circles_size; exact Bd).
  destruct (complete_two aId bId (View.of_disc A) (View.of_disc B) newValue
              (View.mk (View.of_circles (State.circles (state g)))
                 (Engine.world (engine g)) (Engine.nextBodyId (engine g))
                 (State.nextLocalId (state g))
                 (State.mergingCircles (state g))
                 (removeAt n (timers g))
                 (State.score (state g)) (State.best (state g)) (savedBest g)
                 (State.nextValue (state g)) (State.running (state g))
                 (State.paused (state g)) (State.ended (state g)))
              T Bd' Nab GA' GB') as (C1 & C2 & C3 & C4 & C5 & C6).
  rewrite fire_completion in V.
  cbn [View.of_game View.discs View.world View.nextBodyId View.nextLocalId
       View.merging View.pending View.score View.best View.saved
       View.nextValue View.running View.paused View.ended] in V.
  rewrite <- V in C1, C2, C3, C4, C5, C6. clear V.
  cbn [View.of_game View.discs View.nextBodyId View.nextLocalId View.merging]
    in C1, C2, C3, C4, C5, C6.
  rewrite ViewFacts.of_circles_size in C1. rewrite ViewFacts.of_circles_size in C1.
  rewrite ViewFacts.of_circles_get in C2, C3, C4.
  unfold JsMap.has.
  destruct (JsMap.get aId (State.circles (state g'))); [discriminate |].
  destruct (JsMap.get bId (State.circles (state g'))); [discriminate |].
  destruct (JsMap.get (Engine.nextBodyId (engine g)) (State.circles (state g')))
    as [d |]; [| discriminate].
  cbn [option_map] in C4. inversion C4 as [[E1 E2 E3]].
  repeat split; try assumption. exists d. repeat split; assumption.
Qed.

End CompletionFacts.

(** X20. In a game that a run has reached, when the completion of a merge
    fires for two distinct discs that are both still in the table, it always
    takes both out and puts one new disc in: the table has one disc less,
    the new disc is filed under the identifier that the engine gives next
    and has the value that the merge computed, and both discs are unlocked.
    The limit on the number of discs cannot stop this spawn. *)
Theorem completion_replaces_two_by_one (log2 sqrt cos sin : Q -> Q) (PI : Q)
    (random : nat -> Q) (mounted now : Q) (b : Board) (best : Z) (fps : Q)
    (firstBodyId calls : nat) (ops : list Op)
    (now' : Q) (n : nat) (due : Q) (aId bId : nat) (x y : Q) (newValue : Z) :
  let g := run log2 sqrt cos sin PI random ops
             (startGame random mounted now b best fps firstBodyId calls) in
  nth_error (timers g) n = Some (MergeCompletion due aId bId x y newValue) ->
  due <= now' ->
  aId <> bId ->
  JsMap.has aId (State.circles (state g)) = true ->
  JsMap.has bId (State.circles (state g)) = true ->
  let g' := fireTimer now' n g in
  S (JsMap.size (State.circles (state g'))) = JsMap.size (State.circles (state g))
  /\ JsMap.has aId (State.circles (state g')) = false
  /\ JsMap.has bId (State.circles (state g')) = false
  /\ (exists d,
        JsMap.get (Engine.nextBodyId (engine g)) (State.circles (state g'))
        = Some d
        /\ CircleData.value d = newValue
        /\ Body.id (CircleData.body d) = Engine.nextBodyId (engine g))
  /\ JsSet.has aId (State.mergingCircles (state g')) = false
  /\ JsSet.has bId (State.mergingCircles (state g')) = false.
Proof.
  intro g. apply CompletionFacts.fireTimer_two.
  - apply StepFacts.run_invariant.
    + apply TableFacts.step_table.
    + rewrite TableFacts.initGame_view. unfold Inv.table.
      cbn [View.discs View.world JsMap.keys JsMap.values map].
      split; [reflexivity |]. split; [constructor |].
      split; [intros k d [] | constructor].
  - apply run_bounded. unfold bounded, startGame.
    rewrite restart_circles. cbn. lia.
Qed.

Lemma completion_replaces_two_by_one_witness :
  let g := run exLog2 exSqrt exCos exSin exPI exRandom
             [OpTryDrop 1000; OpTryDrop 2000; OpTick 3000 exCollision]
             (startGame exRandom 0 100 desktop 0 60 4 0) in
  let g' := fireTimer 3300 1 g in
  S (JsMap.size (State.circles (state g'))) = JsMap.size (State.circles (state g))
  /\ JsMap.has 4 (State.circles (state g')) = false
  /\ JsMap.has 5 (State.circles (state g')) = false
  /\ (exists d,
        JsMap.get (Engine.nextBodyId (engine g)) (State.circles (state g'))
        = Some d
        /\ CircleData.value d = 4%Z
        /\ Body.id (CircleData.body d) = Engine.nextBodyId (engine g))
  /\ JsSet.has 4 (State.mergingCircles (state g')) = false
  /\ JsSet.has 5 (State.mergingCircles (state g')) = false.
Proof.
  apply (completion_replaces_two_by_one exLog2 exSqrt exCos exSin exPI exRandom
           0 100 desktop 0 60 4 0
           [OpTryDrop 1000; OpTryDrop 2000; OpTick 3000 exCollision]
           3300 1 (3000 + 300) 4 5 ((300 + 232) / 2) ((766 + 766) / 2) 4).
  - vm_compute. reflexivity.
  - vm_compute. discriminate.
  - discriminate.
  - vm_compute. reflexivity.
  - vm_compute. reflexivity.
Defined.

(** ** Drops *)

Section Drops.

Variable log2 : Q -> Q.
Variable sqrt : Q -> Q.
Variable random : nat -> Q.




(** *** The second loop of [tryDrop] *)

Hypothesis sqrt_proper : forall p q : Q, p == q -> sqrt p == sqrt q.

Lemma leb_proper (a a' b b' : Q) :
  a == a' -> b == b' -> (a <=? b) = (a' <=? b').
Proof.
  intros Ea Eb. unfold Num.leb.
  destruct (Qle_bool a b) eqn:L, (Qle_bool a' b') eqn:L'; try reflexivity.
  - apply Qle_bool_iff in L. rewrite Ea, Eb in L.
    apply Qle_bool_iff in L. congruence.
  - apply Qle_bool_iff in L'. rewrite <- Ea, <- Eb in L'.
    apply Qle_bool_iff in L'. congruence.
Qed.

Lemma ltb_proper (a a' b b' : Q) :
  a == a' -> b == b' -> (a <? b) = (a' <? b').
Proof.
  intros Ea Eb. unfold Num.ltb. f_equal. now apply leb_proper.
Qed.

Lemma tooClose_proper (b : Board) (x x' y r : Q) (discs : list CircleData.t) :
  x == x' ->
  tooClose log2 sqrt b x y r discs = tooClose log2 sqrt b x' y r discs.
Proof.
  intro E. induction discs as [| d discs IH]; [reflexivity |].
  cbn [tooClose]. cbv zeta. rewrite IH.
  set (px := Vector.x (Body.position (CircleData.body d))).
  set (dy := y - Vector.y (Body.position (CircleData.body d))).
  assert (H : hypot sqrt (x - px) dy == hypot sqrt (x' - px) dy).
  { unfold hypot. apply sqrt_proper. now rewrite E. }
  now rewrite (ltb_proper _ _ _ _ H (Qeq_refl _)).
Qed.

Lemma isSpawnFree_proper (x x' y : Q) (value : Z) (g : Game) :
  x == x' ->
  isSpawnFree log2 sqrt x y value g = isSpawnFree log2 sqrt x' y value g.
Proof.
  intro E. unfold isSpawnFree. cbv zeta.
  rewrite (tooClose_proper _ x x') by exact E.
  unfold Num.geb.
  rewrite (leb_proper _ _ x x' (Qeq_refl _) E).
  rewrite (leb_proper x x' _ _ E (Qeq_refl _)).
  reflexivity.
Qed.

(** What the first loop has found out when it places no disc. *)
Lemma offsetSearch_none (g : Game) (x y step radius : Q) (value : Z)
    (indices : list Z) :
  offsetSearch log2 sqrt g x y step radius value indices = None ->
  forall i, In i indices ->
    ((x - inject_Z i * step >=? radius)
     && isSpawnFree log2 sqrt (x - inject_Z i * step) y value g) = false
    /\ ((x + inject_Z i * step <=? boardW g - radius)
        && isSpawnFree log2 sqrt (x + inject_Z i * step) y value g) = false.
Proof.
  induction indices as [| j rest IH]; [intros _ i [] |].
  cbn [offsetSearch]. cbv zeta. intro N.
  destruct ((x - inject_Z j * step >=? radius) && _) eqn:L; [discriminate |].
  destruct ((x + inject_Z j * step <=? boardW g - radius) && _) eqn:R;
    [discriminate |].
  intros i [<- | I]; [split; assumption | apply IH; assumption].
Qed.

(** One round of the second loop, at a position that the first loop has
    tried on the left, on the right, or that is the spawn point. *)
Lemma zigzag_round (g : Game) (y radius : Q) (value : Z) (t p : Q) :
  t == p ->
  isSpawnFree log2 sqrt p y value g = false
  \/ ((p >=? radius) && isSpawnFree log2 sqrt p y value g) = false
  \/ ((p <=? boardW g - radius) && isSpawnFree log2 sqrt p y value g) = false ->
  ((t >=? radius) && (t <=? boardW g - radius)
   && isSpawnFree log2 sqrt t y value g) = false.
Proof.
  intros E H. rewrite (isSpawnFree_proper t p) by exact E.
  unfold Num.geb in *.
  rewrite (leb_proper radius radius t p (Qeq_refl _) E).
  rewrite (leb_proper t p _ _ E (Qeq_refl _)).
  destruct (isSpawnFree log2 sqrt p y value g);
    [| now rewrite !andb_false_r].
  destruct H as [H | [H | H]]; [discriminate | |];
    rewrite andb_true_r in H; rewrite H; cbn;
    [reflexivity | now rewrite andb_false_r].
Qed.

(** The second loop of [tryDrop] places no disc: each of its positions is
    the spawn point or a position of the first loop. *)
Lemma zigzagSearch_dead (g : Game) (y step radius : Q) (value : Z) :
  isSpawnFree log2 sqrt (State.previewX (state g)) y value g = false ->
  offsetSearch log2 sqrt g (State.previewX (state g)) y step radius value
    [1; 2; 3; 4; 5; 6]%Z = None ->
  zigzagSearch log2 sqrt g y step radius value [0; 1; 2; 3; 4; 5; 6]%Z = None.
Proof.
  intros Taken Off.
  pose proof (offsetSearch_none g _ y step radius value _ Off) as O.
  set (x := State.previewX (state g)) in *.
  assert (O1 := O 1%Z ltac:(cbn; tauto)).
  assert (O2 := O 2%Z ltac:(cbn; tauto)).
  assert (O3 := O 3%Z ltac:(cbn; tauto)).
  clear O. destruct O1 as [L1 R1], O2 as [L2 R2], O3 as [L3 R3].
  cbn [zigzagSearch]. cbv zeta. fold x.
  rewrite (zigzag_round g y radius value _ x);
    [| cbn; ring | now left].
  rewrite (zigzag_round g y radius value _ x);
    [| cbn; ring | now left].
  rewrite (zigzag_round g y radius value _ (x + inject_Z 1 * step));
    [| cbn; ring | right; right; exact R1].
  rewrite (zigzag_round g y radius value _ (x - inject_Z 1 * step));
    [| cbn; ring | right; left; exact L1].
  rewrite (zigzag_round g y radius value _ (x + inject_Z 2 * step));
    [| cbn; ring | right; right; exact R2].
  rewrite (zigzag_round g y radius value _ (x - inject_Z 2 * step));
    [| cbn; ring | right; left; exact L2].
  rewrite (zigzag_round g y radius value _ (x + inject_Z 3 * step));
    [| cbn; ring | right; right; exact R3].
  reflexivity.
Qed.

(** X22. The zig-zag loop of [tryDrop] never places a disc (given a square
    root that is a function of the value of its argument): when the spawn
    point and the twelve positions of the first loop are rejected, an
    accepted drop ends the session with "No space to spawn.". *)
Theorem no_space_after_first_loop (now : Q) (g : Game) :
  State.running (state g) = true ->
  State.ended (state g) = false ->
  State.paused (state g) = false ->
  cfg.dropCooldownMs <= now - State.lastDropTs (state g) ->
  let value := State.nextValue (state g) in
  let radius := getRadiusForValue log2 (board g) value in
  let x := State.previewX (state g) in
  let y := spawnY log2 (board g) in
  isSpawnFree log2 sqrt x y value g = false ->
  offsetSearch log2 sqrt g x y (radius * 1.1) radius value [1; 2; 3; 4; 5; 6]%Z
  = None ->
  tryDrop log2 sqrt random now g = endGame now "No space to spawn." g.
Proof.
  intros Run End Pause Cool value radius x y Taken Off.
  unfold tryDrop. rewrite Run, End, Pause. cbn [negb orb].
  apply NumFacts.ltb_ge in Cool. rewrite Cool. cbv zeta.
  fold value radius x y. rewrite Taken. cbn [negb]. rewrite Off.
  now rewrite (zigzagSearch_dead g y (radius * 1.1) radius value Taken Off).
Qed.

End Drops.

Lemma exSqrt_proper (p q : Q) : p == q -> exSqrt p == exSqrt q.
Proof.
  intro E. unfold exSqrt.
  assert (F : Qfloor (p * 1000000) = Qfloor (q * 1000000)).
  { apply Qfloor_comp. now rewrite E. }
  now rewrite F.
Qed.


Lemma no_space_after_first_loop_witness :
  tryDrop exLog2 exSqrt exRandom 1000 exCrowded
  = endGame 1000 "No space to spawn." exCrowded.
Proof.
  apply (no_space_after_first_loop exLog2 exSqrt exRandom exSqrt_proper).
  - vm_compute. reflexivity.
  - vm_compute. reflexivity.
  - vm_compute. reflexivity.
  - vm_compute. discriminate.
  - vm_compute. reflexivity.
  - vm_compute. reflexivity.
Defined.

(** ** The end of the component *)

(** X23. [cleanup] clears the tables and the world but cancels no timer: a
    merge completion that is pending at the cleanup is still pending after
    it, and when it fires it puts its disc, of the doubled value, into the
    cleared table and its body into the cleared world. *)
Theorem cleanup_keeps_pending_completion (now' : Q) (n : nat) (due : Q)
    (a b : nat) (x y : Q) (v : Z) (g : Game) :
  nth_error (timers g) n = Some (MergeCompletion due a b x y v) ->
  due <= now' ->
  timers (cleanup g) = timers g
  /\ State.circles (state (cleanup g)) = []
  /\ Engine.world (engine (cleanup g)) = []
  /\ State.mergingCircles (state (cleanup g)) = []
  /\ exists C,
       State.circles (state (fireTimer now' n (cleanup g)))
       = [(Engine.nextBodyId (engine g), C)]
       /\ CircleData.value C = v
       /\ Engine.world (engine (fireTimer now' n (cleanup g)))
          = [Engine.nextBodyId (engine g)].
Proof.
  intros Pending Due.
  split; [reflexivity |]. split; [reflexivity |]. split; [reflexivity |].
  split; [reflexivity |].
  destruct (completion_on_empty_table now' n due a b x y v (cleanup g)
              Pending Due eq_refl) as (C & E1 & E2).
  exists C. split; [exact E1 |]. split; [exact E2 |].
  unfold fireTimer.
  change (timers (cleanup g)) with (timers g). rewrite Pending.
  cbn [due_of]. apply NumFacts.leb_le in Due. rewrite Due.
  cbn [runTimer]. unfold mergeCompletion.
  rewrite (removeCircle_absent a) by reflexivity.
  rewrite (removeCircle_absent b) by reflexivity.
  reflexivity.
Qed.

Lemma cleanup_keeps_pending_completion_witness :
  timers (cleanup exMerging) = timers exMerging
  /\ State.circles (state (cleanup exMerging)) = []
  /\ Engine.world (engine (cleanup exMerging)) = []
  /\ State.mergingCircles (state (cleanup exMerging)) = []
  /\ exists C,
       State.circles (state (fireTimer 3300 1 (cleanup exMerging)))
       = [(Engine.nextBodyId (engine exMerging), C)]
       /\ CircleData.value C = 4%Z
       /\ Engine.world (engine (fireTimer 3300 1 (cleanup exMerging)))
          = [Engine.nextBodyId (engine exMerging)].
Proof.
  apply (cleanup_keeps_pending_completion 3300 1 (3000 + 300) 4 5
           ((300 + 232) / 2) ((766 + 766) / 2) 4 exMerging).
  - vm_compute. reflexivity.
  - vm_compute. discriminate.
Defined.

(** ** Animations *)

Module AnimationFacts.
Import ViewFacts TableFacts.

Lemma timings_set (k : nat) (a : Animation.t) (m : JsMap.t Animation.t) :
  timings (JsMap.set k a m) = JsMap.set k (timing a) (timings m).
Proof.
  induction m as [| [k' a'] r IH]; simpl; [reflexivity |].
  destruct (Nat.eqb k k'); simpl; [reflexivity | now rewrite <- IH].
Qed.

Lemma timings_keys (m : JsMap.t Animation.t) :
  JsMap.keys (timings m) = JsMap.keys m.
Proof. unfold JsMap.keys, timings. rewrite map_map. reflexivity. Qed.

Lemma timings_in (k : nat) (a : Animation.t) (m : JsMap.t Animation.t) :
  In (k, a) m -> In (k, timing a) (timings m).
Proof. intro I. apply in_map_iff. now exists (k, a). Qed.

Lemma in_timings (k : nat) (t : Q * Q * AnimationType) (m : JsMap.t Animation.t) :
  In (k, t) (timings m) -> exists a, In (k, a) m /\ timing a = t.
Proof.
  intro I. apply in_map_iff in I as [[k' a] [E I]]. inversion E. subst.
  now exists a.
Qed.

(** One round of the loop of [updateAnimations]: the timings stay, and the
    key goes to [toDelete] exactly when the animation has elapsed. *)
Lemma animateOne_timings (now : Q) (g : Game) (toDelete : list nat)
    (k : nat) (a : Animation.t) :
  JsMap.get k (timings (State.animations (state g))) = Some (timing a) ->
  timings (State.animations (state (fst (animateOne now (g, toDelete) (k, a)))))
  = timings (State.animations (state g))
  /\ snd (animateOne now (g, toDelete) (k, a))
     = toDelete ++ (if elapsed now a then [k] else []).
Proof.
  intro G. unfold animateOne, elapsed. cbv zeta.
  destruct (_ >=? _); [split; reflexivity |].
  rewrite app_nil_r.
  destruct (Animation.type a).
  - destruct (JsMap.get k (State.circles (state g))); [| split; reflexivity].
    destruct (Animation.targetX a); [| split; reflexivity].
    destruct (Animation.targetY a); [| split; reflexivity].
    destruct (Animation.startX a); [| split; reflexivity].
    destruct (Animation.startY a); split; reflexivity.
  - split; [| reflexivity]. fields.
    rewrite timings_set. apply set_get_same. exact G.
Qed.

Lemma animate_all (now : Q) (l : list (nat * Animation.t)) (g : Game)
    (toDelete : list nat) :
  (forall k a, In (k, a) l ->
     JsMap.get k (timings (State.animations (state g))) = Some (timing a)) ->
  timings (State.animations (state (fst (fold_left (animateOne now) l (g, toDelete)))))
  = timings (State.animations (state g))
  /\ snd (fold_left (animateOne now) l (g, toDelete))
     = toDelete ++ JsMap.keys (filter (fun kv => elapsed now (snd kv)) l).
Proof.
  revert g toDelete. induction l as [| [k a] l IH]; intros g toDelete H.
  - cbn. now rewrite app_nil_r.
  - cbn [fold_left].
    destruct (animateOne_timings now g toDelete k a (H k a (or_introl eq_refl)))
      as [E1 E2].
    destruct (animateOne now (g, toDelete) (k, a)) as [g1 d1].
    cbn [fst snd] in E1, E2.
    destruct (IH g1 d1) as [I1 I2].
    { intros k' a' I. rewrite E1. apply H. now right. }
    split; [now rewrite I1 |].
    rewrite I2, E2. cbn [filter snd].
    destruct (elapsed now a); cbn [JsMap.keys map fst];
      now rewrite <- app_assoc.
Qed.

Lemma in_delete_all {V : Type} (ks : list nat) (k : nat) (v : V) (m : JsMap.t V) :
  In (k, v) (fold_left (fun m k => JsMap.delete k m) ks m)
  <-> In (k, v) m /\ ~ In k ks.
Proof.
  revert m. induction ks as [| j ks IH]; intro m; cbn [fold_left].
  - cbn. tauto.
  - rewrite IH. unfold JsMap.delete at 1. rewrite filter_In. cbn [fst].
    rewrite negb_true_iff, Nat.eqb_neq. cbn. intuition congruence.
Qed.

End AnimationFacts.

(** X24. [updateAnimations], on a table of animations with one animation
    per key: an animation is in the table afterwards exactly when one with
    the same key and the same start, duration and type was there before and
    has not run for its duration; the animations that have elapsed are all
    gone. *)
Theorem updateAnimations_drops_elapsed (now : Q) (g : Game) (k : nat)
    (t : Q * Q * AnimationType) :
  NoDup (JsMap.keys (State.animations (state g))) ->
  (exists a, In (k, a) (State.animations (state (updateAnimations now g)))
             /\ timing a = t)
  <-> (exists a, In (k, a) (State.animations (state g))
                 /\ timing a = t /\ elapsed now a = false).
Proof.
  intro N.
  assert (G : forall k a, In (k, a) (State.animations (state g)) ->
                JsMap.get k (timings (State.animations (state g)))
                = Some (timing a)).
  { intros k' a' I. apply TableFacts.get_of_in.
    - now rewrite AnimationFacts.timings_keys.
    - apply AnimationFacts.timings_in, I. }
  unfold updateAnimations.
  destruct (AnimationFacts.animate_all now (State.animations (state g)) g [] G)
    as [E1 E2].
  destruct (fold_left (animateOne now) _ _) as [g1 toDelete].
  cbn [fst snd app] in E1, E2. fields. subst toDelete.
  assert (D : forall a, In (k, a) (State.animations (state g)) ->
                (elapsed now a = true
                 <-> In k (JsMap.keys (filter (fun kv => elapsed now (snd kv))
                                          (State.animations (state g)))))).
  { intros a I. split.
    - intro El. apply in_map_iff. exists (k, a). split; [reflexivity |].
      apply filter_In. now split.
    - intro I'. apply in_map_iff in I' as [[k' a'] [Ek I']]. cbn in Ek. subst k'.
      apply filter_In in I' as [I' El]. cbn in El.
      assert (Ea : Some (timing a') = Some (timing a)).
      { rewrite <- (G k a' I'), <- (G k a I). reflexivity. }
      inversion Ea as [[S1 S2 S3]]. unfold elapsed in *. now rewrite <- S1, <- S2. }
  split.
  - intros (a & I & T). apply AnimationFacts.in_delete_all in I as [I Nk].
    apply AnimationFacts.timings_in in I. rewrite E1 in I.
    apply AnimationFacts.in_timings in I as (a0 & I0 & T0).
    exists a0. split; [exact I0 |]. split; [congruence |].
    destruct (elapsed now a0) eqn:El; [| reflexivity].
    exfalso. apply Nk. apply (D a0 I0). exact El.
  - intros (a0 & I0 & T0 & El).
    apply AnimationFacts.timings_in in I0 as I1. rewrite <- E1 in I1.
    apply AnimationFacts.in_timings in I1 as (a & I & T).
    exists a. split; [| congruence].
    apply AnimationFacts.in_delete_all. split; [exact I |].
    intro I'. apply (D a0 I0) in I'. congruence.
Qed.

Lemma updateAnimations_drops_elapsed_witness :
  (exists a, In (6%nat, a) (State.animations (state (updateAnimations 3400 exAnimated)))
             /\ timing a = (3300, 200, spawn))
  <-> (exists a, In (6%nat, a) (State.animations (state exAnimated))
                 /\ timing a = (3300, 200, spawn) /\ elapsed 3400 a = false).
Proof.
  apply updateAnimations_drops_elapsed.
  cbn. repeat constructor; cbn; intuition discriminate.
Defined.

(** ** The particles of a frame *)

Module ParticleFacts.

Lemma nth_write_other {E : Type} (a : list E) (i j : nat) (v z : E) :
  i <> j -> nth i (TypedArray.write_nat a j v) z = nth i a z.
Proof.
  revert i j. induction a as [| e a IH]; intros i j N; [reflexivity |].
  destruct j as [| j], i as [| i]; cbn; try reflexivity; try lia.
  apply IH. lia.
Qed.

Lemma read_write_other {E : Type} (a : list E) (i j : Z) (v z : E) :
  i <> j -> TypedArray.read z (TypedArray.write a j v) i = TypedArray.read z a i.
Proof.
  intro N. unfold TypedArray.read, TypedArray.write.
  destruct (i <? 0)%Z eqn:I; [reflexivity |].
  destruct (j <? 0)%Z eqn:J; [reflexivity |].
  apply nth_write_other. lia.
Qed.

(** One round of the first pass. *)
Lemma expirePass_cases (now : Q) (p q : ParticlePool.t) (act : list Z) (i : nat) :
  sameLifetimes q p ->
  (i < Z.to_nat (ParticlePool.capacity p))%nat ->
  expirePass now (q, act) i
  = if expiredb now p (Z.of_nat i)
    then (ParticlePool.with_free (ParticlePool.count q - 1)%Z
            (ParticlePool.freeList q ++ [Z.of_nat i]) q, act)
    else if activeb now p (Z.of_nat i) then (q, act ++ [Z.of_nat i])
    else (q, act).
Proof.
  intros (S1 & S2 & S3 & S4) R.
  unfold expirePass, expiredb, activeb. rewrite S1, S2, S3.
  destruct (TypedArray.read 0 (ParticlePool.life p) (Z.of_nat i) <=? 0);
    cbn [negb andb]; [reflexivity |].
  destruct (_ >=? _); cbn [negb]; [| reflexivity].
  unfold ParticlePool.release.
  destruct ((Z.of_nat i <? 0) || (Z.of_nat i >=? ParticlePool.capacity q))%Z
    eqn:G; [| reflexivity].
  apply orb_true_iff in G. rewrite S4 in G. lia.
Qed.

Lemma expired_not_active (now : Q) (p : ParticlePool.t) (i : Z) :
  expiredb now p i = true -> activeb now p i = false.
Proof.
  unfold expiredb, activeb. intro X. apply andb_true_iff in X as [_ X].
  rewrite X. apply andb_false_r.
Qed.

(** The first pass releases the expired slots, in order, and collects the
    active ones. *)
Lemma expire_fold (now : Q) (p : ParticlePool.t) (l : list nat)
    (q : ParticlePool.t) (act : list Z) :
  sameLifetimes q p ->
  (forall i, In i l -> (i < Z.to_nat (ParticlePool.capacity p))%nat) ->
  let r := fold_left (expirePass now) l (q, act) in
  sameLifetimes (fst r) p
  /\ ParticlePool.freeList (fst r)
     = ParticlePool.freeList q ++ filter (expiredb now p) (map Z.of_nat l)
  /\ ParticlePool.count (fst r)
     = (ParticlePool.count q
        - Z.of_nat (List.length (filter (expiredb now p) (map Z.of_nat l))))%Z
  /\ snd r = act ++ filter (activeb now p) (map Z.of_nat l).
Proof.
  revert q act. induction l as [| i l IH]; intros q act S R; cbv zeta.
  - cbn. rewrite !app_nil_r. repeat split; try apply S; lia.
  - cbn [fold_left map filter].
    assert (Ri : (i < Z.to_nat (ParticlePool.capacity p))%nat)
      by (apply R; now left).
    assert (Rl : forall j, In j l -> (j < Z.to_nat (ParticlePool.capacity p))%nat)
      by (intros j J; apply R; now right).
    rewrite (expirePass_cases now p q act i S Ri).
    destruct (expiredb now p (Z.of_nat i)) eqn:X.
    + rewrite (expired_not_active now p _ X).
      destruct (IH (ParticlePool.with_free (ParticlePool.count q - 1)%Z
                      (ParticlePool.freeList q ++ [Z.of_nat i]) q) act)
        as (I1 & I2 & I3 & I4).
      { destruct S as (S1 & S2 & S3 & S4). repeat split; assumption. }
      { exact Rl. }
      cbv zeta in I1, I2, I3, I4.
      cbn [ParticlePool.with_free ParticlePool.freeList ParticlePool.count]
        in I2, I3.
      split; [exact I1 |]. split; [| split; [| exact I4]].
      * rewrite I2, <- app_assoc. reflexivity.
      * rewrite I3. cbn [List.length]. lia.
    + destruct (activeb now p (Z.of_nat i)).
      * destruct (IH q (act ++ [Z.of_nat i]) S Rl) as (I1 & I2 & I3 & I4).
        split; [exact I1 |]. split; [exact I2 |]. split; [exact I3 |].
        cbv zeta in I4. rewrite I4, <- app_assoc. reflexivity.
      * apply (IH q act S Rl).
Qed.

(** The second pass leaves the free list and the count, and the life of a
    slot that is not active. *)
Lemma advance_fold (now dt : Q) (act : list Z) (q : ParticlePool.t) :
  let r := fold_left (advanceParticle now dt) act q in
  ParticlePool.freeList r = ParticlePool.freeList q
  /\ ParticlePool.count r = ParticlePool.count q
  /\ ParticlePool.capacity r = ParticlePool.capacity q
  /\ ParticlePool.startTime r = ParticlePool.startTime q
  /\ ParticlePool.maxLife r = ParticlePool.maxLife q
  /\ forall i, ~ In i act ->
       TypedArray.read 0 (ParticlePool.life r) i
       = TypedArray.read 0 (ParticlePool.life q) i.
Proof.
  revert q. induction act as [| j act IH]; intro q; cbv zeta.
  - repeat split.
  - cbn [fold_left].
    destruct (IH (advanceParticle now dt q j)) as (I1 & I2 & I3 & I4 & I5 & I6).
    cbv zeta in I1, I2, I3, I4, I5, I6.
    rewrite I1, I2, I3, I4, I5.
    repeat split.
    intros i N. rewrite I6 by (intro H; apply N; now right).
    unfold advanceParticle. cbv zeta. cbn [ParticlePool.life].
    apply read_write_other. intros ->. apply N. now left.
Qed.

End ParticleFacts.

(** X25. [updateParticles], when it runs: every slot that has expired (a
    positive life, and an age of at least its time to live) is released,
    in the order of the slots, and counted off. The life of a released slot
    is not reset, so that the slot is found expired again at every later
    time: each later update releases it once more. *)
Theorem updateParticles_releases_expired (now : Q) (g : Game) :
  16 <= now - lastParticleUpdate g ->
  let p := particlePool g in
  let p' := particlePool (updateParticles now g) in
  ParticlePool.freeList p' = ParticlePool.freeList p ++ expiredSlots now p
  /\ ParticlePool.count p'
     = (ParticlePool.count p - Z.of_nat (List.length (expiredSlots now p)))%Z
  /\ lastParticleUpdate (updateParticles now g) = now
  /\ forall now' i, now <= now' ->
       In i (expiredSlots now p) -> In i (expiredSlots now' p').
Proof.
  intros Acc p p'.
  assert (E : updateParticles now g
              = with_particlePool
                  (fold_left (advanceParticle now ((now - lastParticleUpdate g) / 1000))
                     (snd (fold_left (expirePass now)
                             (seq 0 (Z.to_nat (ParticlePool.capacity p))) (p, [])))
                     (fst (fold_left (expirePass now)
                             (seq 0 (Z.to_nat (ParticlePool.capacity p))) (p, []))))
                  (with_lastParticleUpdate now g)).
  { unfold updateParticles. cbv zeta.
    assert (T : (now - lastParticleUpdate g
                 <? (if targetFPS g >=? 144 then 8
                     else if targetFPS g >=? 120 then 12 else 16)) = false).
    { apply NumFacts.ltb_ge.
      destruct (targetFPS g >=? 144); [lra |].
      destruct (targetFPS g >=? 120); lra. }
    rewrite T.
    cbn [particlePool with_lastParticleUpdate ParticlePool.getCapacity].
    fold p. now destruct (fold_left (expirePass now) _ _). }
  subst p'. rewrite E. cbn [particlePool with_particlePool lastParticleUpdate
                            with_lastParticleUpdate].
  destruct (ParticleFacts.expire_fold now p
              (seq 0 (Z.to_nat (ParticlePool.capacity p))) p [])
    as (S & F & C & A).
  { repeat split. }
  { intros i I. apply in_seq in I. lia. }
  cbv zeta in S, F, C, A.
  set (r := fold_left (expirePass now) _ _) in *. clearbody r.
  destruct r as [q act]. cbn [fst snd app] in *.
  destruct (ParticleFacts.advance_fold now ((now - lastParticleUpdate g) / 1000)
              act q) as (A1 & A2 & A3 & A4 & A5 & A6).
  cbv zeta in A1, A2, A3, A4, A5, A6.
  set (q' := fold_left (advanceParticle now _) act q) in *. clearbody q'.
  destruct S as (S1 & S2 & S3 & S4).
  split; [rewrite A1; exact F |]. split; [rewrite A2; exact C |].
  split; [reflexivity |].
  intros now' i Later I. unfold expiredSlots in *.
  apply filter_In in I as [I X]. apply filter_In.
  split; [unfold slots in *; now rewrite A3, S4 |].
  unfold expiredb in *. rewrite A4, A5, S2, S3.
  rewrite A6.
  - rewrite S1. apply andb_true_iff in X as [X1 X2].
    rewrite X1. cbn [andb]. apply NumFacts.geb_ge in X2.
    apply NumFacts.geb_ge. lra.
  - rewrite A. intro I'. apply filter_In in I' as [_ I'].
    fold (expiredb now p i) in X.
    rewrite (ParticleFacts.expired_not_active now p i X) in I'. discriminate.
Qed.

Lemma updateParticles_releases_expired_witness :
  let p := particlePool exBurst in
  let p' := particlePool (updateParticles 2700 exBurst) in
  ParticlePool.freeList p' = ParticlePool.freeList p ++ expiredSlots 2700 p
  /\ ParticlePool.count p'
     = (ParticlePool.count p - Z.of_nat (List.length (expiredSlots 2700 p)))%Z
  /\ lastParticleUpdate (updateParticles 2700 exBurst) = 2700
  /\ forall now' i, 2700 <= now' ->
       In i (expiredSlots 2700 p) -> In i (expiredSlots now' p').
Proof.
  apply updateParticles_releases_expired.
  vm_compute. discriminate.
Defined.

(** ** The debounce of the writes of the best score *)

Section Debounce.

Variables (log2 cos sin : Q -> Q) (PI : Q) (random : nat -> Q).

(** The time of the last write, after a merge. *)
Lemma performMerge_lastBestSave (now : Q) (A B : CircleData.t) (x y : Q)
    (g : Game) :
  lastBestSave (performMerge log2 cos sin PI random now A B x y g)
  = if ((State.best (state g)
         <? State.score (state g) + CircleData.value A * 2 * cfg.scoreMul)%Z
        && (now - lastBestSave g >? 1000))%bool
    then now else lastBestSave g.
Proof.
  unfold performMerge.
  match goal with
  | |- context [createMergeExplosion _ _ _ _ _ ?n ?a ?b ?c ?d ?v ?h] =>
      destruct (createMergeExplosion_frame log2 cos sin PI random n a b c d v h)
        as (p & k & E);
      rewrite E
  end.
  cbn [state upd with_state with_randomCalls with_particlePool State.score
       State.with_score State.with_animations State.with_mergingCircles
       State.best State.previewX State.nextValue State.running State.paused
       State.lastDropTs State.ended State.endReason State.circles
       State.nextLocalId State.mergingCircles State.animations
       State.mergeQueue State.highestCircleTop State.previewUpdateTime
       store particlePool engine board timers lastBestSave savedBest
       lastParticleUpdate targetFPS showModal toasts randomCalls].
  destruct (_ <? _)%Z; [destruct (_ >? _) |]; reflexivity.
Qed.

(** X27. A record can stay unwritten. When a merge sets a record more than
    1000 ms after the last write, and a second merge follows within
    1000 ms, the second record is in [state.best] and not in
    [localStorage], which still holds the first one; the time of the last
    write is that of the first merge. *)
Theorem debounce_leaves_record_unwritten (now1 now2 : Q)
    (A1 B1 A2 B2 : CircleData.t) (x1 y1 x2 y2 : Q) (g : Game) :
  (State.best (state g) < State.score (state g) + 2 * CircleData.value A1)%Z ->
  (0 < CircleData.value A2)%Z ->
  1000 < now1 - lastBestSave g ->
  now2 - now1 <= 1000 ->
  let g1 := performMerge log2 cos sin PI random now1 A1 B1 x1 y1 g in
  let g2 := performMerge log2 cos sin PI random now2 A2 B2 x2 y2 g1 in
  savedBest g2 = State.score (state g1)
  /\ State.best (state g2) = State.score (state g2)
  /\ (savedBest g2 < State.best (state g2))%Z
  /\ lastBestSave g2 = now1.
Proof.
  intros R P T1 T2 g1 g2.
  pose proof (performMerge_lastBestSave now1 A1 B1 x1 y1 g) as L1.
  pose proof (performMerge_lastBestSave now2 A2 B2 x2 y2 g1) as L2.
  pose proof (ViewFacts.performMerge_view log2 cos sin PI random
                now1 A1 B1 x1 y1 g) as V1.
  pose proof (ViewFacts.performMerge_view log2 cos sin PI random
                now2 A2 B2 x2 y2 g1) as V2.
  fold g1 in L1, V1. fold g2 in L2, V2. fold g1 in L2, V2.
  assert (S1 : View.score (View.of_game g1)
               = (State.score (state g) + 2 * CircleData.value A1)%Z
               /\ View.best (View.of_game g1) = View.score (View.of_game g1)
               /\ View.saved (View.of_game g1) = View.score (View.of_game g1)).
  { rewrite V1. unfold View.resolve. cbn [View.score View.best View.saved].
    unfold cfg.scoreMul. cbn [View.of_game View.score View.best View.of_disc
                              View.value].
    replace (State.score (state g) + CircleData.value A1 * 2 * 1)%Z
      with (State.score (state g) + 2 * CircleData.value A1)%Z by lia.
    destruct (Z.ltb_spec (State.best (state g))
                (State.score (state g) + 2 * CircleData.value A1)) as [_ | F];
      [| lia].
    rewrite (proj2 (NumFacts.gtb_gt _ _) T1). cbn [andb]. repeat split. }
  assert (E1 : lastBestSave g1 = now1).
  { rewrite L1. unfold cfg.scoreMul.
    replace (State.score (state g) + CircleData.value A1 * 2 * 1)%Z
      with (State.score (state g) + 2 * CircleData.value A1)%Z by lia.
    destruct (Z.ltb_spec (State.best (state g))
                (State.score (state g) + 2 * CircleData.value A1)) as [_ | F];
      [| lia].
    rewrite (proj2 (NumFacts.gtb_gt _ _) T1). reflexivity. }
  destruct S1 as (_ & B1' & S1).
  assert (F2 : (now2 - lastBestSave g1 >? 1000) = false).
  { rewrite E1. apply NumFacts.gtb_le, T2. }
  assert (S2 : View.saved (View.of_game g2) = View.score (View.of_game g1)
               /\ View.best (View.of_game g2) = View.score (View.of_game g2)
               /\ (View.score (View.of_game g1)
                   < View.score (View.of_game g2))%Z).
  { rewrite V2, F2. unfold View.resolve.
    cbn [View.score View.best View.saved]. rewrite B1', S1.
    unfold cfg.scoreMul. cbn [View.of_disc View.value].
    destruct (Z.ltb_spec (View.score (View.of_game g1))
                (View.score (View.of_game g1) + CircleData.value A2 * 2 * 1))
      as [_ | F]; [| lia].
    rewrite Bool.andb_false_r. repeat split. lia. }
  destruct S2 as (S2 & B2' & Lt).
  change (View.saved (View.of_game g2)) with (savedBest g2) in S2.
  change (View.best (View.of_game g2)) with (State.best (state g2)) in B2'.
  change (View.score (View.of_game g2)) with (State.score (state g2)) in B2', Lt.
  change (View.score (View.of_game g1)) with (State.score (state g1)) in S2, Lt.
  split; [exact S2 | split; [exact B2' | split]].
  - rewrite S2, B2'. exact Lt.
  - rewrite L2, F2, Bool.andb_false_r. exact E1.
Qed.

End Debounce.

(** On a new game, with the last write at time 0: a merge of two discs of
    value 2 at 3000 and another at 3500. *)
Lemma debounce_leaves_record_unwritten_witness :
  let A := snd (exDisc 4 300 766) in
  let B := snd (exDisc 5 232 766) in
  let g := startGame exRandom 0 100 desktop 0 60 4 0 in
  let g1 := performMerge exLog2 exCos exSin exPI exRandom 3000 A B 266 766 g in
  let g2 := performMerge exLog2 exCos exSin exPI exRandom 3500 A B 266 766 g1 in
  (savedBest g2 < State.best (state g2))%Z /\ lastBestSave g2 = 3000.
Proof.
  intros A B g g1 g2.
  destruct (debounce_leaves_record_unwritten exLog2 exCos exSin exPI exRandom
              3000 3500 A B A B 266 766 266 766 g) as (_ & _ & L & T).
  - vm_compute. reflexivity.
  - vm_compute. reflexivity.
  - vm_compute. reflexivity.
  - vm_compute. discriminate.
  - split; [exact L | exact T].
Defined.
